(** * Hookable: a shallow embedding of [src/hookable.ts]

    The class [Hookable] keeps a table of named callback arrays, a table
    of deprecated names, two interceptor lists and a set of deprecation
    messages already printed.  JavaScript objects that are mutated in place
    and shared (callback arrays, the closures returned as unregister
    handles, the closures created by [hookOnce]) live in an explicit store,
    so that aliasing is visible; everything else is a value.

    Conventions
    - a JS object used as a dictionary is a [gmap string _], which holds
      its own properties.  [this._hooks] and [this._deprecatedHooks] are
      plain objects, so that a lookup under a property name of
      [Object.prototype] ([constructor], [toString], ...) finds the
      inherited value instead; the definitions below are the code on the
      other names, called [plain], and the theorems about lookups assume
      plain names: [plain name] for a name passed in, [plain_table] for the
      keys and targets of a deprecation table, [reachable_plain] for a
      world reached by operations on plain names;
    - [this._hooks[name] = undefined] keeps the key and stores [undefined]:
      a slot is [option nat], [None] for [undefined], [Some l] for a
      reference to the array at address [l];
    - the [while] loop of [hook] may run forever; [resolve] returns [None]
      exactly in that case (lemmas [resolve_complete] and
      [resolve_loop_cycle]), and every operation that runs the loop is
      [option]-valued;
    - functions supplied by clients are opaque: [UserFn f] is the function
      with identity [f], and its behaviour is the section variable [user]. *)

From stdpp Require Import base option strings gmap list sets relations.
From Stdlib Require Import Lia.

Set Warnings "-register-all,-clear-no-such-hyp".
Open Scope string_scope.
Open Scope list_scope.

(** ** Values *)

(** A function value stored in a hook array: a client function, or the
    wrapper closure created by [hookOnce] (identified by its environment). *)
Inductive HookCallback :=
| UserFn (f : nat)
| OnceFn (c : nat).

#[global] Instance HookCallback_eq_dec : EqDecision HookCallback.
Proof. solve_decision. Defined.

Inductive Val :=
| VUndef
| VNum (n : nat)
| VStr (s : string)
| VFn (fn : HookCallback)
| VEvent (e : nat)
| VArr (l : list Val).

(** [DeprecatedHook] of [types.ts]: [{ message?: string, to: string }]. *)
Record DeprecatedHook := { message : option string; to : string }.

(** The value returned by [hook]: the no-op arrow [() => {}] or the arrow of
    lines 61-66, identified by the address of its environment. *)
Inductive Unreg :=
| UNoop
| UClosure (i : nat).

(** Environment of the arrow returned by [hook]: the resolved [name] and the
    variable [function_], which the arrow sets to [undefined]. *)
Record UnregEnv := { u_name : string; u_function : option HookCallback }.

(** Environment of the wrapper built by [hookOnce]. *)
Record OnceEnv := {
  _unreg : option Unreg;
  _function : option HookCallback;
  function_ : nat
}.

(** The event object [{ name, args, context }] handed to interceptors. *)
Record SpyEvent := {
  ev_name : string;
  ev_args : list Val;
  ev_context : gmap string Val
}.

(** ** The instance and the store *)

Record Hookable := {
  _hooks : gmap string (option nat);
  _before : option (list HookCallback);
  _after : option (list HookCallback);
  _deprecatedHooks : gmap string DeprecatedHook;
  _deprecatedMessages : option (gset string)
}.

Record World := {
  this : Hookable;
  arrays : list (list HookCallback);
  unregs : list UnregEnv;
  onces : list OnceEnv;
  removeFns : list (list Unreg);
  events : list SpyEvent;
  console : list string
}.

(** [new Hookable()] *)
Definition constructor : World :=
  {| this := {| _hooks := ∅; _before := None; _after := None;
                _deprecatedHooks := ∅; _deprecatedMessages := None |};
     arrays := []; unregs := []; onces := []; removeFns := [];
     events := []; console := [] |}.

(** Field updates. *)
Definition set_this (f : Hookable → Hookable) (w : World) : World :=
  {| this := f (this w); arrays := arrays w; unregs := unregs w;
     onces := onces w; removeFns := removeFns w; events := events w;
     console := console w |}.

Definition set_arrays (f : list (list HookCallback) → list (list HookCallback))
    (w : World) : World :=
  {| this := this w; arrays := f (arrays w); unregs := unregs w;
     onces := onces w; removeFns := removeFns w; events := events w;
     console := console w |}.

Definition set_unregs (f : list UnregEnv → list UnregEnv) (w : World) : World :=
  {| this := this w; arrays := arrays w; unregs := f (unregs w);
     onces := onces w; removeFns := removeFns w; events := events w;
     console := console w |}.

Definition set_onces (f : list OnceEnv → list OnceEnv) (w : World) : World :=
  {| this := this w; arrays := arrays w; unregs := unregs w;
     onces := f (onces w); removeFns := removeFns w; events := events w;
     console := console w |}.

Definition set_removeFns (f : list (list Unreg) → list (list Unreg))
    (w : World) : World :=
  {| this := this w; arrays := arrays w; unregs := unregs w;
     onces := onces w; removeFns := f (removeFns w); events := events w;
     console := console w |}.

Definition set_events (f : list SpyEvent → list SpyEvent) (w : World) : World :=
  {| this := this w; arrays := arrays w; unregs := unregs w;
     onces := onces w; removeFns := removeFns w; events := f (events w);
     console := console w |}.

Definition set_console (f : list string → list string) (w : World) : World :=
  {| this := this w; arrays := arrays w; unregs := unregs w;
     onces := onces w; removeFns := removeFns w; events := events w;
     console := f (console w) |}.

Definition set_hooks (f : gmap string (option nat) → gmap string (option nat))
    (h : Hookable) : Hookable :=
  {| _hooks := f (_hooks h); _before := _before h; _after := _after h;
     _deprecatedHooks := _deprecatedHooks h;
     _deprecatedMessages := _deprecatedMessages h |}.

Definition set_before (f : option (list HookCallback) → option (list HookCallback))
    (h : Hookable) : Hookable :=
  {| _hooks := _hooks h; _before := f (_before h); _after := _after h;
     _deprecatedHooks := _deprecatedHooks h;
     _deprecatedMessages := _deprecatedMessages h |}.

Definition set_after (f : option (list HookCallback) → option (list HookCallback))
    (h : Hookable) : Hookable :=
  {| _hooks := _hooks h; _before := _before h; _after := f (_after h);
     _deprecatedHooks := _deprecatedHooks h;
     _deprecatedMessages := _deprecatedMessages h |}.

Definition set_deprecatedHooks
    (f : gmap string DeprecatedHook → gmap string DeprecatedHook)
    (h : Hookable) : Hookable :=
  {| _hooks := _hooks h; _before := _before h; _after := _after h;
     _deprecatedHooks := f (_deprecatedHooks h);
     _deprecatedMessages := _deprecatedMessages h |}.

Definition set_deprecatedMessages
    (f : option (gset string) → option (gset string)) (h : Hookable) : Hookable :=
  {| _hooks := _hooks h; _before := _before h; _after := _after h;
     _deprecatedHooks := _deprecatedHooks h;
     _deprecatedMessages := f (_deprecatedMessages h) |}.

(** ** Names inherited from [Object.prototype] *)

(** The property names that an object created by [{}] inherits: for these,
    [object[name]] is a function (or, for [__proto__], the prototype
    itself) although the object has no such property of its own. *)
Definition Object_prototype_names : list string :=
  ["constructor"; "__defineGetter__"; "__defineSetter__"; "hasOwnProperty";
   "__lookupGetter__"; "__lookupSetter__"; "isPrototypeOf";
   "propertyIsEnumerable"; "toString"; "valueOf"; "__proto__";
   "toLocaleString"].

Definition inherited (name : string) : bool :=
  bool_decide (name ∈ Object_prototype_names).

(** A name under which a lookup in [this._hooks] or
    [this._deprecatedHooks] finds the object's own property or nothing. *)
Definition plain (name : string) : Prop := inherited name = false.

(** Every key of the table and every target is plain: the loop of lines
    39-42 then reads own entries only, from a plain name on. *)
Definition plain_table (deps : gmap string DeprecatedHook) : Prop :=
  ∀ k d, deps !! k = Some d → plain k ∧ plain (to d).

(** [this._hooks[name] || []] read as a value: the callbacks a dispatch of
    [name] finds.  For a plain [name]; under an inherited name the source
    reads the inherited value. *)
Definition hooksOf (w : World) (name : string) : list HookCallback :=
  match _hooks (this w) !! name with
  | Some (Some l) => default [] (arrays w !! l)
  | _ => []
  end.

(** ** Resolution of deprecated names (lines 37-42) *)

(** The [while] loop, with [dep] the last entry seen.  Each iteration
    consumes one unit of fuel.  The lookup is that of own entries: the
    loop of the source is this one on a [plain_table] from a [plain] name
    (under an inherited name line 39 finds the inherited value and takes a
    hop to [undefined]). *)
Fixpoint resolve_loop (fuel : nat) (deps : gmap string DeprecatedHook)
    (name : string) (dep : option DeprecatedHook)
    : option (string * option DeprecatedHook) :=
  match deps !! name with
  | None => Some (name, dep)
  | Some d =>
      match fuel with
      | 0 => None
      | S k => resolve_loop k deps (to d) (Some d)
      end
  end.

(** A chain that ends visits every entry at most once, so [size deps]
    iterations are enough whenever the loop ends at all. *)
Definition resolve (deps : gmap string DeprecatedHook) (name : string)
    : option (string * option DeprecatedHook) :=
  resolve_loop (size deps) deps name None.

(** One hop of the alias graph. *)
Definition alias (deps : gmap string DeprecatedHook) (a b : string) : Prop :=
  ∃ d, deps !! a = Some d ∧ to d = b.

Definition acyclic (deps : gmap string DeprecatedHook) : Prop :=
  ∀ a, ¬ tc (alias deps) a a.

(** ** Deprecation warnings (lines 43-56) *)

Definition deprecation_message (originalName : string) (dep : DeprecatedHook)
    : string :=
  let synthesized :=
    originalName +:+ " hook has been deprecated" +:+
    (if decide (to dep = "") then "" else ", please use " +:+ to dep) in
  match message dep with
  | Some m => if decide (m = "") then synthesized else m
  | None => synthesized
  end.

(** The messages already printed; the set does not exist before the first
    warning. *)
Definition seen (w : World) : gset string :=
  default ∅ (_deprecatedMessages (this w)).

(** Lines 49-55: create the set on first use, print the message unless it
    is in the set, and record it. *)
Definition warn (msg : string) (w : World) : World :=
  if decide (msg ∈ seen w)
  then set_this (set_deprecatedMessages (λ _, Some (seen w))) w
  else set_console (λ c, c ++ [msg])
         (set_this (set_deprecatedMessages (λ _, Some ({[msg]} ∪ seen w))) w).

(** Lines 43-56: [dep] is the entry of the last hop, if there was one. *)
Definition deprecation_warning (originalName : string)
    (dep : option DeprecatedHook) (allowDeprecated : bool) (w : World) : World :=
  match dep with
  | Some d =>
      if allowDeprecated then w
      else warn (deprecation_message originalName d) w
  | None => w
  end.

(** ** Registration *)

(** [Array.prototype.indexOf] on function references. *)
Fixpoint indexOf (a : list HookCallback) (fn : HookCallback) : option nat :=
  match a with
  | [] => None
  | x :: r => if decide (x = fn) then Some 0 else S <$> indexOf r fn
  end.

(** [index = a.indexOf(fn); if (index !== -1) a.splice(index, 1)] *)
Definition splice_first (a : list HookCallback) (fn : HookCallback)
    : list HookCallback :=
  match indexOf a fn with
  | Some i => delete i a
  | None => a
  end.

(** Line 58: [this._hooks[name] = this._hooks[name] || []]; returns the
    address of the array under [name]. *)
Definition ensure_array (name : string) (w : World) : nat * World :=
  match _hooks (this w) !! name with
  | Some (Some l) => (l, w)
  | _ =>
      let l := length (arrays w) in
      (l, set_this (set_hooks (insert name (Some l)))
            (set_arrays (λ a, a ++ [[]]) w))
  end.

(** Line 59: [push] on the array at address [l]. *)
Definition array_push (l : nat) (fn : HookCallback) (w : World) : World :=
  set_arrays (alter (λ a, a ++ [fn]) l) w.

(** Lines 58-59. *)
Definition push_hook (name : string) (fn : HookCallback) (w : World) : World :=
  let '(l, w1) := ensure_array name w in array_push l fn w1.

(** Lines 61-66: allocate the returned arrow. *)
Definition new_unreg (name : string) (fn : HookCallback) (w : World)
    : Unreg * World :=
  (UClosure (length (unregs w)),
   set_unregs (λ u, u ++ [{| u_name := name; u_function := Some fn |}]) w).

(** Lines 32-67.  The two tests of line 33 return the same no-op arrow;
    [None] when the loop of lines 39-42 does not end. *)
Definition hook (name : string) (function_ : Val) (allowDeprecated : bool)
    (w : World) : option (Unreg * World) :=
  match function_ with
  | VFn fn =>
      if decide (name = "") then Some (UNoop, w) else
      '(name', dep) ← resolve (_deprecatedHooks (this w)) name;
      let w1 := deprecation_warning name dep allowDeprecated w in
      Some (new_unreg name' fn (push_hook name' fn w1))
  | _ => Some (UNoop, w)
  end.

(** Lines 83-95, for a [plain] name (under an inherited name line 84 finds
    the inherited value and line 85 throws). *)
Definition removeHook (name : string) (fn : HookCallback) (w : World) : World :=
  match _hooks (this w) !! name with
  | Some (Some l) =>
      match arrays w !! l with
      | Some a =>
          let a' := splice_first a fn in
          let w1 := set_arrays (<[l := a']>) w in
          if decide (length a' = 0)
          then set_this (set_hooks (delete name)) w1
          else w1
      | None => w
      end
  | _ => w
  end.

(** Calling a value returned by [hook] (lines 61-66). *)
Definition unregister (u : Unreg) (w : World) : World :=
  match u with
  | UNoop => w
  | UClosure i =>
      match unregs w !! i with
      | Some {| u_name := name; u_function := Some fn |} =>
          set_unregs (<[i := {| u_name := name; u_function := None |}]>)
            (removeHook name fn w)
      | _ => w
      end
  end.

(** Lines 69-81, for a client function [f].  The wrapper is allocated
    first, registered, and then its variable [_unreg] receives the value
    returned by [hook]. *)
Definition hookOnce (name : string) (f : nat) (w : World)
    : option (Unreg * World) :=
  let c := length (onces w) in
  let w0 := set_onces (λ o, o ++ [{| _unreg := None;
                                      _function := Some (OnceFn c);
                                      function_ := f |}]) w in
  '(u, w1) ← hook name (VFn (OnceFn c)) false w0;
  Some (u, set_onces (alter (λ e, {| _unreg := Some u;
                                     _function := _function e;
                                     function_ := function_ e |}) c) w1).

(** Lines 72-76: what the wrapper does before it forwards the call. *)
Definition once_prologue (c : nat) (env : OnceEnv) (w : World) : World :=
  let w1 := match _unreg env with
            | Some u => unregister u w
            | None => w
            end in
  set_onces (<[c := {| _unreg := None; _function := None;
                       function_ := function_ env |}]>) w1.

(** The entry [deprecateHook] stores for its second argument (line 98). *)
Definition deprecation_entry (deprecated : string + DeprecatedHook)
    : DeprecatedHook :=
  match deprecated with
  | inl s => {| message := None; to := s |}
  | inr d => d
  end.

(** Lines 97-104, for a [plain] name and a plain target (under an inherited
    name line 99 takes the inherited value and line 101 throws). *)
Definition deprecateHook (name : string) (deprecated : string + DeprecatedHook)
    (w : World) : option World :=
  let d := deprecation_entry deprecated in
  let old := hooksOf w name in
  let w1 := set_this (set_deprecatedHooks (insert name d)) w in
  let w2 := set_this (set_hooks (insert name None)) w1 in
  foldl (λ acc fn, w' ← acc; snd <$> hook name (VFn fn) false w') (Some w2) old.

(** Lines 106-111; the argument is the object's own entries in
    enumeration order. *)
Definition deprecateHooks (deprecatedHooks : list (string * DeprecatedHook))
    (w : World) : option World :=
  let w1 := set_this (set_deprecatedHooks
              (λ m, foldl (λ m kv, <[kv.1 := kv.2]> m) m deprecatedHooks)) w in
  foldl (λ acc kv, w' ← acc; deprecateHook kv.1 (inr kv.2) w')
        (Some w1) deprecatedHooks.

(** ** Bulk registration (lines 113-131) *)

(** [NestedHooks]: an object whose values are callbacks or nested objects,
    given by its entries in enumeration order. *)
Inductive NestedHooks :=
| NFn (fn : HookCallback)
| NObj (entries : list (string * NestedHooks)).

(** Modelled from the spec: the flat mapping built by [flatHooks] of
    [utils.ts], which is not among the sources, "from fully-qualified
    dotted hook-name to callback".  Assignment [hooks[name] = fn] on an
    object kept as its entry list: an existing key keeps its place and
    takes the new value. *)
Fixpoint obj_set (name : string) (fn : HookCallback)
    (o : list (string * HookCallback)) : list (string * HookCallback) :=
  match o with
  | [] => [(name, fn)]
  | (k, v) :: r =>
      if decide (k = name) then (k, fn) :: r else (k, v) :: obj_set name fn r
  end.

(** Modelled from the spec: [flatHooks] of [utils.ts], which is not among
    the sources.  "Flattening is a pure data-shape transform: recursively
    join keys with [.] until a callable value is reached." *)
Fixpoint flatNode (name : string) (n : NestedHooks)
    (hooks : list (string * HookCallback)) : list (string * HookCallback) :=
  match n with
  | NFn fn => obj_set name fn hooks
  | NObj entries =>
      (fix go (es : list (string * NestedHooks)) hooks :=
         match es with
         | [] => hooks
         | (k, sub) :: r => go r (flatNode (name +:+ "." +:+ k) sub hooks)
         end) entries hooks
  end.

(** Modelled from the spec: [flatHooks] of [utils.ts], which is not among
    the sources, on the top-level object: "accepts a nested mapping [...]
    flattened into a flat mapping from fully-qualified dotted hook-name to
    callback". *)
Definition flatHooks (configHooks : list (string * NestedHooks))
    : list (string * HookCallback) :=
  foldl (λ hooks kv, flatNode kv.1 kv.2 hooks) [] configHooks.

(** [Object.keys(hooks).map(key => this.hook(key, hooks[key]))] *)
Fixpoint hook_all (hooks : list (string * HookCallback)) (w : World)
    : option (list Unreg * World) :=
  match hooks with
  | [] => Some ([], w)
  | (key, fn) :: r =>
      '(u, w1) ← hook key (VFn fn) false w;
      '(us, w2) ← hook_all r w1;
      Some (u :: us, w2)
  end.

(** [addHooks] returns its arrow as the address of the array [removeFns]
    the arrow closes over. *)
Definition addHooks (configHooks : list (string * NestedHooks)) (w : World)
    : option (nat * World) :=
  '(us, w1) ← hook_all (flatHooks configHooks) w;
  Some (length (removeFns w1), set_removeFns (λ r, r ++ [us]) w1).

(** Line 121: [splice(0, length)] empties [removeFns] and yields its former
    content, whose members are then called in order. *)
Definition removeAll (i : nat) (w : World) : World :=
  let fns := default [] (removeFns w !! i) in
  foldl (λ w' u, unregister u w') (set_removeFns (<[i := []]>) w) fns.

Definition removeHooks (configHooks : list (string * NestedHooks)) (w : World)
    : World :=
  foldl (λ w' kv, removeHook kv.1 kv.2 w') w (flatHooks configHooks).

(** ** Interceptors (lines 160-176) *)

Definition beforeEach (fn : HookCallback) (w : World) : World :=
  set_this (set_before (λ b, Some (default [] b ++ [fn]))) w.

Definition afterEach (fn : HookCallback) (w : World) : World :=
  set_this (set_after (λ a, Some (default [] a ++ [fn]))) w.

(** The arrows returned by [beforeEach] and [afterEach] close over
    [function_] only and read the list when they are called. *)
Definition unBeforeEach (fn : HookCallback) (w : World) : World :=
  set_this (set_before (fmap (λ b, splice_first b fn))) w.

Definition unAfterEach (fn : HookCallback) (w : World) : World :=
  set_this (set_after (fmap (λ a, splice_first a fn))) w.

(** ** Dispatch (lines 133-158) *)

Inductive Outcome :=
| Returns (v : Val)
| Throws (e : Val).

(** One call of an element [fire_cb] of a callback list, which ran the
    client function [fire_fn] on [fire_args] ([None] for a wrapper without
    environment, which no program creates). *)
Record Fire := {
  fire_cb : HookCallback;
  fire_fn : option nat;
  fire_args : list Val
}.

(** The work left until a promise settles, and how it settles. *)
Record Promise := { settle : World → World * list Fire * Outcome }.

Inductive Result :=
| RValue (v : Val)
| RPromise (p : Promise)
| RThrow (e : Val).

(** A calling strategy: receives the address of the callback array and the
    arguments. *)
Definition Caller : Type :=
  nat → list Val → World → World * list Fire * Result.

(** The event object of line 142. *)
Definition event_object (name : string) (args : list Val) : SpyEvent :=
  {| ev_name := name; ev_args := args; ev_context := ∅ |}.

Section Dispatch.

(** What client function [f] does when called. *)
Variable user : nat → list Val → World → World * Outcome.

(** Calling a stored function.  For the wrapper of [hookOnce] these are
    lines 71-78. *)
Definition invoke (cb : HookCallback) (args : list Val) (w : World)
    : World * list Fire * Outcome :=
  match cb with
  | UserFn f =>
      let '(w1, o) := user f args w in
      (w1, [{| fire_cb := cb; fire_fn := Some f; fire_args := args |}], o)
  | OnceFn c =>
      match onces w !! c with
      | Some env =>
          let '(w1, o) := user (function_ env) args (once_prologue c env w) in
          (w1, [{| fire_cb := cb; fire_fn := Some (function_ env);
                   fire_args := args |}], o)
      | None =>
          (w, [{| fire_cb := cb; fire_fn := None; fire_args := args |}],
           Throws VUndef)
      end
  end.

(** Modelled from the spec: [callEachWith] of [utils.ts], which is not among
    the sources.  "Every before-interceptor is invoked synchronously, in
    registration order"; an exception leaves the loop. *)
Fixpoint callEachWith (callbacks : list HookCallback) (argument0 : Val)
    (w : World) : World * list Fire * option Val :=
  match callbacks with
  | [] => (w, [], None)
  | cb :: r =>
      let '(w1, t1, o) := invoke cb [argument0] w in
      match o with
      | Throws e => (w1, t1, Some e)
      | Returns _ =>
          let '(w2, t2, x) := callEachWith r argument0 w1 in
          (w2, t1 ++ t2, x)
      end
  end.

(** Line 142. *)
Definition new_event (name : string) (args : list Val) (w : World)
    : option nat * World :=
  match _before (this w), _after (this w) with
  | None, None => (None, w)
  | _, _ =>
      (Some (length (events w)),
       set_events (λ es, es ++ [event_object name args]) w)
  end.

Definition event_val (event : option nat) : Val :=
  match event with
  | Some e => VEvent e
  | None => VUndef
  end.

(** Lines 143-145. *)
Definition before_stage (event : option nat) (w : World)
    : World * list Fire * option Val :=
  match _before (this w) with
  | Some bs => callEachWith bs (event_val event) w
  | None => (w, [], None)
  end.

(** Lines 149-151 and 154-156. *)
Definition after_stage (event : option nat) (w : World)
    : World * list Fire * option Val :=
  match _after (this w), event with
  | Some afters, Some e => callEachWith afters (VEvent e) w
  | _, _ => (w, [], None)
  end.

(** [this._hooks[name] || []] as the caller receives it: the stored array
    itself, or a fresh empty one.  For a [plain] name (under an inherited
    name the caller receives the inherited value). *)
Definition hooks_arg (name : string) (w : World) : nat * World :=
  match _hooks (this w) !! name with
  | Some (Some l) => (l, w)
  | _ => (length (arrays w), set_arrays (λ a, a ++ [[]]) w)
  end.

(** [Promise.prototype.finally]: [k] runs once the promise has settled,
    whatever the outcome, which passes through unless [k] throws. *)
Definition finally (p : Promise)
    (k : World → World * list Fire * option Val) : Promise :=
  {| settle := λ w,
       let '(w1, t1, o) := settle p w in
       let '(w2, t2, x) := k w1 in
       (w2, t1 ++ t2, match x with Some e => Throws e | None => o end) |}.

Definition callHookWith (caller : Caller) (name : string) (args : list Val)
    (w : World) : World * list Fire * Result :=
  let '(event, w0) := new_event name args w in
  match before_stage event w0 with
  | (w1, tb, Some e) => (w1, tb, RThrow e)
  | (w1, tb, None) =>
      let '(l, w2) := hooks_arg name w1 in
      let '(w3, th, result) := caller l args w2 in
      match result with
      | RPromise p =>
          (w3, tb ++ th, RPromise (finally p (after_stage event)))
      | RValue v =>
          match after_stage event w3 with
          | (w4, ta, None) => (w4, tb ++ th ++ ta, RValue v)
          | (w4, ta, Some e) => (w4, tb ++ th ++ ta, RThrow e)
          end
      | RThrow e => (w3, tb ++ th, RThrow e)
      end
  end.

(** Modelled from the spec: the chain built by [serialCaller] of
    [utils.ts], which is not among the sources.  Calls every callback of
    [hooks] in order until one fails; [last] is the value of the previous
    one ("the return value is the result of the last callback invoked"). *)
Fixpoint run_serial (hooks : list HookCallback) (args : list Val) (last : Val)
    (w : World) : World * list Fire * Outcome :=
  match hooks with
  | [] => (w, [], Returns last)
  | cb :: r =>
      let '(w1, t1, o) := invoke cb args w in
      match o with
      | Throws e => (w1, t1, Throws e)
      | Returns v =>
          let '(w2, t2, o2) := run_serial r args v w1 in
          (w2, t1 ++ t2, o2)
      end
  end.

(** Modelled from the spec: [serialCaller] of [utils.ts], which is not among
    the sources.  "Invokes each registered callback for name in registration
    order, one at a time, forwarding the same argument list to each"; a
    failing callback "abort[s] remaining callbacks"; the dispatch "operates
    over the snapshot taken at call start".  The callbacks run when the
    promise is driven. *)
Definition serialCaller : Caller := λ l args w,
  let snapshot := default [] (arrays w !! l) in
  (w, [], RPromise {| settle := run_serial snapshot args VUndef |}).

(** Modelled from the spec: the calls made by [parallelCaller] of
    [utils.ts], which is not among the sources.  Starts every callback of
    [hooks] in order and collects the outcomes. *)
Fixpoint run_parallel (hooks : list HookCallback) (args : list Val)
    (w : World) : World * list Fire * list Outcome :=
  match hooks with
  | [] => (w, [], [])
  | cb :: r =>
      let '(w1, t1, o) := invoke cb args w in
      let '(w2, t2, os) := run_parallel r args w1 in
      (w2, t1 ++ t2, o :: os)
  end.

(** Modelled from the spec: the aggregate of [parallelCaller] of
    [utils.ts], which is not among the sources: the values "in registration
    order", or a failure ("a single failure may immediately fail the
    aggregate"). *)
Fixpoint all_outcomes (os : list Outcome) : Val + Val :=
  match os with
  | [] => inl (VArr [])
  | Throws e :: _ => inr e
  | Returns v :: r =>
      match all_outcomes r with
      | inl (VArr vs) => inl (VArr (v :: vs))
      | other => other
      end
  end.

(** Modelled from the spec: [parallelCaller] of [utils.ts], which is not
    among the sources.  "Invokes every registered callback concurrently with
    the same arguments and waits for all to complete", "starting all, then
    awaiting completion", "collecting results in registration order". *)
Definition parallelCaller : Caller := λ l args w,
  let snapshot := default [] (arrays w !! l) in
  let '(w1, t, os) := run_parallel snapshot args w in
  (w1, t, RPromise {| settle := λ w',
     (w', [], match all_outcomes os with
              | inl v => Returns v
              | inr e => Throws e
              end) |}).

Definition callHook (name : string) (args : list Val) (w : World)
    : World * list Fire * Result :=
  callHookWith serialCaller name args w.

Definition callHookParallel (name : string) (args : list Val) (w : World)
    : World * list Fire * Result :=
  callHookWith parallelCaller name args w.

(** A strategy a client can pass to [callHookWith]: the loop
    [for (const hook of hooks) hook(...args)], which reads [hooks[i]] when
    it gets to it and stops once [i] reaches the current length.  The loop
    is cut after [fuel] iterations, reported as the exception "fuel". *)
Fixpoint forOf_loop (fuel : nat) (l i : nat) (args : list Val) (w : World)
    : World * list Fire * Result :=
  match fuel with
  | 0 => (w, [], RThrow (VStr "fuel"))
  | S k =>
      match default [] (arrays w !! l) !! i with
      | None => (w, [], RValue VUndef)
      | Some cb =>
          let '(w1, t1, o) := invoke cb args w in
          match o with
          | Throws e => (w1, t1, RThrow e)
          | Returns _ =>
              let '(w2, t2, r) := forOf_loop k l (S i) args w1 in
              (w2, t1 ++ t2, r)
          end
      end
  end.

Definition forOfCaller (fuel : nat) : Caller := λ l args w,
  forOf_loop fuel l 0 args w.

(** Drives a dispatch to its end: the whole list of calls it makes. *)
Definition complete (r : World * list Fire * Result)
    : World * list Fire * Outcome :=
  let '(w, t, res) := r in
  match res with
  | RValue v => (w, t, Returns v)
  | RThrow e => (w, t, Throws e)
  | RPromise p => let '(w', t', o) := settle p w in (w', t ++ t', o)
  end.

End Dispatch.

(** ** Sequences of public operations *)

(** The operations a client can perform on an instance without running
    client code, and the steps a dispatch takes on its own: [OpOnceWrapper]
    is the registry side of a call of a [hookOnce] wrapper, [OpNewEvent]
    and [OpHooksArg] are lines 142 and 146 of [callHookWith].  What a
    dispatch does besides is client code, that is, further operations. *)
Inductive Op :=
| OpHook (name : string) (function_ : Val) (allowDeprecated : bool)
| OpHookOnce (name : string) (f : nat)
| OpRemoveHook (name : string) (fn : HookCallback)
| OpDeprecateHook (name : string) (deprecated : string + DeprecatedHook)
| OpDeprecateHooks (deprecatedHooks : list (string * DeprecatedHook))
| OpAddHooks (configHooks : list (string * NestedHooks))
| OpRemoveHooks (configHooks : list (string * NestedHooks))
| OpUnregister (u : Unreg)
| OpRemoveAll (i : nat)
| OpOnceWrapper (c : nat)
| OpBeforeEach (fn : HookCallback)
| OpAfterEach (fn : HookCallback)
| OpUnBeforeEach (fn : HookCallback)
| OpUnAfterEach (fn : HookCallback)
| OpNewEvent (name : string) (args : list Val)
| OpHooksArg (name : string).

(** [None] when the operation does not return. *)
Definition run_op (o : Op) (w : World) : option World :=
  match o with
  | OpHook name function_ allowDeprecated =>
      snd <$> hook name function_ allowDeprecated w
  | OpHookOnce name f => snd <$> hookOnce name f w
  | OpRemoveHook name fn => Some (removeHook name fn w)
  | OpDeprecateHook name deprecated => deprecateHook name deprecated w
  | OpDeprecateHooks deprecatedHooks => deprecateHooks deprecatedHooks w
  | OpAddHooks configHooks => snd <$> addHooks configHooks w
  | OpRemoveHooks configHooks => Some (removeHooks configHooks w)
  | OpUnregister u => Some (unregister u w)
  | OpRemoveAll i => Some (removeAll i w)
  | OpOnceWrapper c =>
      Some (match onces w !! c with
            | Some env => once_prologue c env w
            | None => w
            end)
  | OpBeforeEach fn => Some (beforeEach fn w)
  | OpAfterEach fn => Some (afterEach fn w)
  | OpUnBeforeEach fn => Some (unBeforeEach fn w)
  | OpUnAfterEach fn => Some (unAfterEach fn w)
  | OpNewEvent name args => Some (new_event name args w).2
  | OpHooksArg name => Some (hooks_arg name w).2
  end.

Fixpoint run_ops (os : list Op) (w : World) : option World :=
  match os with
  | [] => Some w
  | o :: r => w' ← run_op o w; run_ops r w'
  end.

Inductive reachable : World → Prop :=
| reachable_new : reachable constructor
| reachable_op w o w' : reachable w → run_op o w = Some w' → reachable w'.

(** ** Representation invariants *)

(** Every array held by the table exists, is non-empty, and is held under
    one name only. *)
Definition hooks_ok (w : World) : Prop :=
  (∀ name l, _hooks (this w) !! name = Some (Some l) →
     ∃ a, arrays w !! l = Some a ∧ a ≠ []) ∧
  (∀ n1 n2 l, _hooks (this w) !! n1 = Some (Some l) →
     _hooks (this w) !! n2 = Some (Some l) → n1 = n2).

(** The console holds exactly the recorded messages, each once. *)
Definition console_ok (w : World) : Prop :=
  NoDup (console w) ∧ ∀ m, m ∈ console w ↔ m ∈ seen w.

(** A key left holding [undefined] is the name of a deprecated hook. *)
Definition slots_ok (w : World) : Prop :=
  ∀ name, _hooks (this w) !! name = Some None →
    is_Some (_deprecatedHooks (this w) !! name).

Definition inv (w : World) : Prop := hooks_ok w ∧ console_ok w ∧ slots_ok w.

(** ** What an operation leaves alone *)

Definition same_table (w w' : World) : Prop :=
  _hooks (this w') = _hooks (this w) ∧ arrays w' = arrays w.

Definition same_log (w w' : World) : Prop :=
  console w' = console w ∧
  _deprecatedMessages (this w') = _deprecatedMessages (this w).

Definition same_deps (w w' : World) : Prop :=
  _deprecatedHooks (this w') = _deprecatedHooks (this w).

(** The world after a registration that goes through. *)
Definition registered (name name' : string) (dep : option DeprecatedHook)
    (fn : HookCallback) (allow : bool) (w : World) : World :=
  set_unregs (λ us, us ++ [{| u_name := name'; u_function := Some fn |}])
    (push_hook name' fn (deprecation_warning name dep allow w)).

(** ** Handles that have not been called yet *)

(** What calling [u] would remove: the name and the function its
    environment still holds. *)
Definition live_entry (w : World) (u : Unreg) : option (string * HookCallback) :=
  match u with
  | UClosure i =>
      match unregs w !! i with
      | Some {| u_name := n; u_function := Some fn |} => Some (n, fn)
      | _ => None
      end
  | UNoop => None
  end.

(** The functions the handles [us] would remove from the hooks of [name]. *)
Definition pending (w : World) (us : list Unreg) (name : string)
    : list HookCallback :=
  omap (λ u, match live_entry w u with
             | Some (n, fn) => if decide (n = name) then Some fn else None
             | None => None
             end) us.

Definition closures (us : list Unreg) : list nat :=
  omap (λ u, match u with UClosure i => Some i | UNoop => None end) us.

(** The callbacks called by a dispatch, in order. *)
Definition called (t : list Fire) : list HookCallback := map fire_cb t.

#[global] Arguments hook : simpl never.
#[global] Arguments removeHook : simpl never.
#[global] Arguments unregister : simpl never.
#[global] Arguments push_hook : simpl never.
#[global] Arguments warn : simpl never.
#[global] Arguments hookOnce : simpl never.
#[global] Arguments deprecateHook : simpl never.
#[global] Arguments deprecateHooks : simpl never.
#[global] Arguments addHooks : simpl never.
#[global] Arguments removeAll : simpl never.
#[global] Arguments removeHooks : simpl never.
#[global] Arguments once_prologue : simpl never.
#[global] Arguments registered : simpl never.
#[global] Arguments hooksOf : simpl never.
#[global] Arguments pending : simpl never.

(** ** Sample clients and worlds *)

(** Functions that do nothing. *)
Definition quiet : nat → list Val → World → World * Outcome :=
  λ _ _ w, (w, Returns VUndef).

(** Function 0 removes function 1 from the hooks of ["x"]; the others do
    nothing. *)
Definition remover : nat → list Val → World → World * Outcome :=
  λ f _ w,
    if decide (f = 0) then (removeHook "x" (UserFn 1) w, Returns VUndef)
    else (w, Returns VUndef).

(** Function 0 throws; the others do nothing. *)
Definition thrower : nat → list Val → World → World * Outcome :=
  λ f _ w, if decide (f = 0) then (w, Throws (VStr "boom"))
           else (w, Returns VUndef).

(** The entry [{ to: target }]. *)
Definition to_ (target : string) : DeprecatedHook :=
  {| message := None; to := target |}.

(** [deprecateHook("a", "b")] on a new instance. *)
Definition deprecated_world : World :=
  default constructor (run_ops [OpDeprecateHook "a" (inl "b")] constructor).

(** [deprecateHook("a", "b"); deprecateHook("b", "c")] on a new instance. *)
Definition chain_ops : list Op :=
  [OpDeprecateHook "a" (inl "b"); OpDeprecateHook "b" (inl "c")].

Definition chain_world : World :=
  default constructor (run_ops chain_ops constructor).

Definition chain_deps : gmap string DeprecatedHook :=
  <["a" := to_ "b"]> (<["b" := to_ "c"]> ∅).

(** [deprecateHook("old", "new")] on a new instance. *)
Definition old_new_world : World :=
  default constructor (run_ops [OpDeprecateHook "old" (inl "new")] constructor).

(** [hook("a", f7)] on a new instance. *)
Definition one_hook_world : World :=
  default constructor (run_ops [OpHook "a" (VFn (UserFn 7)) false] constructor).

(** [hook("x", f0); hook("x", f1)] on a new instance. *)
Definition two_hooks_world : World :=
  default constructor
    (run_ops [OpHook "x" (VFn (UserFn 0)) false;
              OpHook "x" (VFn (UserFn 1)) false] constructor).

(** [beforeEach(f5); afterEach(f6); hook("x", f0)] on a new instance. *)
Definition spied_world : World :=
  default constructor
    (run_ops [OpBeforeEach (UserFn 5); OpAfterEach (UserFn 6);
              OpHook "x" (VFn (UserFn 0)) false] constructor).

(** [hookOnce("a", f7)] on a new instance. *)
Definition once_world : World :=
  default constructor (run_ops [OpHookOnce "a" 7] constructor).

(** [hookOnce("a", f7); deprecateHook("a", "b")] on a new instance. *)
Definition once_deprecated_world : World :=
  default constructor
    (run_ops [OpHookOnce "a" 7; OpDeprecateHook "a" (inl "b")] constructor).

(** The configuration [{ a: { b: fn } }]. *)
Definition nested_ab (fn : HookCallback) : list (string * NestedHooks) :=
  [("a", NObj [("b", NFn fn)])].

(** ** Further notions *)

(** No cycle of the alias graph can be reached from [name]. *)
Definition no_cycle_from (deps : gmap string DeprecatedHook) (name : string)
    : Prop :=
  ∀ c, rtc (alias deps) name c → ¬ tc (alias deps) c c.

(** Every deprecated name outside [S] has its key holding [undefined]. *)
Definition deprecated_undefined (S : string → Prop) (w : World) : Prop :=
  ∀ n, is_Some (_deprecatedHooks (this w) !! n) → ¬ S n →
    _hooks (this w) !! n = Some None.

(** What only grows: the deprecation table keeps its names, the console
    its lines, and an unregister arrow that has been called stays so. *)
Definition grows (w w' : World) : Prop :=
  (∀ n, is_Some (_deprecatedHooks (this w) !! n) →
        is_Some (_deprecatedHooks (this w') !! n)) ∧
  console w `prefix_of` console w' ∧
  (∀ i n, unregs w !! i = Some {| u_name := n; u_function := None |} →
          unregs w' !! i = Some {| u_name := n; u_function := None |}).

(** The loop of lines 127-130 on the flattened entries. *)
Definition removeHook_each (hooks : list (string * HookCallback)) (w : World)
    : World :=
  foldl (λ w' kv, removeHook kv.1 kv.2 w') w hooks.

(** The callbacks the entries [hooks] give for [name], in order. *)
Definition entries_for (hooks : list (string * HookCallback)) (name : string)
    : list HookCallback :=
  omap (λ kv, if decide (kv.1 = name) then Some kv.2 else None) hooks.

#[global] Arguments entries_for : simpl never.

(** [hook("x", f0); hook("x", f1); deprecateHook("old", "new")] on a new
    instance. *)
Definition mixed_world : World :=
  default constructor
    (run_ops [OpHook "x" (VFn (UserFn 0)) false;
              OpHook "x" (VFn (UserFn 1)) false;
              OpDeprecateHook "old" (inl "new")] constructor).

(** [hook("x", f0); deprecateHook("old", "new"); hook("new", f1)] on a new
    instance. *)
Definition renamed_world : World :=
  default constructor
    (run_ops [OpHook "x" (VFn (UserFn 0)) false;
              OpDeprecateHook "old" (inl "new");
              OpHook "new" (VFn (UserFn 1)) false] constructor).

(** [deprecateHook("a", "b"); deprecateHook("b", "a")] on a new instance. *)
Definition cyclic_world : World :=
  default constructor
    (run_ops [OpDeprecateHook "a" (inl "b"); OpDeprecateHook "b" (inl "a")]
       constructor).

(** ** Interceptor lists *)

(** The operations of lines 160-176 and the arrows they return. *)
Definition interceptor_op (o : Op) : bool :=
  match o with
  | OpBeforeEach _ | OpAfterEach _ | OpUnBeforeEach _ | OpUnAfterEach _ => true
  | _ => false
  end.

Definition same_interceptors (w w' : World) : Prop :=
  _before (this w') = _before (this w) ∧ _after (this w') = _after (this w).

(** [beforeEach(f5)] on a new instance, then the returned arrow. *)
Definition unspied_world : World :=
  default constructor
    (run_ops [OpBeforeEach (UserFn 5); OpUnBeforeEach (UserFn 5)] constructor).

(** [unspied_world], then [hook("x", f0)] and [removeHook("x", f0)]. *)
Definition unspied_used_world : World :=
  default constructor
    (run_ops [OpBeforeEach (UserFn 5); OpUnBeforeEach (UserFn 5);
              OpHook "x" (VFn (UserFn 0)) false; OpRemoveHook "x" (UserFn 0)]
       constructor).

(** ** Batch deprecation *)

(** [Object.assign(deps, deprecatedHooks)] (line 107). *)
Definition assigned (deprecatedHooks : list (string * DeprecatedHook))
    (deps : gmap string DeprecatedHook) : gmap string DeprecatedHook :=
  foldl (λ m kv, <[kv.1 := kv.2]> m) deps deprecatedHooks.

(** The name at which the loop of lines 39-42 leaves [name]. *)
Definition target (deps : gmap string DeprecatedHook) (name : string)
    : option string :=
  fst <$> resolve deps name.

(** The callbacks stored in [w] under those of [keys] that [deps] sends to
    [n], in the order of [keys]. *)
Definition moved_to (deps : gmap string DeprecatedHook) (w : World)
    (keys : list string) (n : string) : list HookCallback :=
  flat_map (λ k, if decide (target deps k = Some n) then hooksOf w k else [])
    keys.

(** [hook("a", f0); hook("b", f1); hook("c", f2)] on a new instance. *)
Definition abc_world : World :=
  default constructor
    (run_ops [OpHook "a" (VFn (UserFn 0)) false;
              OpHook "b" (VFn (UserFn 1)) false;
              OpHook "c" (VFn (UserFn 2)) false] constructor).

(** [deprecateHook("old", "")] on a new instance. *)
Definition nameless_world : World :=
  default constructor (run_ops [OpDeprecateHook "old" (inl "")] constructor).

(** ** Operations on plain names *)

(** The names an operation looks up in [this._hooks] and
    [this._deprecatedHooks], and the targets it stores, are plain.  Handles
    and wrappers use the names they captured. *)
Definition plain_op (o : Op) : bool :=
  match o with
  | OpHook name _ _ | OpHookOnce name _ | OpRemoveHook name _
  | OpHooksArg name =>
      negb (inherited name)
  | OpDeprecateHook name deprecated =>
      negb (inherited name) &&
      negb (inherited (to (deprecation_entry deprecated)))
  | OpDeprecateHooks deprecatedHooks =>
      forallb (λ kv, negb (inherited kv.1) && negb (inherited (to kv.2)))
        deprecatedHooks
  | OpAddHooks configHooks | OpRemoveHooks configHooks =>
      forallb (λ kv, negb (inherited kv.1)) (flatHooks configHooks)
  | _ => true
  end.

(** The worlds reached from a new instance by operations on plain names:
    on these the definitions above are the code. *)
Inductive reachable_plain : World → Prop :=
| reachable_plain_new : reachable_plain constructor
| reachable_plain_op w o w' :
    reachable_plain w → plain_op o = true → run_op o w = Some w' →
    reachable_plain w'.

(** Every name the instance holds is plain: the keys of the two tables,
    the targets of the deprecations, and the names captured by the arrows
    returned by [hook]. *)
Definition plain_world (w : World) : Prop :=
  (∀ k, is_Some (_hooks (this w) !! k) → plain k) ∧
  plain_table (_deprecatedHooks (this w)) ∧
  (∀ i e, unregs w !! i = Some e → plain (u_name e)).

(** ** Further notions for dispatch and bulk registration *)

(** Lines 147-157: what [callHookWith] does with the value its strategy
    returned, [tb] being the calls of the before-interceptors. *)
Definition after_strategy (user : nat → list Val → World → World * Outcome)
    (event : option nat) (tb : list Fire) (r : World * list Fire * Result)
    : World * list Fire * Result :=
  let '(w3, th, result) := r in
  match result with
  | RPromise p =>
      (w3, tb ++ th, RPromise (finally p (after_stage user event)))
  | RValue v =>
      match after_stage user event w3 with
      | (w4, ta, None) => (w4, tb ++ th ++ ta, RValue v)
      | (w4, ta, Some e) => (w4, tb ++ th ++ ta, RThrow e)
      end
  | RThrow e => (w3, tb ++ th, RThrow e)
  end.

(** [beforeEach(b)] for every [b] of [bs], then [afterEach(a)] for every
    [a] of [afters], in order. *)
Definition intercepted (bs afters : list HookCallback) (w : World) : World :=
  foldl (λ w' f, afterEach f w') (foldl (λ w' f, beforeEach f w') w bs) afters.

(** The callbacks of the entries [hooks] whose key is a usable name that
    [deps] resolves to [n], in the order of the entries. *)
Definition registered_under (deps : gmap string DeprecatedHook)
    (hooks : list (string * HookCallback)) (n : string) : list HookCallback :=
  omap (λ kv, if decide (kv.1 ≠ "" ∧ target deps kv.1 = Some n)
              then Some kv.2 else None) hooks.

#[global] Arguments registered_under : simpl never.

(** Function 5 registers function 1 under ["x"]; the others do nothing. *)
Definition registrar : nat → list Val → World → World * Outcome :=
  λ f _ w,
    if decide (f = 5)
    then (default w (snd <$> hook "x" (VFn (UserFn 1)) false w),
          Returns VUndef)
    else (w, Returns VUndef).

(** The entry [{ message: "a is gone", to: "b" }]. *)
Definition gone_to_b : DeprecatedHook :=
  {| message := Some "a is gone"; to := "b" |}.

(** [deprecateHook("a", { message: "a is gone", to: "b" })] on a new
    instance. *)
Definition messaged_world : World :=
  default constructor (run_ops [OpDeprecateHook "a" (inr gone_to_b)] constructor).

(** [deprecateHook("a", { message: "a is gone", to: "b" });
    deprecateHook("b", "c")] on a new instance. *)
Definition messaged_chain_world : World :=
  default constructor
    (run_ops [OpDeprecateHook "a" (inr gone_to_b); OpDeprecateHook "b" (inl "c")]
       constructor).

(** [two_hooks_world] after [removeHook("x", f1)]. *)
Definition after_removal_world : World :=
  removeHook "x" (UserFn 1) two_hooks_world.

(** [hook("x", f0)] on a new instance. *)
Definition hooked_x_world : World :=
  default constructor (run_ops [OpHook "x" (VFn (UserFn 0)) false] constructor).

(** The call of the before-interceptor [f5] with the event at address 0. *)
Definition before_f5 : list Fire :=
  [{| fire_cb := UserFn 5; fire_fn := Some 5; fire_args := [VEvent 0] |}].

(** * Properties *)

(** ** The alias graph and the resolution loop *)

Section Resolution.

Context (deps : gmap string DeprecatedHook).

Lemma alias_functional a b c : alias deps a b → alias deps a c → b = c.
Proof. intros (d & Hd & <-) (d' & Hd' & <-). congruence. Qed.

(** A name on a cycle has its successor on the cycle too. *)
Lemma cycle_next a d : tc (alias deps) a a → deps !! a = Some d →
  tc (alias deps) (to d) (to d).
Proof.
  intros Hc Hd.
  assert (Hs : alias deps a (to d)) by (exists d; done).
  apply tc_rtc_l with a; [| by apply tc_once].
  inversion Hc as [? ? H1 | ? y ? H1 H2]; subst.
  - rewrite (alias_functional _ _ _ Hs H1). apply rtc_refl.
  - rewrite (alias_functional _ _ _ Hs H1). by apply tc_rtc.
Qed.

(** Once the loop can reach a cycle it never leaves: no amount of fuel
    makes it return. *)
Lemma resolve_loop_cycle fuel name c dep :
  rtc (alias deps) name c → tc (alias deps) c c →
  resolve_loop fuel deps name dep = None.
Proof.
  revert name c dep. induction fuel as [| k IH]; intros name c dep Hr Hc.
  - destruct Hr as [| ? y ? (d & Hd & ?) ?]; simpl.
    + inversion Hc as [? ? (d & Hd & ?) | ? ? ? (d & Hd & ?) ?]; subst;
        by rewrite Hd.
    + by rewrite Hd.
  - destruct Hr as [x | x y z Hs Hr]; simpl.
    + assert (∃ d, deps !! x = Some d) as [d Hd].
      { inversion Hc as [? ? (d & Hd & ?) | ? ? ? (d & Hd & ?) ?]; eauto. }
      rewrite Hd. apply (IH (to d) (to d)); [apply rtc_refl |].
      by apply cycle_next with x.
    + destruct Hs as (d & Hd & <-). rewrite Hd. by apply (IH _ z).
Qed.

(** When no cycle can be reached from [name], the loop ends within as many
    iterations as there are names it may still visit. *)
Lemma resolve_loop_visits fuel (V : gset string) name dep :
  (∀ c, rtc (alias deps) name c → ¬ tc (alias deps) c c) →
  (∀ m, rtc (alias deps) name m → m ∈ dom deps → m ∈ V) →
  (size V ≤ fuel)%nat →
  ∃ name' dep', resolve_loop fuel deps name dep = Some (name', dep') ∧
    deps !! name' = None ∧ rtc (alias deps) name name'.
Proof.
  revert V name dep.
  induction fuel as [| k IH]; intros V name dep Hac HV Hsz.
  - destruct (deps !! name) as [d |] eqn:Hd.
    + exfalso. assert (name ∈ V) as Hin.
      { apply HV; [apply rtc_refl | apply elem_of_dom; eauto]. }
      assert (size V = 0) as Hz%size_empty_iff by lia. set_solver.
    + exists name, dep. simpl. rewrite Hd. split_and!; [done.. | apply rtc_refl].
  - simpl. destruct (deps !! name) as [d |] eqn:Hd.
    + assert (alias deps name (to d)) as Hs by (exists d; done).
      assert (name ∈ V) as Hin.
      { apply HV; [apply rtc_refl | apply elem_of_dom; eauto]. }
      destruct (IH (V ∖ {[name]}) (to d) (Some d)) as (n' & d' & Hres & Hnone & Hreach).
      * intros c Hc. apply Hac. by eapply rtc_l.
      * intros m Hm Hdom. apply elem_of_difference. split.
        -- apply HV; [by eapply rtc_l | done].
        -- intros Heq%elem_of_singleton. subst m.
           apply (Hac name); [apply rtc_refl |].
           eapply tc_rtc_r; [by apply tc_once | done].
      * assert (size V = size (V ∖ {[name]}) + 1); [| lia].
        rewrite (union_difference_singleton_L name V Hin) at 1.
        rewrite size_union, size_singleton; [lia |].
        intros x Hx1 Hx2. apply elem_of_difference in Hx2. tauto.
      * exists n', d'. split_and!; [done.. |]. by eapply rtc_l.
    + exists name, dep. split_and!; [done.. | apply rtc_refl].
Qed.

Lemma resolve_loop_acyclic fuel name dep :
  acyclic deps → (size deps ≤ fuel)%nat →
  ∃ name' dep', resolve_loop fuel deps name dep = Some (name', dep') ∧
    deps !! name' = None ∧ rtc (alias deps) name name'.
Proof.
  intros Hac Hsz. apply (resolve_loop_visits fuel (dom deps)).
  - intros c _. apply Hac.
  - done.
  - by rewrite size_dom.
Qed.

Lemma resolve_loop_mono k k' name dep r :
  resolve_loop k deps name dep = Some r → (k ≤ k')%nat →
  resolve_loop k' deps name dep = Some r.
Proof.
  revert k' name dep. induction k as [| k IH]; intros k' name dep H Hle.
  - simpl in H. destruct (deps !! name) eqn:E; [done |].
    destruct k'; simpl; by rewrite E.
  - destruct k' as [| k']; [lia |]. simpl in *.
    destruct (deps !! name) as [d |]; [| done]. apply IH; [done | lia].
Qed.

(** The bound of [resolve] loses nothing: a result obtained with any amount
    of fuel is the result of [resolve]. *)
Lemma resolve_complete k name r :
  resolve_loop k deps name None = Some r → resolve deps name = Some r.
Proof.
  intros H. unfold resolve.
  destruct (resolve_loop_visits (size deps) (dom deps) name None)
    as (n' & d' & Hres & _).
  - intros c Hc Hcyc. by rewrite (resolve_loop_cycle k name c None) in H.
  - done.
  - by rewrite size_dom.
  - rewrite Hres. f_equal.
    pose proof (resolve_loop_mono _ (k `max` size deps) _ _ _ H) as H1.
    pose proof (resolve_loop_mono _ (k `max` size deps) _ _ _ Hres) as H2.
    rewrite H1 in H2 by lia. specialize (H2 ltac:(lia)). by simplify_eq.
Qed.

(** A rank that decreases along every alias rules cycles out. *)
Lemma acyclic_rank (rank : string → nat) :
  (∀ a b, alias deps a b → (rank b < rank a)%nat) → acyclic deps.
Proof.
  intros Hr a Hc.
  assert (∀ x y, tc (alias deps) x y → (rank y < rank x)%nat) as Hlt.
  { induction 1 as [x y H | x y z H _ IH]; [by apply Hr |].
    apply Hr in H. lia. }
  apply Hlt in Hc. lia.
Qed.

End Resolution.

(** ** Arrays in the table: [push_hook] and [removeHook] *)

Lemma hooksOf_slot w name l a :
  _hooks (this w) !! name = Some (Some l) → arrays w !! l = Some a →
  hooksOf w name = a.
Proof. unfold hooksOf. by intros -> ->. Qed.

Lemma hooksOf_no_array w name :
  (∀ l, _hooks (this w) !! name ≠ Some (Some l)) → hooksOf w name = [].
Proof.
  unfold hooksOf. intros H.
  destruct (_hooks (this w) !! name) as [[l |] |] eqn:E; [| done..].
  by destruct (H l).
Qed.

Lemma push_hook_hooksOf w name fn n :
  hooks_ok w →
  hooksOf (push_hook name fn w) n =
    if decide (n = name) then hooksOf w n ++ [fn] else hooksOf w n.
Proof.
  intros [Hex Hinj]. unfold push_hook, ensure_array.
  destruct (_hooks (this w) !! name) as [[l |] |] eqn:E.
  - destruct (Hex _ _ E) as (a & Ha & _). unfold hooksOf, array_push. simpl.
    case_decide as Hn.
    + subst n. rewrite E, list_lookup_alter_eq, Ha. done.
    + destruct (_hooks (this w) !! n) as [[l' |] |] eqn:E'; [| done..].
      rewrite list_lookup_alter_ne; [done |]. intros ->. apply Hn. eauto.
  - unfold hooksOf, array_push. simpl. case_decide as Hn.
    + subst n. rewrite lookup_insert_eq, E, list_lookup_alter_eq.
      rewrite lookup_app_r, Nat.sub_diag by lia. done.
    + rewrite lookup_insert_ne by done.
      destruct (_hooks (this w) !! n) as [[l' |] |] eqn:E'; [| done..].
      destruct (Hex _ _ E') as (a & Ha & _).
      assert (l' < length (arrays w))%nat by (by eapply lookup_lt_Some).
      rewrite list_lookup_alter_ne by lia. by rewrite lookup_app_l.
  - unfold hooksOf, array_push. simpl. case_decide as Hn.
    + subst n. rewrite lookup_insert_eq, E, list_lookup_alter_eq.
      rewrite lookup_app_r, Nat.sub_diag by lia. done.
    + rewrite lookup_insert_ne by done.
      destruct (_hooks (this w) !! n) as [[l' |] |] eqn:E'; [| done..].
      destruct (Hex _ _ E') as (a & Ha & _).
      assert (l' < length (arrays w))%nat by (by eapply lookup_lt_Some).
      rewrite list_lookup_alter_ne by lia. by rewrite lookup_app_l.
Qed.

Lemma push_hook_fresh w name fn :
  hooks_ok w → (∀ l, _hooks (this w) !! name ≠ Some (Some l)) →
  push_hook name fn w =
    set_arrays (λ a, a ++ [[fn]])
      (set_this (set_hooks (insert name (Some (length (arrays w))))) w).
Proof.
  intros _ Hno. unfold push_hook, ensure_array, array_push.
  assert (∀ (a : list (list HookCallback)),
            alter (λ x, x ++ [fn]) (length a) (a ++ [[]]) = a ++ [[fn]]) as Hal.
  { intros a. induction a as [| x a IH]; simpl; [done | by f_equal]. }
  destruct (_hooks (this w) !! name) as [[l |] |] eqn:E;
    [by destruct (Hno l) | |]; unfold set_arrays, set_this; simpl;
    by rewrite Hal.
Qed.

Lemma fresh_array_ok w name fn :
  hooks_ok w →
  hooks_ok (set_arrays (λ a, a ++ [[fn]])
              (set_this (set_hooks (insert name (Some (length (arrays w))))) w)).
Proof.
  intros [Hex Hinj]. split; simpl.
  - intros n l' Hn. destruct (decide (n = name)) as [-> |].
    + rewrite lookup_insert_eq in Hn. simplify_eq.
      exists [fn]. split; [| done].
      by rewrite lookup_app_r, Nat.sub_diag by lia.
    + rewrite lookup_insert_ne in Hn by done.
      destruct (Hex _ _ Hn) as (a & Ha & Hne). exists a.
      split; [| done]. by apply lookup_app_l_Some.
  - intros n1 n2 l' H1 H2.
    destruct (decide (n1 = name)) as [-> |], (decide (n2 = name)) as [-> |];
      [done | | |].
    + rewrite lookup_insert_eq in H1. rewrite lookup_insert_ne in H2 by done.
      simplify_eq. destruct (Hex _ _ H2) as (a & Ha%lookup_lt_Some & _). lia.
    + rewrite lookup_insert_eq in H2. rewrite lookup_insert_ne in H1 by done.
      simplify_eq. destruct (Hex _ _ H1) as (a & Ha%lookup_lt_Some & _). lia.
    + rewrite lookup_insert_ne in H1, H2 by done. eauto.
Qed.

Lemma push_hook_ok w name fn : hooks_ok w → hooks_ok (push_hook name fn w).
Proof.
  intros Hok.
  destruct (_hooks (this w) !! name) as [[l |] |] eqn:E.
  - destruct Hok as [Hex Hinj]. unfold push_hook, ensure_array. rewrite E.
    split; simpl.
    + intros n l' Hn. destruct (Hex _ _ Hn) as (a & Ha & Hne).
      destruct (decide (l = l')) as [<- |].
      * exists (a ++ [fn]). rewrite list_lookup_alter_eq, Ha.
        split; [done |]. by destruct a.
      * exists a. by rewrite list_lookup_alter_ne.
    + exact Hinj.
  - rewrite push_hook_fresh by (done || intros l; by rewrite E).
    by apply fresh_array_ok.
  - rewrite push_hook_fresh by (done || intros l; by rewrite E).
    by apply fresh_array_ok.
Qed.

Lemma length_zero_nil {A} (l : list A) : length l = 0 → l = [].
Proof. by destruct l. Qed.

Lemma removeHook_hooksOf w name fn n :
  hooks_ok w →
  hooksOf (removeHook name fn w) n =
    if decide (n = name) then splice_first (hooksOf w n) fn else hooksOf w n.
Proof.
  intros [Hex Hinj]. unfold removeHook.
  destruct (_hooks (this w) !! name) as [[l |] |] eqn:E.
  - destruct (Hex _ _ E) as (a & Ha & Hne). rewrite Ha.
    assert (l < length (arrays w))%nat as Hl by (by eapply lookup_lt_Some).
    case_decide as Hlen; case_decide as Hn; unfold hooksOf; simpl.
    + subst n. rewrite lookup_delete_eq, E, Ha. simpl.
      by rewrite (length_zero_nil _ Hlen).
    + rewrite lookup_delete_ne by done.
      destruct (_hooks (this w) !! n) as [[l' |] |] eqn:E'; [| done..].
      rewrite list_lookup_insert_ne; [done |]. intros ->. apply Hn. eauto.
    + subst n. rewrite E, Ha. simpl. by rewrite list_lookup_insert_eq.
    + destruct (_hooks (this w) !! n) as [[l' |] |] eqn:E'; [| done..].
      rewrite list_lookup_insert_ne; [done |]. intros ->. apply Hn. eauto.
  - case_decide; [subst n; unfold hooksOf; by rewrite E | done].
  - case_decide; [subst n; unfold hooksOf; by rewrite E | done].
Qed.

Lemma removeHook_ok w name fn : hooks_ok w → hooks_ok (removeHook name fn w).
Proof.
  intros [Hex Hinj]. unfold removeHook.
  destruct (_hooks (this w) !! name) as [[l |] |] eqn:E; [| done..].
  destruct (Hex _ _ E) as (a & Ha & Hne). rewrite Ha.
  assert (l < length (arrays w))%nat as Hl by (by eapply lookup_lt_Some).
  case_decide as Hlen; split; simpl.
  - intros n l' Hn. apply lookup_delete_Some in Hn as [Hnn Hn].
    destruct (Hex _ _ Hn) as (a' & Ha' & Hne'). exists a'. split; [| done].
    rewrite list_lookup_insert_ne; [done |]. intros ->. apply Hnn. eauto.
  - intros n1 n2 l' [_ H1]%lookup_delete_Some [_ H2]%lookup_delete_Some. eauto.
  - intros n l' Hn. destruct (decide (l = l')) as [<- |].
    + exists (splice_first a fn). rewrite list_lookup_insert_eq by done.
      split; [done |]. intros Hnil. by rewrite Hnil in Hlen.
    + destruct (Hex _ _ Hn) as (a' & Ha' & Hne'). exists a'.
      by rewrite list_lookup_insert_ne.
  - exact Hinj.
Qed.

(** ** Frames *)

Lemma same_table_hooksOf w w' name :
  same_table w w' → hooksOf w' name = hooksOf w name.
Proof. intros [H1 H2]. unfold hooksOf. by rewrite H1, H2. Qed.

Lemma same_table_ok w w' : same_table w w' → hooks_ok w → hooks_ok w'.
Proof. intros [H1 H2]. unfold hooks_ok. by rewrite H1, H2. Qed.

Lemma same_log_seen w w' : same_log w w' → seen w' = seen w.
Proof. intros [_ H]. unfold seen. by rewrite H. Qed.

Lemma same_log_ok w w' : same_log w w' → console_ok w → console_ok w'.
Proof.
  intros Hl. pose proof (same_log_seen _ _ Hl) as Hs. destruct Hl as [Hc _].
  unfold console_ok. by rewrite Hc, Hs.
Qed.

Lemma same_log_trans w1 w2 w3 : same_log w1 w2 → same_log w2 w3 → same_log w1 w3.
Proof. intros [? ?] [? ?]. split; congruence. Qed.

Lemma same_deps_trans w1 w2 w3 :
  same_deps w1 w2 → same_deps w2 w3 → same_deps w1 w3.
Proof. unfold same_deps. congruence. Qed.

Lemma warn_table msg w : same_table w (warn msg w).
Proof. unfold warn. by case_decide. Qed.

Lemma warn_deps msg w : same_deps w (warn msg w).
Proof. unfold warn. by case_decide. Qed.

Lemma warn_seen msg w : seen (warn msg w) = {[msg]} ∪ seen w.
Proof.
  unfold warn. case_decide as Hin; unfold seen at 1; simpl; [| done].
  apply set_eq. intros x. rewrite elem_of_union, elem_of_singleton.
  naive_solver.
Qed.

Lemma warn_console msg w :
  console (warn msg w) =
    if decide (msg ∈ seen w) then console w else console w ++ [msg].
Proof. unfold warn. by case_decide. Qed.

Lemma warn_ok msg w : console_ok w → console_ok (warn msg w).
Proof.
  intros [Hnd Hiff]. split.
  - rewrite warn_console. case_decide as Hin; [done |].
    apply NoDup_app. split_and!; [done | | apply NoDup_singleton].
    intros x Hx ->%list_elem_of_singleton. by apply Hin, Hiff.
  - intros m. rewrite warn_seen, warn_console, elem_of_union, elem_of_singleton.
    case_decide as Hin.
    + rewrite Hiff. naive_solver.
    + rewrite elem_of_app, list_elem_of_singleton, Hiff. naive_solver.
Qed.

Lemma push_hook_log name fn w : same_log w (push_hook name fn w).
Proof.
  unfold push_hook, ensure_array.
  by destruct (_hooks (this w) !! name) as [[l |] |].
Qed.

Lemma push_hook_deps name fn w : same_deps w (push_hook name fn w).
Proof.
  unfold push_hook, ensure_array.
  by destruct (_hooks (this w) !! name) as [[l |] |].
Qed.

Lemma removeHook_log name fn w : same_log w (removeHook name fn w).
Proof.
  unfold removeHook.
  destruct (_hooks (this w) !! name) as [[l |] |]; [| done..].
  destruct (arrays w !! l); [| done]. by case_decide.
Qed.

Lemma removeHook_deps name fn w : same_deps w (removeHook name fn w).
Proof.
  unfold removeHook.
  destruct (_hooks (this w) !! name) as [[l |] |]; [| done..].
  destruct (arrays w !! l); [| done]. by case_decide.
Qed.

(** ** [hook] *)

Lemma deprecation_warning_table name dep allow w :
  same_table w (deprecation_warning name dep allow w).
Proof.
  unfold deprecation_warning. destruct dep as [d |]; [| done].
  destruct allow; [done | apply warn_table].
Qed.

Lemma deprecation_warning_deps name dep allow w :
  same_deps w (deprecation_warning name dep allow w).
Proof.
  unfold deprecation_warning. destruct dep as [d |]; [| done].
  destruct allow; [done | apply warn_deps].
Qed.

Lemma deprecation_warning_ok name dep allow w :
  console_ok w → console_ok (deprecation_warning name dep allow w).
Proof.
  unfold deprecation_warning. destruct dep as [d |]; [| done].
  destruct allow; [done | apply warn_ok].
Qed.

Lemma deprecation_warning_unregs name dep allow w :
  unregs (deprecation_warning name dep allow w) = unregs w.
Proof.
  unfold deprecation_warning, warn. destruct dep as [d |]; [| done].
  destruct allow; [done |]. by case_decide.
Qed.

Lemma push_hook_unregs name fn w : unregs (push_hook name fn w) = unregs w.
Proof.
  unfold push_hook, ensure_array.
  by destruct (_hooks (this w) !! name) as [[l |] |].
Qed.

Lemma hook_inv name fn allow w u w' :
  hook name (VFn fn) allow w = Some (u, w') → name ≠ "" →
  ∃ name' dep,
    resolve (_deprecatedHooks (this w)) name = Some (name', dep) ∧
    u = UClosure (length (unregs w)) ∧
    w' = registered name name' dep fn allow w.
Proof.
  intros H Hne. unfold hook in H. case_decide; [done |].
  destruct (resolve _ name) as [[name' dep] |]; [| done]. simpl in H.
  exists name', dep. unfold new_unreg in H.
  rewrite push_hook_unregs, deprecation_warning_unregs in H. by simplify_eq.
Qed.

Lemma hook_resolved name fn allow w name' dep :
  name ≠ "" → resolve (_deprecatedHooks (this w)) name = Some (name', dep) →
  hook name (VFn fn) allow w =
    Some (UClosure (length (unregs w)), registered name name' dep fn allow w).
Proof.
  intros Hne Hr. unfold hook. case_decide; [done |]. rewrite Hr. simpl.
  unfold new_unreg. by rewrite push_hook_unregs, deprecation_warning_unregs.
Qed.

Lemma registered_hooksOf name name' dep fn allow w n :
  hooks_ok w →
  hooksOf (registered name name' dep fn allow w) n =
    if decide (n = name') then hooksOf w n ++ [fn] else hooksOf w n.
Proof.
  intros Hok. unfold registered.
  pose proof (deprecation_warning_table name dep allow w) as Ht.
  rewrite (same_table_hooksOf (push_hook _ _ _) (set_unregs _ _)) by done.
  rewrite push_hook_hooksOf by (by eapply same_table_ok).
  by rewrite (same_table_hooksOf _ _ _ Ht).
Qed.

Lemma registered_ok name name' dep fn allow w :
  hooks_ok w → hooks_ok (registered name name' dep fn allow w).
Proof.
  intros Hok. unfold registered.
  apply (same_table_ok (push_hook name' fn (deprecation_warning name dep allow w)));
    [done |].
  apply push_hook_ok.
  by eapply same_table_ok; [apply deprecation_warning_table |].
Qed.

Lemma registered_deps name name' dep fn allow w :
  same_deps w (registered name name' dep fn allow w).
Proof.
  unfold registered.
  eapply same_deps_trans; [apply (deprecation_warning_deps name dep allow) |].
  eapply same_deps_trans; [apply push_hook_deps | done].
Qed.

Lemma registered_log name name' dep fn allow w :
  same_log (deprecation_warning name dep allow w)
           (registered name name' dep fn allow w).
Proof.
  unfold registered.
  eapply same_log_trans; [apply push_hook_log | done].
Qed.

Lemma registered_console_ok name name' dep fn allow w :
  console_ok w → console_ok (registered name name' dep fn allow w).
Proof.
  intros Hc. eapply same_log_ok; [apply registered_log |].
  by apply deprecation_warning_ok.
Qed.

(** Whatever its arguments, [hook] keeps the invariants and the table of
    deprecations. *)
Lemma hook_preserves name v allow w u w' :
  hook name v allow w = Some (u, w') →
  (hooks_ok w → hooks_ok w') ∧ (console_ok w → console_ok w') ∧ same_deps w w'.
Proof.
  intros H. destruct (decide (name = "")) as [-> |].
  { unfold hook in H. destruct v; simplify_eq; try done.
    case_decide; by simplify_eq. }
  destruct v; try (unfold hook in H; by simplify_eq).
  apply hook_inv in H as (name' & dep & _ & _ & ->); [| done].
  split_and!; [apply registered_ok | apply registered_console_ok
              | apply registered_deps].
Qed.

(** ** Termination of the resolution loop *)

(** Without cycles every registration returns. *)
Lemma hook_returns name function_ allowDeprecated w :
  acyclic (_deprecatedHooks (this w)) →
  is_Some (hook name function_ allowDeprecated w).
Proof.
  intros Hac. destruct function_; try (by eexists).
  destruct (decide (name = "")) as [-> |].
  - unfold hook. case_decide; [by eexists | done].
  - destruct (resolve_loop_acyclic (_deprecatedHooks (this w))
                (size (_deprecatedHooks (this w))) name None Hac)
      as (name' & dep & Hres & _); [lia |].
    rewrite (hook_resolved name fn allowDeprecated w name' dep) by done.
    by eexists.
Qed.

(** The loop stays on plain names when the table and the first name are
    plain. *)
Lemma resolve_loop_plain deps k name dep name' dep' :
  plain_table deps → plain name →
  resolve_loop k deps name dep = Some (name', dep') → plain name'.
Proof.
  intros Ht. revert name dep. induction k as [| k IH]; intros name dep Hp H;
    simpl in H.
  - destruct (deps !! name) eqn:E; [done |]. by simplify_eq.
  - destruct (deps !! name) as [d |] eqn:E; [| by simplify_eq].
    apply (IH (to d) (Some d)); [| done]. by destruct (Ht _ _ E).
Qed.


Lemma chain_world_deps : _deprecatedHooks (this chain_world) = chain_deps.
Proof. vm_compute. reflexivity. Qed.

Lemma alias_chain_deps a b :
  alias chain_deps a b → (a = "a" ∧ b = "b") ∨ (a = "b" ∧ b = "c").
Proof.
  intros (d & Hd & <-). unfold chain_deps in Hd.
  apply lookup_insert_Some in Hd as [[<- <-] | [_ Hd]]; [by left |].
  apply lookup_insert_Some in Hd as [[<- <-] | [_ Hd]]; [by right |].
  by rewrite lookup_empty in Hd.
Qed.

Lemma chain_deps_acyclic : acyclic chain_deps.
Proof.
  apply (acyclic_rank _ (λ s, if decide (s = "a") then 2
                              else if decide (s = "b") then 1 else 0)).
  intros a b [[-> ->] | [-> ->]]%alias_chain_deps; simpl; lia.
Qed.

Lemma chain_deps_plain : plain_table chain_deps.
Proof.
  intros k d Hd. unfold chain_deps in Hd.
  apply lookup_insert_Some in Hd as [[<- <-] | [_ Hd]]; [done |].
  apply lookup_insert_Some in Hd as [[<- <-] | [_ Hd]]; [done |].
  by rewrite lookup_empty in Hd.
Qed.


(** ** The invariants hold in every reachable world *)

Lemma same_slots_ok w w' :
  _hooks (this w') = _hooks (this w) → same_deps w w' → slots_ok w → slots_ok w'.
Proof. unfold slots_ok, same_deps. intros -> ->. done. Qed.

Lemma inv_same w w' :
  same_table w w' → same_log w w' → same_deps w w' → inv w → inv w'.
Proof.
  intros Ht Hl Hd (H1 & H2 & H3).
  split_and!; [by eapply same_table_ok | by eapply same_log_ok |].
  destruct Ht as [Ht _]. by eapply same_slots_ok.
Qed.

Lemma foldl_option_None {A B} (f : B → A → option B) (l : list A) :
  foldl (λ acc a, b ← acc; f b a) None l = None.
Proof. by induction l. Qed.

(** A property kept by every step of a loop that may not return is kept by
    the loop. *)
Lemma foldl_option_inv {A B} (P : B → Prop) (f : B → A → option B)
    (l : list A) (b0 b' : B) :
  (∀ b a b', P b → f b a = Some b' → P b') → P b0 →
  foldl (λ acc a, b ← acc; f b a) (Some b0) l = Some b' → P b'.
Proof.
  intros Hstep. revert b0. induction l as [| a l IH]; intros b0 H0 H; simpl in H.
  - by simplify_eq.
  - destruct (f b0 a) as [b1 |] eqn:E; simpl in H.
    + eapply IH; [| done]. eauto.
    + by rewrite foldl_option_None in H.
Qed.

Lemma foldl_inv {A B} (P : B → Prop) (f : B → A → B) (l : list A) (b0 : B) :
  (∀ b a, P b → P (f b a)) → P b0 → P (foldl f b0 l).
Proof. intros Hstep. revert b0. induction l; simpl; eauto. Qed.

Lemma push_hook_slot_None name fn w n :
  _hooks (this (push_hook name fn w)) !! n = Some None →
  _hooks (this w) !! n = Some None.
Proof.
  unfold push_hook, ensure_array.
  destruct (_hooks (this w) !! name) as [[l |] |] eqn:E; simpl; [done | |];
    by intros [[_ ?] | [_ H]]%lookup_insert_Some.
Qed.

Lemma removeHook_slot_None name fn w n :
  _hooks (this (removeHook name fn w)) !! n = Some None →
  _hooks (this w) !! n = Some None.
Proof.
  unfold removeHook.
  destruct (_hooks (this w) !! name) as [[l |] |] eqn:E; [| done..].
  destruct (arrays w !! l); [| done]. case_decide as Hlen; simpl; [| done].
  by intros [_ Hn]%lookup_delete_Some.
Qed.

Lemma registered_slots name name' dep fn allow w :
  slots_ok w → slots_ok (registered name name' dep fn allow w).
Proof.
  intros Hs n Hn. rewrite (registered_deps name name' dep fn allow w).
  apply Hs. unfold registered in Hn. simpl in Hn.
  apply push_hook_slot_None in Hn.
  by rewrite (proj1 (deprecation_warning_table name dep allow w)) in Hn.
Qed.

Lemma hook_inv_world name v allow w u w' :
  hook name v allow w = Some (u, w') → inv w → inv w'.
Proof.
  intros H (H1 & H2 & H3).
  pose proof (hook_preserves _ _ _ _ _ _ H) as (Hp1 & Hp2 & _).
  split_and!; [eauto.. |].
  destruct (decide (name = "")) as [-> |].
  { unfold hook in H. destruct v; simplify_eq; try done.
    case_decide; by simplify_eq. }
  destruct v; try (unfold hook in H; by simplify_eq).
  apply hook_inv in H as (name' & dep & _ & _ & ->); [| done].
  by apply registered_slots.
Qed.

Lemma removeHook_inv name fn w : inv w → inv (removeHook name fn w).
Proof.
  intros (H1 & H2 & H3). split_and!; [by apply removeHook_ok | |].
  - by eapply same_log_ok; [apply removeHook_log |].
  - intros n Hn%removeHook_slot_None. rewrite (removeHook_deps name fn w). eauto.
Qed.

Lemma unregister_inv u w : inv w → inv (unregister u w).
Proof.
  intros Hi. unfold unregister. destruct u as [| i]; [done |].
  destruct (unregs w !! i) as [[name [fn |]] |]; [| done..].
  apply (inv_same (removeHook name fn w)); [done.. |].
  by apply removeHook_inv.
Qed.

Lemma hookOnce_inv name f w u w' :
  hookOnce name f w = Some (u, w') → inv w → inv w'.
Proof.
  unfold hookOnce. intros H Hi.
  destruct (hook name _ false _) as [[u1 w1] |] eqn:E; simplify_eq/=.
  apply (inv_same w1); [done.. |].
  eapply hook_inv_world; [done |]. by apply (inv_same w).
Qed.

Lemma clear_slot_ok name w :
  hooks_ok w → hooks_ok (set_this (set_hooks (insert name None)) w).
Proof.
  intros [Hex Hinj]. split; simpl.
  - intros n l [[_ ?] | [_ H]]%lookup_insert_Some; [done | eauto].
  - intros n1 n2 l [[_ ?] | [_ H1]]%lookup_insert_Some; [done |].
    intros [[_ ?] | [_ H2]]%lookup_insert_Some; [done | eauto].
Qed.

Lemma deprecateHook_inv name deprecated w w' :
  deprecateHook name deprecated w = Some w' → inv w → inv w'.
Proof.
  unfold deprecateHook. intros H (H1 & H2 & H3).
  eapply (foldl_option_inv inv) in H; [done | |].
  - intros b fn b' Hb Hh.
    destruct (hook name (VFn fn) false b) as [[u b1] |] eqn:E; simplify_eq/=.
    by eapply hook_inv_world.
  - split_and!; [| done |].
    + apply clear_slot_ok. by apply (same_table_ok w).
    + intros n. simpl. intros [[<- _] | [Hne Hn]]%lookup_insert_Some.
      * rewrite lookup_insert_eq. by eexists.
      * rewrite lookup_insert_ne by done. eauto.
Qed.

Lemma deprecateHooks_inv deprecatedHooks w w' :
  deprecateHooks deprecatedHooks w = Some w' → inv w → inv w'.
Proof.
  unfold deprecateHooks. intros H (H1 & H2 & H3).
  eapply (foldl_option_inv inv) in H; [done | |].
  - intros b kv b' Hb Hh. by eapply deprecateHook_inv.
  - split_and!; [by apply (same_table_ok w) | done |].
    intros n Hn. simpl in *. apply H3 in Hn. clear -Hn.
    revert Hn. generalize (_deprecatedHooks (this w)).
    induction deprecatedHooks as [| kv r IH]; intros m Hm; simpl; [done |].
    apply IH. destruct (decide (kv.1 = n)) as [-> |].
    + rewrite lookup_insert_eq. by eexists.
    + by rewrite lookup_insert_ne.
Qed.

Lemma hook_all_inv hooks w us w' :
  hook_all hooks w = Some (us, w') → inv w → inv w'.
Proof.
  revert w us. induction hooks as [| [key fn] r IH]; intros w us H Hi;
    simpl in H; [by simplify_eq |].
  destruct (hook key (VFn fn) false w) as [[u w1] |] eqn:E; simplify_eq/=.
  destruct (hook_all r w1) as [[us' w2] |] eqn:E'; simplify_eq/=.
  eapply IH; [done |]. by eapply hook_inv_world.
Qed.

Lemma addHooks_inv configHooks w i w' :
  addHooks configHooks w = Some (i, w') → inv w → inv w'.
Proof.
  unfold addHooks. intros H Hi.
  destruct (hook_all _ w) as [[us w1] |] eqn:E; simplify_eq/=.
  apply (inv_same w1); [done.. |]. by eapply hook_all_inv.
Qed.

Lemma removeAll_inv i w : inv w → inv (removeAll i w).
Proof.
  intros Hi. unfold removeAll. apply foldl_inv.
  - intros b u. apply unregister_inv.
  - by apply (inv_same w).
Qed.

Lemma removeHooks_inv configHooks w : inv w → inv (removeHooks configHooks w).
Proof.
  intros Hi. unfold removeHooks. apply foldl_inv; [| done].
  intros b kv. apply removeHook_inv.
Qed.

Lemma once_prologue_inv c env w : inv w → inv (once_prologue c env w).
Proof.
  intros Hi. unfold once_prologue.
  destruct (_unreg env) as [u |].
  - apply (inv_same (unregister u w)); [done.. |]. by apply unregister_inv.
  - by apply (inv_same w).
Qed.

Lemma new_event_inv name args w : inv w → inv (new_event name args w).2.
Proof.
  intros Hi. unfold new_event.
  destruct (_before (this w)), (_after (this w)); simpl;
    (done || by apply (inv_same w)).
Qed.

Lemma hooks_arg_inv name w : inv w → inv (hooks_arg name w).2.
Proof.
  intros ([Hex Hinj] & Hc & Hs). unfold hooks_arg.
  destruct (_hooks (this w) !! name) as [[l |] |]; simpl; try done;
    (split_and!; [split; simpl | done | done]; [| done]);
    intros n l' Hn; destruct (Hex _ _ Hn) as (a & Ha & Hne); exists a;
    (split; [by apply lookup_app_l_Some | done]).
Qed.

Lemma run_op_inv o w w' : run_op o w = Some w' → inv w → inv w'.
Proof.
  intros H Hi. destruct o; simpl in H.
  - destruct (hook _ _ _ _) as [[u w1] |] eqn:E; simplify_eq/=.
    by eapply hook_inv_world.
  - destruct (hookOnce _ _ _) as [[u w1] |] eqn:E; simplify_eq/=.
    by eapply hookOnce_inv.
  - simplify_eq. by apply removeHook_inv.
  - by eapply deprecateHook_inv.
  - by eapply deprecateHooks_inv.
  - destruct (addHooks _ _) as [[i w1] |] eqn:E; simplify_eq/=.
    by eapply addHooks_inv.
  - simplify_eq. by apply removeHooks_inv.
  - simplify_eq. by apply unregister_inv.
  - simplify_eq. by apply removeAll_inv.
  - simplify_eq. destruct (onces w !! c); [by apply once_prologue_inv | done].
  - simplify_eq. by apply (inv_same w).
  - simplify_eq. by apply (inv_same w).
  - simplify_eq. by apply (inv_same w).
  - simplify_eq. by apply (inv_same w).
  - simplify_eq. by apply new_event_inv.
  - simplify_eq. by apply hooks_arg_inv.
Qed.

Lemma constructor_inv : inv constructor.
Proof.
  split; [| split].
  - split; simpl.
    + intros name l H. by rewrite lookup_empty in H.
    + intros n1 n2 l H. by rewrite lookup_empty in H.
  - split; simpl; [apply NoDup_nil_2 |].
    intros m. unfold seen. simpl. set_solver.
  - intros name H. simpl in H. by rewrite lookup_empty in H.
Qed.

Lemma reachable_inv w : reachable w → inv w.
Proof.
  induction 1 as [| w o w' _ IH Hop]; [apply constructor_inv |].
  by eapply run_op_inv.
Qed.

Lemma run_ops_reachable os w w' :
  reachable w → run_ops os w = Some w' → reachable w'.
Proof.
  revert w. induction os as [| o r IH]; intros w Hr H; simpl in H.
  - by simplify_eq.
  - destruct (run_op o w) as [w1 |] eqn:E; simplify_eq/=.
    eapply IH; [| done]. by eapply reachable_op.
Qed.

(** A world reached by operations on plain names is a reachable world. *)
Lemma reachable_plain_reachable w : reachable_plain w → reachable w.
Proof.
  induction 1 as [| w o w' _ IH _ Hop]; [apply reachable_new |].
  by eapply reachable_op.
Qed.

Lemma run_ops_reachable_plain os w w' :
  reachable_plain w → forallb plain_op os = true → run_ops os w = Some w' →
  reachable_plain w'.
Proof.
  revert w. induction os as [| o r IH]; intros w Hr Hp H; simpl in H.
  - by simplify_eq.
  - simpl in Hp. apply andb_true_iff in Hp as [Ho Hp].
    destruct (run_op o w) as [w1 |] eqn:E; simplify_eq/=.
    eapply IH; [| done | done]. by eapply reachable_plain_op.
Qed.

Lemma reachable_plain_inv w : reachable_plain w → inv w.
Proof. intros Hr. by apply reachable_inv, reachable_plain_reachable. Qed.

(** ** Keys of the table *)

Lemma deprecated_world_reachable : reachable deprecated_world.
Proof.
  apply (run_ops_reachable [OpDeprecateHook "a" (inl "b")] constructor);
    [apply reachable_new | reflexivity].
Qed.

(** C7, as stated, fails: after [deprecateHook("a", "b")] on a new instance
    the key ["a"] is in the table, holding [undefined], while no callback is
    stored under it. *)
Lemma hooks_keys_counterexample :
  reachable deprecated_world ∧
  _hooks (this deprecated_world) !! "a" = Some None ∧
  hooksOf deprecated_world "a" = [] ∧
  ¬ (is_Some (_hooks (this deprecated_world) !! "a") ↔
     hooksOf deprecated_world "a" ≠ []).
Proof.
  split_and!; [apply deprecated_world_reachable | done | done |].
  intros [H _]. by apply H.
Qed.

(** C7, amended: in every world reached by public operations, a key of the
    table holds either a non-empty array or [undefined], the latter only
    for a name that has been deprecated; no key holds an empty array, and a
    name has callbacks exactly when its key holds an array. *)
Theorem hooks_keys_invariant (w : World) (name : string) :
  reachable w →
  (is_Some (_hooks (this w) !! name) ↔
     hooksOf w name ≠ [] ∨
     (_hooks (this w) !! name = Some None ∧
      is_Some (_deprecatedHooks (this w) !! name))) ∧
  (∀ l, _hooks (this w) !! name = Some (Some l) →
     ∃ a, arrays w !! l = Some a ∧ a ≠ [] ∧ hooksOf w name = a) ∧
  (hooksOf w name ≠ [] ↔ ∃ l, _hooks (this w) !! name = Some (Some l)).
Proof.
  intros ([Hex Hinj] & _ & Hs)%reachable_inv.
  assert (∀ l, _hooks (this w) !! name = Some (Some l) →
            ∃ a, arrays w !! l = Some a ∧ a ≠ [] ∧ hooksOf w name = a) as Harr.
  { intros l E. destruct (Hex _ _ E) as (a & Ha & Hne). exists a.
    by rewrite (hooksOf_slot _ _ _ _ E Ha). }
  split_and!; [| done |].
  - split.
    + intros [[l |] E]; [left | right; eauto].
      destruct (Harr _ E) as (a & _ & Hne & ->). done.
    + intros [Hne | [E _]]; [| by rewrite E].
      destruct (_hooks (this w) !! name) as [s |] eqn:E; [done |].
      destruct Hne. apply hooksOf_no_array. intros l. by rewrite E.
  - split.
    + intros Hne. destruct (_hooks (this w) !! name) as [[l |] |] eqn:E; [eauto | |];
        destruct Hne; apply hooksOf_no_array; intros l; by rewrite E.
    + intros [l E]. destruct (Harr _ E) as (a & _ & Hne & ->). done.
Qed.

Lemma hooks_keys_invariant_witness :
  (is_Some (_hooks (this deprecated_world) !! "a") ↔
     hooksOf deprecated_world "a" ≠ [] ∨
     (_hooks (this deprecated_world) !! "a" = Some None ∧
      is_Some (_deprecatedHooks (this deprecated_world) !! "a"))) ∧
  (∀ l, _hooks (this deprecated_world) !! "a" = Some (Some l) →
     ∃ a, arrays deprecated_world !! l = Some a ∧ a ≠ [] ∧
          hooksOf deprecated_world "a" = a) ∧
  (hooksOf deprecated_world "a" ≠ [] ↔
     ∃ l, _hooks (this deprecated_world) !! "a" = Some (Some l)).
Proof.
  apply (hooks_keys_invariant deprecated_world "a").
  apply (run_ops_reachable [OpDeprecateHook "a" (inl "b")] constructor);
    [apply reachable_new | reflexivity].
Defined.

(** ** Deprecation warnings *)

Lemma resolve_loop_last deps k name dep name' dep' :
  resolve_loop k deps name dep = Some (name', dep') →
  (name' = name ∧ dep' = dep ∧ deps !! name = None) ∨
  (∃ d, dep' = Some d ∧ to d = name' ∧ is_Some (deps !! name)).
Proof.
  revert name dep. induction k as [| k IH]; intros name dep H; simpl in H.
  - destruct (deps !! name) eqn:E; [done |]. left. by simplify_eq.
  - destruct (deps !! name) as [d |] eqn:E; [| left; by simplify_eq].
    right. apply IH in H as [(-> & -> & _) | (d' & -> & <- & _)]; eauto.
Qed.

Lemma resolve_hop deps name name' d :
  resolve deps name = Some (name', Some d) →
  to d = name' ∧ is_Some (deps !! name).
Proof.
  intros [(_ & ? & _) | (d' & ? & ? & ?)]%resolve_loop_last; [done |].
  by simplify_eq.
Qed.

Lemma registered_console_warn name name' d fn w :
  console_ok w →
  console (registered name name' (Some d) fn false w) =
    if decide (deprecation_message name d ∈ console w) then console w
    else console w ++ [deprecation_message name d].
Proof.
  intros [_ Hiff].
  rewrite (proj1 (registered_log name name' (Some d) fn false w)). simpl.
  rewrite warn_console.
  destruct (decide (deprecation_message name d ∈ seen w)) as [Hs | Hs];
    [rewrite decide_True | rewrite decide_False]; try done;
    by rewrite Hiff.
Qed.

(** The entry the loop returns is the one of the last name of the chain. *)
Lemma resolve_loop_last_entry deps k name dep name' d :
  resolve_loop k deps name dep = Some (name', Some d) →
  (dep = Some d ∧ name' = name) ∨
  (∃ last, rtc (alias deps) name last ∧ deps !! last = Some d ∧ to d = name').
Proof.
  revert name dep. induction k as [| k IH]; intros name dep H; simpl in H.
  - destruct (deps !! name) eqn:E; [done |]. left. by simplify_eq.
  - destruct (deps !! name) as [d0 |] eqn:E; [| left; by simplify_eq].
    right. apply IH in H as [[? ->] | (last & Hrtc & Hl & Hto)].
    + simplify_eq. by exists name.
    + exists last. split_and!; [| done | done].
      eapply rtc_l; [| done]. by exists d0.
Qed.

(** C5, as stated, fails: with [a] deprecated to [b] with the message
    "a is gone" and [b] deprecated to [c] without message, [hook("a", f1)]
    prints the synthesized message, made of the name [a] and the final
    target [c]; the message configured for [a] is never printed. *)
Lemma deprecation_message_counterexample :
  _deprecatedHooks (this messaged_chain_world) !! "a" =
    Some {| message := Some "a is gone"; to := "b" |} ∧
  ∃ u w1,
    hook "a" (VFn (UserFn 1)) false messaged_chain_world = Some (u, w1) ∧
    hooksOf w1 "c" = [UserFn 1] ∧
    console w1 = ["a hook has been deprecated, please use c"] ∧
    "a is gone" ∉ console w1.
Proof.
  split; [reflexivity |]. eexists _, _. split_and!; [reflexivity.. |].
  intros Hin%list_elem_of_singleton. discriminate.
Qed.

(** C5, amended: a registration under a plain name that resolves through at
    least one hop prints, unless [allowDeprecated] is set, the message of
    the entry [d] of the last name of the chain (the one whose target is
    the final name) if it has a non-empty one, whatever the entries before
    it say, and otherwise "<name> hook has been deprecated", followed by
    ", please use <target>" when the final target is non-empty; it prints
    it only if it is not on the console yet, so that no message is ever
    printed twice and a second registration under the same name prints
    nothing.  With [allowDeprecated] nothing is printed or recorded, and
    the callback is stored under the final target all the same. *)
Theorem hook_deprecation_warning (w : World) (name name' : string)
    (d : DeprecatedHook) (fn fn2 : HookCallback) :
  reachable_plain w → plain name → name ≠ "" →
  resolve (_deprecatedHooks (this w)) name = Some (name', Some d) →
  let msg := deprecation_message name d in
  to d = name' ∧
  (∃ last, rtc (alias (_deprecatedHooks (this w))) name last ∧
           _deprecatedHooks (this w) !! last = Some d) ∧
  (∀ m, message d = Some m → m ≠ "" → msg = m) ∧
  (message d = None ∨ message d = Some "" →
     msg = name +:+ " hook has been deprecated" +:+
           (if decide (name' = "") then "" else ", please use " +:+ name')) ∧
  (∃ u1 w1,
     hook name (VFn fn) false w = Some (u1, w1) ∧
     console w1 =
       (if decide (msg ∈ console w) then console w else console w ++ [msg]) ∧
     msg ∈ console w1 ∧ NoDup (console w1) ∧
     hooksOf w1 name' = hooksOf w name' ++ [fn] ∧
     ∃ u2 w2,
       hook name (VFn fn2) false w1 = Some (u2, w2) ∧
       console w2 = console w1 ∧
       hooksOf w2 name' = hooksOf w name' ++ [fn; fn2]) ∧
  (∃ u w',
     hook name (VFn fn) true w = Some (u, w') ∧
     console w' = console w ∧ seen w' = seen w ∧
     hooksOf w' name' = hooksOf w name' ++ [fn]).
Proof.
  intros (Hok & Hc & _)%reachable_plain_inv Hpn Hne Hres msg.
  destruct (resolve_hop _ _ _ _ Hres) as [Hto _].
  split_and!; [done | | | | |].
  - pose proof Hres as Hl.
    apply resolve_loop_last_entry in Hl as [[? _] | (last & ? & ? & _)];
      [done | by exists last].
  - intros m Hm Hm'. unfold msg, deprecation_message. rewrite Hm.
    by case_decide.
  - intros Hm. unfold msg, deprecation_message. rewrite Hto.
    destruct Hm as [-> | ->]; [done | by case_decide].
  - set (w1 := registered name name' (Some d) fn false w).
    assert (console w1 =
      if decide (msg ∈ console w) then console w else console w ++ [msg])
      as Hcons by (by apply registered_console_warn).
    assert (console_ok w1) as Hc1 by (by apply registered_console_ok).
    assert (hooks_ok w1) as Hok1 by (by apply registered_ok).
    assert (msg ∈ console w1) as Hin.
    { rewrite Hcons. case_decide; [done |].
      apply elem_of_app. right. by apply list_elem_of_singleton. }
    exists (UClosure (length (unregs w))), w1.
    split_and!; [by apply hook_resolved | done | done | apply Hc1 | |].
    + unfold w1. rewrite registered_hooksOf by done. by rewrite decide_True.
    + exists (UClosure (length (unregs w1))),
             (registered name name' (Some d) fn2 false w1).
      assert (resolve (_deprecatedHooks (this w1)) name = Some (name', Some d))
        as Hres1
        by (unfold w1; by rewrite (registered_deps name name' (Some d) fn false w)).
      split_and!; [by apply hook_resolved | |].
      * rewrite registered_console_warn by done. by rewrite decide_True.
      * rewrite registered_hooksOf by done. unfold w1.
        rewrite registered_hooksOf by done. rewrite !decide_True by done.
        by rewrite <- app_assoc.
  - exists (UClosure (length (unregs w))),
           (registered name name' (Some d) fn true w).
    pose proof (registered_log name name' (Some d) fn true w) as Hl.
    split_and!; [by apply hook_resolved | apply Hl | by apply same_log_seen |].
    rewrite registered_hooksOf by done. by rewrite decide_True.
Qed.

Lemma hook_deprecation_warning_witness :
  let msg := deprecation_message "a" gone_to_b in
  to gone_to_b = "b" ∧
  (∃ last, rtc (alias (_deprecatedHooks (this messaged_world))) "a" last ∧
           _deprecatedHooks (this messaged_world) !! last = Some gone_to_b) ∧
  (∀ m, message gone_to_b = Some m → m ≠ "" → msg = m) ∧
  (message gone_to_b = None ∨ message gone_to_b = Some "" →
     msg = "a" +:+ " hook has been deprecated" +:+
           (if decide ("b" = "") then "" else ", please use " +:+ "b")) ∧
  (∃ u1 w1,
     hook "a" (VFn (UserFn 1)) false messaged_world = Some (u1, w1) ∧
     console w1 =
       (if decide (msg ∈ console messaged_world) then console messaged_world
        else console messaged_world ++ [msg]) ∧
     msg ∈ console w1 ∧ NoDup (console w1) ∧
     hooksOf w1 "b" = hooksOf messaged_world "b" ++ [UserFn 1] ∧
     ∃ u2 w2,
       hook "a" (VFn (UserFn 2)) false w1 = Some (u2, w2) ∧
       console w2 = console w1 ∧
       hooksOf w2 "b" = hooksOf messaged_world "b" ++ [UserFn 1; UserFn 2]) ∧
  (∃ u w',
     hook "a" (VFn (UserFn 1)) true messaged_world = Some (u, w') ∧
     console w' = console messaged_world ∧ seen w' = seen messaged_world ∧
     hooksOf w' "b" = hooksOf messaged_world "b" ++ [UserFn 1]).
Proof.
  apply (hook_deprecation_warning messaged_world "a" "b" gone_to_b
           (UserFn 1) (UserFn 2)).
  - apply (run_ops_reachable_plain [OpDeprecateHook "a" (inr gone_to_b)]
             constructor);
      [apply reachable_plain_new | reflexivity | reflexivity].
  - reflexivity.
  - discriminate.
  - reflexivity.
Defined.

(** ** Migration by [deprecateHook] *)

Lemma resolve_loop_end deps k name dep name' dep' :
  resolve_loop k deps name dep = Some (name', dep') → deps !! name' = None.
Proof.
  revert name dep. induction k as [| k IH]; intros name dep H; simpl in H.
  - destruct (deps !! name) eqn:E; [done |]. by simplify_eq.
  - destruct (deps !! name) as [d |] eqn:E; [eauto |]. by simplify_eq.
Qed.

Lemma push_hook_slot_other name fn w n :
  n ≠ name →
  _hooks (this (push_hook name fn w)) !! n = _hooks (this w) !! n.
Proof.
  intros Hn. unfold push_hook, ensure_array.
  destruct (_hooks (this w) !! name) as [[l |] |] eqn:E; simpl; [done | |];
    by rewrite lookup_insert_ne.
Qed.

Lemma registered_slot_other name name' dep fn allow w n :
  n ≠ name' →
  _hooks (this (registered name name' dep fn allow w)) !! n =
    _hooks (this w) !! n.
Proof.
  intros Hn. unfold registered. simpl. rewrite push_hook_slot_other by done.
  by rewrite (proj1 (deprecation_warning_table name dep allow w)).
Qed.

(** The loop of lines 101-103, started in a world [b] where [name] resolves
    to [name'] through the entry [d]: every callback of [l] is appended to
    the array of [name'], and the warning is printed at most once. *)
Lemma migrate_spec name name' d (l : list HookCallback) b :
  name ≠ "" → hooks_ok b → console_ok b →
  resolve (_deprecatedHooks (this b)) name = Some (name', Some d) →
  ∃ b',
    foldl (λ acc fn, w' ← acc; snd <$> hook name (VFn fn) false w') (Some b) l
      = Some b' ∧
    hooks_ok b' ∧ console_ok b' ∧ same_deps b b' ∧
    (∀ n, hooksOf b' n =
            if decide (n = name') then hooksOf b n ++ l else hooksOf b n) ∧
    (∀ n, n ≠ name' → _hooks (this b') !! n = _hooks (this b) !! n) ∧
    console b' =
      match l with
      | [] => console b
      | _ => if decide (deprecation_message name d ∈ console b) then console b
             else console b ++ [deprecation_message name d]
      end.
Proof.
  intros Hne. revert b. induction l as [| fn l IH]; intros b Hok Hc Hres.
  - exists b. split_and!; try done.
    intros n. case_decide; [by rewrite app_nil_r | done].
  - simpl. rewrite (hook_resolved name fn false b name' (Some d)) by done.
    simpl. set (b1 := registered name name' (Some d) fn false b).
    assert (hooks_ok b1) as Hok1 by (by apply registered_ok).
    assert (console_ok b1) as Hc1 by (by apply registered_console_ok).
    assert (same_deps b b1) as Hd1 by apply registered_deps.
    assert (console b1 =
      if decide (deprecation_message name d ∈ console b) then console b
      else console b ++ [deprecation_message name d]) as Hcons
      by (by apply registered_console_warn).
    assert (deprecation_message name d ∈ console b1) as Hin.
    { rewrite Hcons. case_decide; [done |].
      apply elem_of_app. right. by apply list_elem_of_singleton. }
    destruct (IH b1 Hok1 Hc1) as (b' & Hf & Hok' & Hc' & Hd' & Hh & Hsl & Hcons').
    { by rewrite Hd1. }
    exists b'. split_and!; [done | done | done | | | |].
    + by eapply same_deps_trans.
    + intros n. rewrite Hh. unfold b1. rewrite registered_hooksOf by done.
      destruct (decide (n = name')); [by rewrite <- app_assoc | done].
    + intros n Hn. rewrite Hsl by done. by apply registered_slot_other.
    + rewrite Hcons'. destruct l; [done |]. by rewrite decide_True.
Qed.

(** What [deprecateHook] does when the chain from [name], in the table that
    includes the new entry, ends at [name'] with last entry [d]. *)
Lemma deprecateHook_spec w name deprecated name' d :
  hooks_ok w → console_ok w → name ≠ "" →
  resolve (<[name := deprecation_entry deprecated]> (_deprecatedHooks (this w)))
          name = Some (name', Some d) →
  ∃ w',
    deprecateHook name deprecated w = Some w' ∧
    _deprecatedHooks (this w') =
      <[name := deprecation_entry deprecated]> (_deprecatedHooks (this w)) ∧
    name' ≠ name ∧
    _hooks (this w') !! name = Some None ∧
    hooksOf w' name = [] ∧
    hooksOf w' name' = hooksOf w name' ++ hooksOf w name ∧
    (∀ n, n ≠ name → n ≠ name' → hooksOf w' n = hooksOf w n) ∧
    console w' =
      match hooksOf w name with
      | [] => console w
      | _ => if decide (deprecation_message name d ∈ console w) then console w
             else console w ++ [deprecation_message name d]
      end.
Proof.
  intros Hok Hc Hne Hres. unfold deprecateHook.
  set (w2 := set_this (set_hooks (insert name None))
               (set_this (set_deprecatedHooks
                            (insert name (deprecation_entry deprecated))) w)).
  assert (name' ≠ name) as Hnn.
  { intros ->. apply resolve_loop_end in Hres.
    by rewrite lookup_insert_eq in Hres. }
  assert (hooks_ok w2) as Hok2.
  { apply clear_slot_ok. by apply (same_table_ok w). }
  assert (∀ n, hooksOf w2 n = if decide (n = name) then [] else hooksOf w n)
    as Hh2.
  { intros n. unfold hooksOf, w2. simpl. case_decide as Hn.
    - subst n. by rewrite lookup_insert_eq.
    - by rewrite lookup_insert_ne. }
  destruct (migrate_spec name name' d (hooksOf w name) w2 Hne Hok2)
    as (w' & Hf & _ & _ & Hd & Hh & Hsl & Hcons); [done | done |].
  exists w'. split_and!; [done | by rewrite Hd | done | | | | |done].
  - rewrite Hsl by done. unfold w2. simpl. by rewrite lookup_insert_eq.
  - rewrite Hh, Hh2. rewrite decide_False by done. by rewrite decide_True.
  - rewrite Hh, Hh2. rewrite decide_True by done. by rewrite decide_False.
  - intros n Hn1 Hn2. rewrite Hh, Hh2. by rewrite !decide_False.
Qed.

Lemma resolve_fresh_entry deps name entry :
  acyclic (<[name := entry]> deps) →
  ∃ name' d, resolve (<[name := entry]> deps) name = Some (name', Some d).
Proof.
  intros Hac.
  destruct (resolve_loop_acyclic _ (size (<[name := entry]> deps)) name None Hac)
    as (name' & dep & Hres & _); [lia |].
  exists name'. pose proof Hres as Hl.
  apply resolve_loop_last in Hl as [(_ & _ & Hn) | (d & -> & _)]; [| eauto].
  by rewrite lookup_insert_eq in Hn.
Qed.

(** C10: when [deprecateHook(name, target)], for plain names [name] and
    [target], finds callbacks stored under [name] (and the chain from
    [name] has no cycle, so that the call returns), the deprecation message
    of [name] is on the console when the call returns: it is printed during
    the call unless it had been printed before.  Without callbacks under
    [name] the call prints nothing. *)
Theorem deprecateHook_warns_on_migration (w : World) (name : string)
    (deprecated : string + DeprecatedHook) :
  reachable_plain w → plain name → plain (to (deprecation_entry deprecated)) →
  name ≠ "" →
  acyclic (<[name := deprecation_entry deprecated]> (_deprecatedHooks (this w))) →
  ∃ w' name' d,
    deprecateHook name deprecated w = Some w' ∧
    resolve (_deprecatedHooks (this w')) name = Some (name', Some d) ∧
    NoDup (console w') ∧
    (hooksOf w name ≠ [] →
       deprecation_message name d ∈ console w' ∧
       console w' =
         if decide (deprecation_message name d ∈ console w) then console w
         else console w ++ [deprecation_message name d]) ∧
    (hooksOf w name = [] → console w' = console w).
Proof.
  intros Hr%reachable_plain_reachable _ _ Hne Hac.
  pose proof (reachable_inv _ Hr) as (Hok & Hc & _).
  destruct (resolve_fresh_entry _ _ _ Hac) as (name' & d & Hres).
  destruct (deprecateHook_spec w name deprecated name' d Hok Hc Hne Hres)
    as (w' & Hdep & Hdeps & _ & _ & _ & _ & _ & Hcons).
  exists w', name', d. split_and!; [done | by rewrite Hdeps | | |].
  - assert (reachable w') as Hr'.
    { by apply (reachable_op w (OpDeprecateHook name deprecated)). }
    apply reachable_inv in Hr' as (_ & [Hnd _] & _). done.
  - intros Hhooks. rewrite Hcons. destruct (hooksOf w name); [done |].
    split; [| done]. case_decide; [done |].
    apply elem_of_app. right. by apply list_elem_of_singleton.
  - intros Hhooks. by rewrite Hcons, Hhooks.
Qed.

Lemma single_alias_acyclic entry :
  to entry ≠ "a" → acyclic (<["a" := entry]> (∅ : gmap string DeprecatedHook)).
Proof.
  intros Hto.
  apply (acyclic_rank _ (λ s, if decide (s = "a") then 1 else 0)).
  intros a b (d & Hd & <-). simpl.
  apply lookup_insert_Some in Hd as [[<- <-] | [_ Hd]].
  - destruct (decide (to entry = "a")); [done |].
    destruct (decide ("a" = "a")); [lia | done].
  - by rewrite lookup_empty in Hd.
Qed.

Lemma deprecateHook_warns_on_migration_witness :
  ∃ w' name' d,
    deprecateHook "a" (inl "b") one_hook_world = Some w' ∧
    resolve (_deprecatedHooks (this w')) "a" = Some (name', Some d) ∧
    NoDup (console w') ∧
    (hooksOf one_hook_world "a" ≠ [] →
       deprecation_message "a" d ∈ console w' ∧
       console w' =
         if decide (deprecation_message "a" d ∈ console one_hook_world)
         then console one_hook_world
         else console one_hook_world ++ [deprecation_message "a" d]) ∧
    (hooksOf one_hook_world "a" = [] → console w' = console one_hook_world).
Proof.
  apply (deprecateHook_warns_on_migration one_hook_world "a" (inl "b")).
  - apply (run_ops_reachable_plain [OpHook "a" (VFn (UserFn 7)) false]
             constructor);
      [apply reachable_plain_new | reflexivity | reflexivity].
  - reflexivity.
  - reflexivity.
  - discriminate.
  - apply (single_alias_acyclic (deprecation_entry (inl "b"))). discriminate.
Defined.

(** ** Dispatch *)

Section DispatchFacts.

Context (user : nat → list Val → World → World * Outcome).

Lemma invoke_called cb args w w' t o :
  invoke user cb args w = (w', t, o) →
  called t = [cb] ∧ Forall (λ f, fire_args f = args) t.
Proof.
  unfold invoke. destruct cb as [f | c].
  - destruct (user f args w) as [w1 o1]. intros ?; simplify_eq.
    split; [done | by repeat constructor].
  - destruct (onces w !! c) as [env |].
    + destruct (user _ args _) as [w1 o1]. intros ?; simplify_eq.
      split; [done | by repeat constructor].
    + intros ?; simplify_eq. split; [done | by repeat constructor].
Qed.

(** [callEachWith] calls the members of its list in order, each with the
    same argument, and all of them unless one throws. *)
Lemma callEachWith_called callbacks arg w w' t x :
  callEachWith user callbacks arg w = (w', t, x) →
  Forall (λ f, fire_args f = [arg]) t ∧
  (∃ k, called t = take k callbacks) ∧
  (x = None → called t = callbacks).
Proof.
  revert w w' t x. induction callbacks as [| cb r IH]; intros w w' t x H;
    simpl in H.
  - simplify_eq. split_and!; [done | by exists 0 | done].
  - destruct (invoke user cb [arg] w) as [[w1 t1] o] eqn:E.
    apply invoke_called in E as [Hc Ha]. destruct o as [v | e].
    + destruct (callEachWith user r arg w1) as [[w2 t2] x2] eqn:E2.
      simplify_eq. apply IH in E2 as (Ha2 & [k Hk] & Hall).
      unfold called in *. rewrite map_app, Hc. split_and!.
      * by apply Forall_app.
      * exists (S k). simpl. by rewrite Hk.
      * intros Hx. simpl. by rewrite Hall.
    + simplify_eq. split_and!; [done | | done].
      exists 1. unfold called in *. rewrite Hc. simpl. by rewrite take_0.
Qed.

(** The serial strategy calls the members of the list it was given, in
    order, up to the first that fails. *)
Lemma run_serial_called hooks args last w w' t o :
  run_serial user hooks args last w = (w', t, o) →
  (∃ k, called t = take k hooks) ∧
  (∀ v, o = Returns v → called t = hooks) ∧
  Forall (λ f, fire_args f = args) t.
Proof.
  revert last w w' t o. induction hooks as [| cb r IH]; intros last w w' t o H;
    simpl in H.
  - simplify_eq. split_and!; [by exists 0 | done | done].
  - destruct (invoke user cb args w) as [[w1 t1] o1] eqn:E.
    apply invoke_called in E as [Hc Ha]. destruct o1 as [v | e].
    + destruct (run_serial user r args v w1) as [[w2 t2] o2] eqn:E2.
      simplify_eq. apply IH in E2 as ([k Hk] & Hall & Ha2).
      unfold called in *. rewrite map_app, Hc. split_and!.
      * exists (S k). simpl. by rewrite Hk.
      * intros v' Hv. simpl. by rewrite (Hall v').
      * by apply Forall_app.
    + simplify_eq. split_and!; [| done | done].
      exists 1. unfold called in *. rewrite Hc. simpl. by rewrite take_0.
Qed.

(** The parallel strategy starts every member of the list it was given. *)
Lemma run_parallel_called hooks args w w' t os :
  run_parallel user hooks args w = (w', t, os) →
  called t = hooks ∧ Forall (λ f, fire_args f = args) t.
Proof.
  revert w w' t os. induction hooks as [| cb r IH]; intros w w' t os H;
    simpl in H.
  - by simplify_eq.
  - destruct (invoke user cb args w) as [[w1 t1] o1] eqn:E.
    apply invoke_called in E as [Hc Ha].
    destruct (run_parallel user r args w1) as [[w2 t2] os2] eqn:E2.
    simplify_eq. apply IH in E2 as [Hc2 Ha2].
    unfold called in *. rewrite map_app, Hc, Hc2. split; [done |].
    by apply Forall_app.
Qed.

(** The array handed to the caller holds the callbacks stored under the
    name, and is the stored array itself when there is one. *)
Lemma hooks_arg_spec name w l w' :
  hooks_arg name w = (l, w') →
  default [] (arrays w' !! l) = hooksOf w name ∧
  (∀ l0, _hooks (this w) !! name = Some (Some l0) → l = l0 ∧ w' = w).
Proof.
  unfold hooks_arg, hooksOf.
  destruct (_hooks (this w) !! name) as [[l0 |] |] eqn:E; intros ?; simplify_eq.
  - split; [done |]. by intros ? [= <-].
  - simpl. split; [| done]. by rewrite lookup_app_r, Nat.sub_diag by lia.
  - simpl. split; [| done]. by rewrite lookup_app_r, Nat.sub_diag by lia.
Qed.

End DispatchFacts.

(** ** Mutation of the hooks during a dispatch *)

(** C1, as stated, fails: [callHookWith] hands its caller the stored array
    itself.  With the strategy [for (const hook of hooks) hook(...args)] and
    hooks [f0, f1] under ["x"], where [f0] calls [removeHook("x", f1)], the
    dispatch calls [f0] only, although [f1] was registered when it started. *)
Lemma dispatch_snapshot_counterexample :
  hooksOf two_hooks_world "x" = [UserFn 0; UserFn 1] ∧
  ∃ w',
    callHookWith remover (forOfCaller remover 8) "x" [] two_hooks_world =
      (w', [{| fire_cb := UserFn 0; fire_fn := Some 0; fire_args := [] |}],
       RValue VUndef) ∧
    hooksOf w' "x" = [UserFn 0].
Proof. split; [reflexivity |]. eexists. split; reflexivity. Qed.

(** The serial strategy behind [callHook] reads the hooks once, when it is
    called, which is after the before-interceptors. *)
Lemma callHook_reads_once (user : nat → list Val → World → World * Outcome)
    (name : string) (args : list Val) (w w0 w1 : World) (event : option nat)
    (tb : list Fire) :
  new_event name args w = (event, w0) →
  before_stage user event w0 = (w1, tb, None) →
  ∃ w2 p,
    callHook user name args w = (w2, tb, RPromise p) ∧
    ∀ w', ∃ w1' th o1 w2' ta x,
      run_serial user (hooksOf w1 name) args VUndef w' = (w1', th, o1) ∧
      after_stage user event w1' = (w2', ta, x) ∧
      settle p w' =
        (w2', th ++ ta, match x with Some e => Throws e | None => o1 end) ∧
      (∃ k, called th = take k (hooksOf w1 name)) ∧
      (∀ v, o1 = Returns v → called th = hooksOf w1 name).
Proof.
  intros Hev Hb. unfold callHook, callHookWith. rewrite Hev, Hb.
  destruct (hooks_arg name w1) as [l w2] eqn:Ha.
  apply hooks_arg_spec in Ha as [Hl _]. unfold serialCaller. rewrite Hl.
  eexists _, _. split; [by rewrite app_nil_r |].
  intros w'. simpl.
  destruct (run_serial user (hooksOf w1 name) args VUndef w')
    as [[w1' th] o1] eqn:Hs.
  destruct (after_stage user event w1') as [[w2' ta] x] eqn:Haf.
  exists w1', th, o1, w2', ta, x.
  apply run_serial_called in Hs as (Hk & Hall & _). done.
Qed.

(** So does the parallel strategy behind [callHookParallel]. *)
Lemma callHookParallel_reads_once
    (user : nat → list Val → World → World * Outcome)
    (name : string) (args : list Val) (w w0 w1 : World) (event : option nat)
    (tb : list Fire) :
  new_event name args w = (event, w0) →
  before_stage user event w0 = (w1, tb, None) →
  ∃ w3 th p,
    callHookParallel user name args w = (w3, tb ++ th, RPromise p) ∧
    called th = hooksOf w1 name.
Proof.
  intros Hev Hb. unfold callHookParallel, callHookWith. rewrite Hev, Hb.
  destruct (hooks_arg name w1) as [l w2] eqn:Ha.
  apply hooks_arg_spec in Ha as [Hl _]. unfold parallelCaller. rewrite Hl.
  destruct (run_parallel user (hooksOf w1 name) args w2)
    as [[w3 th] os] eqn:Hp.
  apply run_parallel_called in Hp as [Hc _]. by eexists _, _, _.
Qed.

(** C1, amended, for a plain name: [callHookWith] takes no copy.  Once the
    before-interceptors have run, in world [w1], it calls the strategy on
    the array stored under the name, or on a new empty array when none is
    stored, and deals with what the strategy returns; the stored array is
    the one [removeHook] splices and lines 58-59 of [hook] push to.  The serial and the parallel
    strategy read that array once, when they are called, and call members
    of that reading only: the serial one in order up to the first failure,
    in whatever world [w'] the registry is when the callbacks run and
    whatever the callbacks do to it; the parallel one all of them.  What
    changed in the meantime shows in a dispatch started later, in a world
    [wl]: it reads the hooks as they are when its own strategy is called,
    in [wl1]. *)
Theorem dispatch_reads_hooks_at_start
    (user : nat → list Val → World → World * Outcome)
    (name : string) (args : list Val) (w w0 w1 : World) (event : option nat)
    (tb : list Fire) (wl wl0 wl1 : World) (eventl : option nat)
    (tbl : list Fire) :
  plain name →
  new_event name args w = (event, w0) →
  before_stage user event w0 = (w1, tb, None) →
  new_event name args wl = (eventl, wl0) →
  before_stage user eventl wl0 = (wl1, tbl, None) →
  (∀ caller,
     callHookWith user caller name args w =
       match _hooks (this w1) !! name with
       | Some (Some l) => after_strategy user event tb (caller l args w1)
       | _ =>
           after_strategy user event tb
             (caller (length (arrays w1)) args
                (set_arrays (λ a, a ++ [[]]) w1))
       end) ∧
  (∀ l a, _hooks (this w1) !! name = Some (Some l) → arrays w1 !! l = Some a →
     hooksOf w1 name = a ∧
     (∀ fn, arrays (removeHook name fn w1) !! l = Some (splice_first a fn)) ∧
     (∀ fn, arrays (push_hook name fn w1) !! l = Some (a ++ [fn]))) ∧
  (∃ w2 p,
     callHook user name args w = (w2, tb, RPromise p) ∧
     ∀ w', ∃ w1' th o1 w2' ta x,
       run_serial user (hooksOf w1 name) args VUndef w' = (w1', th, o1) ∧
       after_stage user event w1' = (w2', ta, x) ∧
       settle p w' =
         (w2', th ++ ta, match x with Some e => Throws e | None => o1 end) ∧
       (∃ k, called th = take k (hooksOf w1 name)) ∧
       (∀ v, o1 = Returns v → called th = hooksOf w1 name)) ∧
  (∃ w3 th p,
     callHookParallel user name args w = (w3, tb ++ th, RPromise p) ∧
     called th = hooksOf w1 name) ∧
  (∃ w2 p,
     callHook user name args wl = (w2, tbl, RPromise p) ∧
     ∀ w', ∃ w1' th o1 w2' ta x,
       run_serial user (hooksOf wl1 name) args VUndef w' = (w1', th, o1) ∧
       after_stage user eventl w1' = (w2', ta, x) ∧
       settle p w' =
         (w2', th ++ ta, match x with Some e => Throws e | None => o1 end) ∧
       (∃ k, called th = take k (hooksOf wl1 name)) ∧
       (∀ v, o1 = Returns v → called th = hooksOf wl1 name)) ∧
  (∃ w3 th p,
     callHookParallel user name args wl = (w3, tbl ++ th, RPromise p) ∧
     called th = hooksOf wl1 name).
Proof.
  intros _ Hev Hb Hevl Hbl. split_and!.
  - intros caller. unfold callHookWith. rewrite Hev, Hb.
    unfold hooks_arg, after_strategy.
    by destruct (_hooks (this w1) !! name) as [[l |] |].
  - intros l a E Ha. split_and!.
    + by apply (hooksOf_slot _ _ l).
    + intros fn. unfold removeHook. rewrite E, Ha.
      assert (l < length (arrays w1))%nat by (by eapply lookup_lt_Some).
      case_decide; simpl; by apply list_lookup_insert_eq.
    + intros fn. unfold push_hook, ensure_array, array_push. rewrite E. simpl.
      by rewrite list_lookup_alter_eq, Ha.
  - by apply (callHook_reads_once user name args w w0 w1 event tb).
  - by apply (callHookParallel_reads_once user name args w w0 w1 event tb).
  - by apply (callHook_reads_once user name args wl wl0 wl1 eventl tbl).
  - by apply (callHookParallel_reads_once user name args wl wl0 wl1 eventl tbl).
Qed.

Lemma dispatch_reads_hooks_at_start_witness :
  (∀ caller,
     callHookWith remover caller "x" [] two_hooks_world =
       match _hooks (this two_hooks_world) !! "x" with
       | Some (Some l) =>
           after_strategy remover None [] (caller l [] two_hooks_world)
       | _ =>
           after_strategy remover None []
             (caller (length (arrays two_hooks_world)) []
                (set_arrays (λ a, a ++ [[]]) two_hooks_world))
       end) ∧
  (∀ l a, _hooks (this two_hooks_world) !! "x" = Some (Some l) →
     arrays two_hooks_world !! l = Some a →
     hooksOf two_hooks_world "x" = a ∧
     (∀ fn, arrays (removeHook "x" fn two_hooks_world) !! l
              = Some (splice_first a fn)) ∧
     (∀ fn, arrays (push_hook "x" fn two_hooks_world) !! l
              = Some (a ++ [fn]))) ∧
  (∃ w2 p,
     callHook remover "x" [] two_hooks_world = (w2, [], RPromise p) ∧
     ∀ w', ∃ w1' th o1 w2' ta x,
       run_serial remover (hooksOf two_hooks_world "x") [] VUndef w'
         = (w1', th, o1) ∧
       after_stage remover None w1' = (w2', ta, x) ∧
       settle p w' =
         (w2', th ++ ta, match x with Some e => Throws e | None => o1 end) ∧
       (∃ k, called th = take k (hooksOf two_hooks_world "x")) ∧
       (∀ v, o1 = Returns v → called th = hooksOf two_hooks_world "x")) ∧
  (∃ w3 th p,
     callHookParallel remover "x" [] two_hooks_world
       = (w3, [] ++ th, RPromise p) ∧
     called th = hooksOf two_hooks_world "x") ∧
  (∃ w2 p,
     callHook remover "x" [] after_removal_world = (w2, [], RPromise p) ∧
     ∀ w', ∃ w1' th o1 w2' ta x,
       run_serial remover (hooksOf after_removal_world "x") [] VUndef w'
         = (w1', th, o1) ∧
       after_stage remover None w1' = (w2', ta, x) ∧
       settle p w' =
         (w2', th ++ ta, match x with Some e => Throws e | None => o1 end) ∧
       (∃ k, called th = take k (hooksOf after_removal_world "x")) ∧
       (∀ v, o1 = Returns v → called th = hooksOf after_removal_world "x")) ∧
  (∃ w3 th p,
     callHookParallel remover "x" [] after_removal_world
       = (w3, [] ++ th, RPromise p) ∧
     called th = hooksOf after_removal_world "x").
Proof.
  apply (dispatch_reads_hooks_at_start remover "x" [] two_hooks_world
           two_hooks_world two_hooks_world None []
           after_removal_world after_removal_world after_removal_world None
           []); reflexivity.
Defined.

(** The serial dispatch of [f0, f1], where [f0] removes [f1], calls both;
    it leaves the registry in [after_removal_world], where the next
    dispatch calls [f0] only. *)
Example serial_dispatch_then_next :
  ∃ o o',
    complete (callHook remover "x" [] two_hooks_world) =
      (after_removal_world,
       [{| fire_cb := UserFn 0; fire_fn := Some 0; fire_args := [] |};
        {| fire_cb := UserFn 1; fire_fn := Some 1; fire_args := [] |}], o) ∧
    complete (callHook remover "x" [] after_removal_world) =
      (after_removal_world,
       [{| fire_cb := UserFn 0; fire_fn := Some 0; fire_args := [] |}], o').
Proof. eexists _, _. split; reflexivity. Qed.

(** A registration made by a before-interceptor comes before the reading:
    with [f0] under ["x"] and the before-interceptor [f5] registering
    [f1], the dispatch calls [f5], [f0], [f1] and the after-interceptor
    [f6]. *)
Example before_interceptor_registration_is_read :
  ∃ w' o,
    complete (callHook registrar "x" [] spied_world) =
      (w', [{| fire_cb := UserFn 5; fire_fn := Some 5;
               fire_args := [VEvent 0] |};
            {| fire_cb := UserFn 0; fire_fn := Some 0; fire_args := [] |};
            {| fire_cb := UserFn 1; fire_fn := Some 1; fire_args := [] |};
            {| fire_cb := UserFn 6; fire_fn := Some 6;
               fire_args := [VEvent 0] |}], o) ∧
    hooksOf spied_world "x" = [UserFn 0].
Proof. eexists _, _. split; reflexivity. Qed.

(** The serial dispatch of the same hooks calls both [f0] and [f1]; the
    removal shows in the world it leaves. *)
Example serial_dispatch_keeps_reading :
  ∃ w' o,
    complete (callHook remover "x" [] two_hooks_world) =
      (w', [{| fire_cb := UserFn 0; fire_fn := Some 0; fire_args := [] |};
            {| fire_cb := UserFn 1; fire_fn := Some 1; fire_args := [] |}], o) ∧
    hooksOf w' "x" = [UserFn 0].
Proof. eexists _, _. split; reflexivity. Qed.

(** ** Interceptors *)

Lemma after_stage_called user event w w' ta x :
  after_stage user event w = (w', ta, x) →
  Forall (λ f, fire_args f = [event_val event]) ta ∧
  (x = None →
   called ta = match event with
               | Some _ => default [] (_after (this w))
               | None => []
               end).
Proof.
  unfold after_stage.
  destruct (_after (this w)) as [afters |], event as [e |]; intros H;
    try (by simplify_eq).
  apply callEachWith_called in H as (Ha & _ & Hall). done.
Qed.

(** [beforeEach] and [afterEach] append to their lists. *)
Lemma intercepted_lists bs afters w :
  default [] (_before (this (intercepted bs afters w))) =
    default [] (_before (this w)) ++ bs ∧
  default [] (_after (this (intercepted bs afters w))) =
    default [] (_after (this w)) ++ afters.
Proof.
  unfold intercepted.
  assert (∀ l v, default [] (_after (this (foldl (λ w' f, afterEach f w') v l)))
                   = default [] (_after (this v)) ++ l ∧
                 _before (this (foldl (λ w' f, afterEach f w') v l))
                   = _before (this v)) as Ha.
  { induction l as [| a l IH]; intros v; simpl; [by rewrite app_nil_r |].
    destruct (IH (afterEach a v)) as [-> ->]. simpl.
    by rewrite <- app_assoc. }
  assert (∀ l v, default [] (_before (this (foldl (λ w' f, beforeEach f w') v l)))
                   = default [] (_before (this v)) ++ l ∧
                 _after (this (foldl (λ w' f, beforeEach f w') v l))
                   = _after (this v)) as Hb.
  { induction l as [| b l IH]; intros v; simpl; [by rewrite app_nil_r |].
    destruct (IH (beforeEach b v)) as [-> ->]. simpl.
    by rewrite <- app_assoc. }
  destruct (Ha afters (foldl (λ w' f, beforeEach f w') w bs)) as [-> ->].
  destruct (Hb bs w) as [-> ->]. done.
Qed.

(** C4, as stated, fails: [callHookWith] has no [try] around the call of
    its strategy.  With the before-interceptor [f5], the after-interceptor
    [f6] and the strategy [for (const hook of hooks) hook(...args)], a hook
    [f0] that throws ends the dispatch: [f5] and [f0] have been called,
    [f6] is not. *)
Lemma interceptors_sync_throw_counterexample :
  _after (this spied_world) = Some [UserFn 6] ∧
  ∃ w',
    callHookWith thrower (forOfCaller thrower 8) "x" [VNum 1; VNum 2]
        spied_world =
      (w', [{| fire_cb := UserFn 5; fire_fn := Some 5;
               fire_args := [VEvent 0] |};
            {| fire_cb := UserFn 0; fire_fn := Some 0;
               fire_args := [VNum 1; VNum 2] |}],
       RThrow (VStr "boom")) ∧
    _after (this w') = Some [UserFn 6].
Proof. split; [reflexivity |]. eexists. split; reflexivity. Qed.

(** C4, amended, for a plain name and a world [w] in which the
    interceptors [bs] and [afters] have been registered with [beforeEach]
    and [afterEach]: when an interceptor list exists, [callHookWith]
    creates one event object [{ name, args, context: {} }]; it calls the
    before-interceptors with it, in registration order, before the strategy
    gets the hooks; if the strategy returns a plain value the
    after-interceptors are called with the same event right after, in
    registration order; if it returns a promise they are called with the
    same event once that promise has settled, whether it was fulfilled or
    rejected; if it throws, no after-interceptor is called.  The
    after-interceptors are those registered when they are called. *)
Theorem interceptors_around_dispatch
    (user : nat → list Val → World → World * Outcome) (caller : Caller)
    (name : string) (args : list Val) (wi : World)
    (bs afters : list HookCallback) (w1 : World) (tb : list Fire) :
  plain name →
  let w := intercepted bs afters wi in
  is_Some (_before (this w)) ∨ is_Some (_after (this w)) →
  let e := length (events w) in
  let ev := {| ev_name := name; ev_args := args; ev_context := ∅ |} in
  let w0 := set_events (λ es, es ++ [ev]) w in
  before_stage user (Some e) w0 = (w1, tb, None) →
  new_event name args w = (Some e, w0) ∧
  events w0 = events w ++ [ev] ∧
  events w0 !! e = Some ev ∧
  called tb = default [] (_before (this wi)) ++ bs ∧
  Forall (λ f, fire_args f = [VEvent e]) tb ∧
  ∀ l w2 w3 th r,
    hooks_arg name w1 = (l, w2) → caller l args w2 = (w3, th, r) →
    match r with
    | RValue v =>
        ∃ w4 ta x,
          after_stage user (Some e) w3 = (w4, ta, x) ∧
          callHookWith user caller name args w =
            (w4, tb ++ th ++ ta,
             match x with None => RValue v | Some exn => RThrow exn end) ∧
          Forall (λ f, fire_args f = [VEvent e]) ta ∧
          (x = None → called ta = default [] (_after (this w3))) ∧
          (x = None → _after (this w3) = _after (this w) →
           called ta = default [] (_after (this wi)) ++ afters)
    | RPromise p =>
        ∃ p',
          callHookWith user caller name args w =
            (w3, tb ++ th, RPromise p') ∧
          ∀ w' w'' t o, settle p w' = (w'', t, o) →
            ∃ w''' ta x,
              after_stage user (Some e) w'' = (w''', ta, x) ∧
              settle p' w' =
                (w''', t ++ ta,
                 match x with Some exn => Throws exn | None => o end) ∧
              Forall (λ f, fire_args f = [VEvent e]) ta ∧
              (x = None → called ta = default [] (_after (this w''))) ∧
              (x = None → _after (this w'') = _after (this w) →
               called ta = default [] (_after (this wi)) ++ afters)
    | RThrow exn =>
        callHookWith user caller name args w =
          (w3, tb ++ th, RThrow exn)
    end.
Proof.
  intros _ w Hsome e ev w0 Hb.
  destruct (intercepted_lists bs afters wi) as [Hbs Hafters].
  fold w in Hbs, Hafters.
  assert (new_event name args w = (Some e, w0)) as Hev.
  { unfold new_event.
    destruct (_before (this w)), (_after (this w)); try done.
    destruct Hsome as [[? ?] | [? ?]]; done. }
  split_and!; [done | done | | | |].
  - unfold w0, e. simpl. by rewrite lookup_app_r, Nat.sub_diag by lia.
  - rewrite <- Hbs. unfold before_stage in Hb. simpl in Hb.
    destruct (_before (this w)) as [bs0 |]; [| by simplify_eq].
    apply callEachWith_called in Hb as (_ & _ & Hall). by apply Hall.
  - unfold before_stage in Hb. simpl in Hb.
    destruct (_before (this w)) as [bs0 |]; [| by simplify_eq].
    by apply callEachWith_called in Hb as (Ha & _ & _).
  - intros l w2 w3 th r Harg Hcall.
    unfold callHookWith. rewrite Hev, Hb, Harg, Hcall. destruct r as [v | p | exn].
    + destruct (after_stage user (Some e) w3) as [[w4 ta] x] eqn:Haf.
      exists w4, ta, x. apply after_stage_called in Haf as [Ha Hall].
      split_and!; [done | by destruct x | done | done |].
      intros Hx Heq. by rewrite (Hall Hx), Heq.
    + eexists. split; [done |]. intros w' w'' t o Hp. simpl. rewrite Hp.
      destruct (after_stage user (Some e) w'') as [[w''' ta] x] eqn:Haf.
      exists w''', ta, x. apply after_stage_called in Haf as [Ha Hall].
      split_and!; [done.. |]. intros Hx Heq. by rewrite (Hall Hx), Heq.
    + done.
Qed.

Lemma interceptors_around_dispatch_witness :
  (let w := intercepted [UserFn 5] [UserFn 6] hooked_x_world in
   let e := length (events w) in
   let ev := {| ev_name := "x"; ev_args := [VNum 1; VNum 2];
                ev_context := ∅ |} in
   let w0 := set_events (λ es, es ++ [ev]) w in
   new_event "x" [VNum 1; VNum 2] w = (Some e, w0) ∧
   events w0 = events w ++ [ev] ∧
   events w0 !! e = Some ev ∧
   called before_f5 = default [] (_before (this hooked_x_world)) ++ [UserFn 5] ∧
   Forall (λ f, fire_args f = [VEvent e]) before_f5 ∧
   ∀ l w2 w3 th r,
     hooks_arg "x" w0 = (l, w2) → (serialCaller quiet) l [VNum 1; VNum 2] w2 = (w3, th, r) →
     match r with
     | RValue v =>
         ∃ w4 ta x,
           after_stage quiet (Some e) w3 = (w4, ta, x) ∧
           callHookWith quiet (serialCaller quiet) "x" [VNum 1; VNum 2] w =
             (w4, before_f5 ++ th ++ ta,
              match x with None => RValue v | Some exn => RThrow exn end) ∧
           Forall (λ f, fire_args f = [VEvent e]) ta ∧
           (x = None → called ta = default [] (_after (this w3))) ∧
           (x = None → _after (this w3) = _after (this w) →
            called ta = default [] (_after (this hooked_x_world)) ++ [UserFn 6])
     | RPromise p =>
         ∃ p',
           callHookWith quiet (serialCaller quiet) "x" [VNum 1; VNum 2] w =
             (w3, before_f5 ++ th, RPromise p') ∧
           ∀ w' w'' t o, settle p w' = (w'', t, o) →
             ∃ w''' ta x,
               after_stage quiet (Some e) w'' = (w''', ta, x) ∧
               settle p' w' =
                 (w''', t ++ ta,
                  match x with Some exn => Throws exn | None => o end) ∧
               Forall (λ f, fire_args f = [VEvent e]) ta ∧
               (x = None → called ta = default [] (_after (this w''))) ∧
               (x = None → _after (this w'') = _after (this w) →
                called ta = default [] (_after (this hooked_x_world)) ++ [UserFn 6])
     | RThrow exn =>
         callHookWith quiet (serialCaller quiet) "x" [VNum 1; VNum 2] w =
           (w3, before_f5 ++ th, RThrow exn)
     end) ∧
  (let w := intercepted [UserFn 5] [UserFn 6] hooked_x_world in
   let e := length (events w) in
   let ev := {| ev_name := "x"; ev_args := [VNum 1; VNum 2];
                ev_context := ∅ |} in
   let w0 := set_events (λ es, es ++ [ev]) w in
   new_event "x" [VNum 1; VNum 2] w = (Some e, w0) ∧
   events w0 = events w ++ [ev] ∧
   events w0 !! e = Some ev ∧
   called before_f5 = default [] (_before (this hooked_x_world)) ++ [UserFn 5] ∧
   Forall (λ f, fire_args f = [VEvent e]) before_f5 ∧
   ∀ l w2 w3 th r,
     hooks_arg "x" w0 = (l, w2) → (forOfCaller quiet 8) l [VNum 1; VNum 2] w2 = (w3, th, r) →
     match r with
     | RValue v =>
         ∃ w4 ta x,
           after_stage quiet (Some e) w3 = (w4, ta, x) ∧
           callHookWith quiet (forOfCaller quiet 8) "x" [VNum 1; VNum 2] w =
             (w4, before_f5 ++ th ++ ta,
              match x with None => RValue v | Some exn => RThrow exn end) ∧
           Forall (λ f, fire_args f = [VEvent e]) ta ∧
           (x = None → called ta = default [] (_after (this w3))) ∧
           (x = None → _after (this w3) = _after (this w) →
            called ta = default [] (_after (this hooked_x_world)) ++ [UserFn 6])
     | RPromise p =>
         ∃ p',
           callHookWith quiet (forOfCaller quiet 8) "x" [VNum 1; VNum 2] w =
             (w3, before_f5 ++ th, RPromise p') ∧
           ∀ w' w'' t o, settle p w' = (w'', t, o) →
             ∃ w''' ta x,
               after_stage quiet (Some e) w'' = (w''', ta, x) ∧
               settle p' w' =
                 (w''', t ++ ta,
                  match x with Some exn => Throws exn | None => o end) ∧
               Forall (λ f, fire_args f = [VEvent e]) ta ∧
               (x = None → called ta = default [] (_after (this w''))) ∧
               (x = None → _after (this w'') = _after (this w) →
                called ta = default [] (_after (this hooked_x_world)) ++ [UserFn 6])
     | RThrow exn =>
         callHookWith quiet (forOfCaller quiet 8) "x" [VNum 1; VNum 2] w =
           (w3, before_f5 ++ th, RThrow exn)
     end) ∧
  (let w := intercepted [UserFn 5] [UserFn 6] hooked_x_world in
   let e := length (events w) in
   let ev := {| ev_name := "x"; ev_args := [VNum 1; VNum 2];
                ev_context := ∅ |} in
   let w0 := set_events (λ es, es ++ [ev]) w in
   new_event "x" [VNum 1; VNum 2] w = (Some e, w0) ∧
   events w0 = events w ++ [ev] ∧
   events w0 !! e = Some ev ∧
   called before_f5 = default [] (_before (this hooked_x_world)) ++ [UserFn 5] ∧
   Forall (λ f, fire_args f = [VEvent e]) before_f5 ∧
   ∀ l w2 w3 th r,
     hooks_arg "x" w0 = (l, w2) → (forOfCaller thrower 8) l [VNum 1; VNum 2] w2 = (w3, th, r) →
     match r with
     | RValue v =>
         ∃ w4 ta x,
           after_stage thrower (Some e) w3 = (w4, ta, x) ∧
           callHookWith thrower (forOfCaller thrower 8) "x" [VNum 1; VNum 2] w =
             (w4, before_f5 ++ th ++ ta,
              match x with None => RValue v | Some exn => RThrow exn end) ∧
           Forall (λ f, fire_args f = [VEvent e]) ta ∧
           (x = None → called ta = default [] (_after (this w3))) ∧
           (x = None → _after (this w3) = _after (this w) →
            called ta = default [] (_after (this hooked_x_world)) ++ [UserFn 6])
     | RPromise p =>
         ∃ p',
           callHookWith thrower (forOfCaller thrower 8) "x" [VNum 1; VNum 2] w =
             (w3, before_f5 ++ th, RPromise p') ∧
           ∀ w' w'' t o, settle p w' = (w'', t, o) →
             ∃ w''' ta x,
               after_stage thrower (Some e) w'' = (w''', ta, x) ∧
               settle p' w' =
                 (w''', t ++ ta,
                  match x with Some exn => Throws exn | None => o end) ∧
               Forall (λ f, fire_args f = [VEvent e]) ta ∧
               (x = None → called ta = default [] (_after (this w''))) ∧
               (x = None → _after (this w'') = _after (this w) →
                called ta = default [] (_after (this hooked_x_world)) ++ [UserFn 6])
     | RThrow exn =>
         callHookWith thrower (forOfCaller thrower 8) "x" [VNum 1; VNum 2] w =
           (w3, before_f5 ++ th, RThrow exn)
     end).
Proof.
  split_and!.
  - apply (interceptors_around_dispatch quiet (serialCaller quiet) "x"
             [VNum 1; VNum 2] hooked_x_world [UserFn 5] [UserFn 6]);
      [reflexivity | left; eexists; reflexivity | reflexivity].
  - apply (interceptors_around_dispatch quiet (forOfCaller quiet 8) "x"
             [VNum 1; VNum 2] hooked_x_world [UserFn 5] [UserFn 6]);
      [reflexivity | left; eexists; reflexivity | reflexivity].
  - apply (interceptors_around_dispatch thrower (forOfCaller thrower 8) "x"
             [VNum 1; VNum 2] hooked_x_world [UserFn 5] [UserFn 6]);
      [reflexivity | left; eexists; reflexivity | reflexivity].
Defined.

(** The three strategies of the witness return a promise, a plain value and
    an exception. *)
Example interceptors_three_results :
  (∃ w p, callHookWith quiet (serialCaller quiet) "x" [VNum 1; VNum 2]
            spied_world = (w, before_f5, RPromise p)) ∧
  (∃ w, callHookWith quiet (forOfCaller quiet 8) "x" [VNum 1; VNum 2]
          spied_world =
        (w, before_f5 ++
            [{| fire_cb := UserFn 0; fire_fn := Some 0;
                fire_args := [VNum 1; VNum 2] |};
             {| fire_cb := UserFn 6; fire_fn := Some 6;
                fire_args := [VEvent 0] |}], RValue VUndef)) ∧
  spied_world = intercepted [UserFn 5] [UserFn 6] hooked_x_world.
Proof.
  split_and!; [eexists _, _; reflexivity | eexists; reflexivity | reflexivity].
Qed.

(** A hook that throws: the before-interceptor, the hook and the
    after-interceptor are called once each, in this order, the interceptors
    with the same event, and the dispatch fails. *)
Example interceptors_when_hook_throws :
  ∃ w',
    complete (callHook thrower "x" [VNum 1; VNum 2] spied_world) =
      (w', [{| fire_cb := UserFn 5; fire_fn := Some 5;
               fire_args := [VEvent 0] |};
            {| fire_cb := UserFn 0; fire_fn := Some 0;
               fire_args := [VNum 1; VNum 2] |};
            {| fire_cb := UserFn 6; fire_fn := Some 6;
               fire_args := [VEvent 0] |}],
       Throws (VStr "boom")) ∧
    events w' = [event_object "x" [VNum 1; VNum 2]].
Proof. eexists. split; reflexivity. Qed.

(** ** Registration followed by unregistration *)

Lemma splice_first_notin a fn : fn ∉ a → splice_first (a ++ [fn]) fn = a.
Proof.
  unfold splice_first. induction a as [| x a IH]; intros Hnin; simpl.
  - by rewrite decide_True.
  - apply not_elem_of_cons in Hnin as [Hne Hnin].
    rewrite decide_False by done. specialize (IH Hnin).
    destruct (indexOf (a ++ [fn]) fn) as [i |]; simpl; by f_equal.
Qed.

Lemma splice_first_perm a fn : splice_first (a ++ [fn]) fn ≡ₚ a.
Proof.
  unfold splice_first. induction a as [| x a IH]; simpl.
  - by rewrite decide_True.
  - destruct (decide (x = fn)) as [-> |]; simpl.
    + symmetry. apply Permutation_cons_append.
    + destruct (indexOf (a ++ [fn]) fn) as [i |]; simpl in *; by f_equiv.
Qed.

Lemma removeHook_unregs name fn w : unregs (removeHook name fn w) = unregs w.
Proof.
  unfold removeHook.
  destruct (_hooks (this w) !! name) as [[l |] |]; [| done..].
  destruct (arrays w !! l); [| done]. by case_decide.
Qed.

Lemma unregister_live w i name fn :
  unregs w !! i = Some {| u_name := name; u_function := Some fn |} →
  unregister (UClosure i) w =
    set_unregs (<[i := {| u_name := name; u_function := None |}]>)
      (removeHook name fn w).
Proof. unfold unregister. by intros ->. Qed.

Lemma unregister_spent w i name :
  unregs w !! i = Some {| u_name := name; u_function := None |} →
  unregister (UClosure i) w = w.
Proof. unfold unregister. by intros ->. Qed.

Lemma registered_unregs name name' dep fn allow w :
  unregs (registered name name' dep fn allow w) =
    unregs w ++ [{| u_name := name'; u_function := Some fn |}].
Proof.
  unfold registered. simpl.
  by rewrite push_hook_unregs, deprecation_warning_unregs.
Qed.

(** C3, as stated, fails: with [f0, f1] under ["x"], registering [f0] again
    and calling the handle removes the first [f0], leaving [f1, f0]: the
    dispatch order for ["x"] is no longer the one before the registration. *)
Lemma round_trip_counterexample :
  hooksOf two_hooks_world "x" = [UserFn 0; UserFn 1] ∧
  ∃ u w1,
    hook "x" (VFn (UserFn 0)) false two_hooks_world = Some (u, w1) ∧
    hooksOf w1 "x" = [UserFn 0; UserFn 1; UserFn 0] ∧
    hooksOf (unregister u w1) "x" = [UserFn 1; UserFn 0].
Proof. split; [reflexivity |]. eexists _, _. split_and!; reflexivity. Qed.

(** C3, amended, for a plain [name]: after [hook(name, fn)] and a call of
    the returned handle,
    the callbacks under the resolved name are those before the registration
    with [fn] appended and its first occurrence removed: the same callbacks,
    and in the same order when [fn] was not among them; the other names are
    untouched.  Calling the handle again changes nothing, also after [fn]
    has been registered under [name] once more. *)
Theorem hook_unregister_round_trip (w : World) (name name' : string)
    (dep : option DeprecatedHook) (fn : HookCallback) (allow : bool) :
  reachable_plain w → plain name → name ≠ "" →
  resolve (_deprecatedHooks (this w)) name = Some (name', dep) →
  ∃ u w1,
    hook name (VFn fn) allow w = Some (u, w1) ∧
    let w2 := unregister u w1 in
    hooksOf w2 name' = splice_first (hooksOf w name' ++ [fn]) fn ∧
    hooksOf w2 name' ≡ₚ hooksOf w name' ∧
    (∀ n, n ≠ name' → hooksOf w2 n = hooksOf w n) ∧
    (fn ∉ hooksOf w name' → ∀ n, hooksOf w2 n = hooksOf w n) ∧
    unregister u w2 = w2 ∧
    (∀ u' w3, hook name (VFn fn) allow w2 = Some (u', w3) →
       unregister u w3 = w3 ∧ hooksOf w3 name' = hooksOf w2 name' ++ [fn]).
Proof.
  intros (Hok & _ & _)%reachable_plain_inv _ Hne Hres.
  set (w1 := registered name name' dep fn allow w).
  set (i := length (unregs w)).
  exists (UClosure i), w1. split; [by apply hook_resolved |]. simpl.
  assert (hooks_ok w1) as Hok1 by (by apply registered_ok).
  assert (unregs w1 !! i = Some {| u_name := name'; u_function := Some fn |})
    as Hi.
  { unfold w1, i. rewrite registered_unregs.
    by rewrite lookup_app_r, Nat.sub_diag by lia. }
  rewrite (unregister_live _ _ _ _ Hi).
  set (w2 := set_unregs _ (removeHook name' fn w1)).
  assert (same_table (removeHook name' fn w1) w2) as Ht2 by done.
  assert (∀ n, hooksOf w2 n =
            if decide (n = name')
            then splice_first (hooksOf w n ++ [fn]) fn else hooksOf w n) as Hh2.
  { intros n. rewrite (same_table_hooksOf _ _ _ Ht2).
    rewrite removeHook_hooksOf by done. unfold w1.
    rewrite registered_hooksOf by done. by destruct (decide (n = name')). }
  assert (i < length (unregs (removeHook name' fn w1)))%nat as Hlen.
  { rewrite removeHook_unregs. by eapply lookup_lt_Some. }
  assert (unregs w2 !! i = Some {| u_name := name'; u_function := None |})
    as Hi2.
  { unfold w2. simpl. by rewrite list_lookup_insert_eq. }
  split_and!.
  - by rewrite Hh2, decide_True.
  - rewrite Hh2, decide_True by done. apply splice_first_perm.
  - intros n Hn. by rewrite Hh2, decide_False.
  - intros Hnin n. rewrite Hh2. destruct (decide (n = name')) as [-> |]; [| done].
    by apply splice_first_notin.
  - by apply (unregister_spent _ _ name').
  - intros u' w3 Hh. apply hook_inv in Hh as (n' & dep' & Hres' & _ & ->); [| done].
    assert (same_deps w w2) as Hd2.
    { eapply same_deps_trans; [apply registered_deps |].
      eapply same_deps_trans; [apply removeHook_deps | done]. }
    rewrite Hd2 in Hres'. simplify_eq. split.
    + apply (unregister_spent _ _ name'). rewrite registered_unregs.
      by apply lookup_app_l_Some.
    + rewrite registered_hooksOf, decide_True; [done.. |].
      apply (same_table_ok _ _ Ht2). by apply removeHook_ok.
Qed.

Lemma hook_unregister_round_trip_witness :
  ∃ u w1,
    hook "x" (VFn (UserFn 2)) false two_hooks_world = Some (u, w1) ∧
    let w2 := unregister u w1 in
    hooksOf w2 "x" =
      splice_first (hooksOf two_hooks_world "x" ++ [UserFn 2]) (UserFn 2) ∧
    hooksOf w2 "x" ≡ₚ hooksOf two_hooks_world "x" ∧
    (∀ n, n ≠ "x" → hooksOf w2 n = hooksOf two_hooks_world n) ∧
    (UserFn 2 ∉ hooksOf two_hooks_world "x" →
       ∀ n, hooksOf w2 n = hooksOf two_hooks_world n) ∧
    unregister u w2 = w2 ∧
    (∀ u' w3, hook "x" (VFn (UserFn 2)) false w2 = Some (u', w3) →
       unregister u w3 = w3 ∧ hooksOf w3 "x" = hooksOf w2 "x" ++ [UserFn 2]).
Proof.
  apply (hook_unregister_round_trip two_hooks_world "x" "x" None (UserFn 2)
           false).
  - apply (run_ops_reachable_plain
             [OpHook "x" (VFn (UserFn 0)) false;
              OpHook "x" (VFn (UserFn 1)) false] constructor);
      [apply reachable_plain_new | reflexivity | reflexivity].
  - reflexivity.
  - discriminate.
  - reflexivity.
Defined.

(** ** Bulk registration *)

Lemma unregister_removeFns u w : removeFns (unregister u w) = removeFns w.
Proof.
  unfold unregister. destruct u as [| i]; [done |].
  destruct (unregs w !! i) as [[name [fn |]] |]; [| done..]. simpl.
  unfold removeHook.
  destruct (_hooks (this w) !! name) as [[l |] |]; [| done..].
  destruct (arrays w !! l); [| done]. by case_decide.
Qed.

Lemma set_removeFns_id w (f : list (list Unreg) → list (list Unreg)) :
  f (removeFns w) = removeFns w → set_removeFns f w = w.
Proof. destruct w. unfold set_removeFns. simpl. by intros ->. Qed.

(** The arrow returned by [addHooks] does nothing when its list is empty. *)
Lemma removeAll_drained i w :
  default [] (removeFns w !! i) = [] → removeAll i w = w.
Proof.
  intros Hd. unfold removeAll. rewrite Hd. simpl.
  apply set_removeFns_id.
  destruct (removeFns w !! i) as [us |] eqn:E.
  - simpl in Hd. subst us. by apply list_insert_id.
  - apply list_insert_ge. by apply lookup_ge_None.
Qed.

Lemma removeAll_pending i w :
  default [] (removeFns (removeAll i w) !! i) = [].
Proof.
  unfold removeAll.
  assert (∀ us v, removeFns (foldl (λ w' u, unregister u w') v us) = removeFns v)
    as Hfold.
  { induction us as [| u us IH]; intros v; simpl; [done |].
    by rewrite IH, unregister_removeFns. }
  rewrite Hfold. simpl.
  destruct (decide (i < length (removeFns w))%nat).
  - by rewrite list_lookup_insert_eq.
  - rewrite list_insert_ge by lia.
    by rewrite (proj2 (lookup_ge_None (removeFns w) i)) by lia.
Qed.

Lemma hook_appends name v allow w u w' n x :
  hooks_ok w → hook name v allow w = Some (u, w') →
  x ∈ hooksOf w n → x ∈ hooksOf w' n.
Proof.
  intros Hok H Hx. destruct (decide (name = "")) as [-> |].
  { unfold hook in H. destruct v; simplify_eq; try done.
    case_decide; by simplify_eq. }
  destruct v; try (unfold hook in H; by simplify_eq).
  apply hook_inv in H as (name' & dep & _ & _ & ->); [| done].
  rewrite registered_hooksOf by done.
  destruct (decide (n = name')); [| done]. apply elem_of_app. by left.
Qed.

Lemma registered_rest name name' dep fn allow w :
  removeFns (registered name name' dep fn allow w) = removeFns w ∧
  onces (registered name name' dep fn allow w) = onces w ∧
  events (registered name name' dep fn allow w) = events w ∧
  _before (this (registered name name' dep fn allow w)) = _before (this w) ∧
  _after (this (registered name name' dep fn allow w)) = _after (this w).
Proof.
  unfold registered, push_hook, ensure_array, deprecation_warning, warn.
  destruct dep as [d |]; [destruct allow; [| case_decide] |];
    by destruct (_hooks _ !! name') as [[l |] |].
Qed.

(** Every entry with a usable name is stored under the name its key
    resolves to, and one handle per entry is returned. *)
Lemma hook_all_spec hooks w us w' :
  hooks_ok w → hook_all hooks w = Some (us, w') →
  hooks_ok w' ∧ same_deps w w' ∧ length us = length hooks ∧
  removeFns w' = removeFns w ∧
  (∀ n x, x ∈ hooksOf w n → x ∈ hooksOf w' n) ∧
  (∀ key fn, (key, fn) ∈ hooks → key ≠ "" →
     ∃ key' dep,
       resolve (_deprecatedHooks (this w)) key = Some (key', dep) ∧
       fn ∈ hooksOf w' key').
Proof.
  revert w us w'. induction hooks as [| [key fn] r IH]; intros w us w' Hok H;
    simpl in H.
  - simplify_eq. split_and!; try done. intros key fn Hin. by apply elem_of_nil in Hin.
  - destruct (hook key (VFn fn) false w) as [[u w1] |] eqn:E; simplify_eq/=.
    destruct (hook_all r w1) as [[us' w2] |] eqn:E'; simplify_eq/=.
    pose proof (hook_preserves _ _ _ _ _ _ E) as (Hok1 & _ & Hd1).
    specialize (Hok1 Hok).
    destruct (IH _ _ _ Hok1 E') as (Hok2 & Hd2 & Hlen & Hrf & Hmono & Hall).
    split_and!; [done | by eapply same_deps_trans | by rewrite Hlen | | |].
    + rewrite Hrf. destruct (decide (key = "")) as [-> |].
      { unfold hook in E. case_decide; by simplify_eq. }
      apply hook_inv in E as (? & ? & _ & _ & ->); [| done].
      apply registered_rest.
    + intros n x Hx. apply Hmono.
      exact (hook_appends key (VFn fn) false w u w1 n x Hok E Hx).
    + intros key0 fn0 [[= -> ->] | Hin]%elem_of_cons Hne.
      * pose proof E as E0.
        apply hook_inv in E0 as (key' & dep & Hres & _ & ->); [| done].
        exists key', dep. split; [done |]. apply Hmono.
        rewrite registered_hooksOf, decide_True by done.
        apply elem_of_app. right. by apply list_elem_of_singleton.
      * destruct (Hall _ _ Hin Hne) as (key' & dep & Hres & Hfn).
        exists key', dep. by rewrite <- Hd1.
Qed.

Lemma splice_first_in a fn : fn ∈ a → fn :: splice_first a fn ≡ₚ a.
Proof.
  unfold splice_first. induction a as [| x a IH]; intros Hin; simpl.
  - by apply elem_of_nil in Hin.
  - destruct (decide (x = fn)) as [-> |]; simpl; [done |].
    apply elem_of_cons in Hin as [-> | Hin]; [done |]. specialize (IH Hin).
    destruct (indexOf a fn) as [i |]; simpl in *.
    + rewrite Permutation_swap. by f_equiv.
    + rewrite Permutation_swap. by f_equiv.
Qed.

Lemma pending_cons w u us name :
  pending w (u :: us) name =
    match live_entry w u with
    | Some (n, fn) =>
        if decide (n = name) then fn :: pending w us name
        else pending w us name
    | None => pending w us name
    end.
Proof.
  unfold pending. simpl. destruct (live_entry w u) as [[n fn] |]; [| done].
  by destruct (decide (n = name)).
Qed.

Lemma pending_other_unregs w w' us name :
  (∀ i, i ∈ closures us → unregs w' !! i = unregs w !! i) →
  pending w' us name = pending w us name.
Proof.
  induction us as [| u us IH]; intros H; [done |].
  rewrite !pending_cons.
  assert (live_entry w' u = live_entry w u) as ->.
  { destruct u as [| i]; [done |]. simpl. rewrite H; [done |].
    simpl. apply elem_of_cons. by left. }
  rewrite IH; [done |]. intros i Hi. apply H.
  destruct u; simpl; [done |]. apply elem_of_cons. by right.
Qed.

(** Calling handles with distinct environments removes from every name
    what they hold for it. *)
Lemma unregister_all_pending us v (base : string → list HookCallback) :
  hooks_ok v → NoDup (closures us) →
  (∀ n, hooksOf v n ≡ₚ base n ++ pending v us n) →
  ∀ n, hooksOf (foldl (λ w' u, unregister u w') v us) n ≡ₚ base n.
Proof.
  revert v. induction us as [| u us IH]; intros v Hok Hnd Hp n; simpl.
  - rewrite Hp. unfold pending. simpl. by rewrite app_nil_r.
  - destruct (live_entry v u) as [[n0 fn] |] eqn:El.
    + destruct u as [| i]; [done |]. simpl in El, Hnd.
      destruct (unregs v !! i) as [[n0' [fn' |]] |] eqn:Ei; simplify_eq.
      apply NoDup_cons in Hnd as [Hni Hnd].
      rewrite (unregister_live _ _ _ _ Ei).
      set (v1 := set_unregs _ (removeHook n0 fn v)).
      assert (same_table (removeHook n0 fn v) v1) as Ht by done.
      apply IH; [| done |].
      * apply (same_table_ok _ _ Ht). by apply removeHook_ok.
      * intros m. rewrite (same_table_hooksOf _ _ _ Ht).
        rewrite removeHook_hooksOf by done.
        assert (pending v1 us m = pending v us m) as ->.
        { apply pending_other_unregs. intros j Hj. unfold v1. simpl.
          rewrite removeHook_unregs. apply list_lookup_insert_ne.
          by intros <-. }
        specialize (Hp m). rewrite pending_cons in Hp. simpl in Hp.
        rewrite Ei in Hp. destruct (decide (m = n0)) as [-> |].
        -- rewrite decide_True in Hp by done.
           assert (fn ∈ hooksOf v n0) as Hin.
           { rewrite Hp. apply elem_of_app. right. apply elem_of_cons. by left. }
           apply (Permutation_cons_inv (a := fn)).
           rewrite splice_first_in by done. rewrite Hp.
           by rewrite Permutation_middle.
        -- by rewrite decide_False in Hp by done.
    + assert (unregister u v = v) as ->.
      { unfold unregister. destruct u as [| i]; [done |]. simpl in El.
        by destruct (unregs v !! i) as [[? [? |]] |]. }
      apply IH; [done | |].
      * destruct u; simpl in Hnd; [done |]. by apply NoDup_cons in Hnd as [_ ?].
      * intros m. rewrite (Hp m), pending_cons. by rewrite El.
Qed.

(** After the registrations of [addHooks], every returned handle has an
    environment of its own, and the hooks of every name are the former ones
    and those the handles hold. *)
Lemma hook_all_pending hooks w us w1 :
  hooks_ok w → hook_all hooks w = Some (us, w1) →
  (∃ ext, unregs w1 = unregs w ++ ext) ∧
  NoDup (closures us) ∧
  (∀ i, i ∈ closures us → (length (unregs w) ≤ i)%nat) ∧
  ∀ n, hooksOf w1 n ≡ₚ hooksOf w n ++ pending w1 us n.
Proof.
  revert w us w1. induction hooks as [| [key fn] r IH]; intros w us w1 Hok H;
    simpl in H.
  - simplify_eq. split_and!.
    + exists []. by rewrite app_nil_r.
    + apply NoDup_nil_2.
    + intros i Hi. by apply elem_of_nil in Hi.
    + intros n. unfold pending. simpl. by rewrite app_nil_r.
  - destruct (hook key (VFn fn) false w) as [[u wa] |] eqn:E; simplify_eq/=.
    destruct (hook_all r wa) as [[us' w2] |] eqn:E'; simplify_eq/=.
    destruct (decide (key = "")) as [-> | Hkey].
    + unfold hook in E. rewrite decide_True in E by done. simplify_eq.
      destruct (IH _ _ _ Hok E') as (Hext & Hnd & Hge & Hp).
      split_and!; [done | done | done |].
      intros n. by rewrite pending_cons.
    + apply hook_inv in E as (key' & dep & _ & -> & ->); [| done].
      set (wa := registered key key' dep fn false w) in *.
      assert (hooks_ok wa) as Hoka by (by apply registered_ok).
      assert (unregs wa =
                unregs w ++ [{| u_name := key'; u_function := Some fn |}])
        as Hua by apply registered_unregs.
      destruct (IH _ _ _ Hoka E') as ([ext Hext] & Hnd & Hge & Hp).
      rewrite Hua in Hext. rewrite Hua, length_app in Hge. simpl in Hge.
      split_and!.
      * eexists. by rewrite Hext, <- app_assoc.
      * simpl. apply NoDup_cons. split; [| done].
        intros Hin%Hge. lia.
      * simpl. intros i [-> | Hin%Hge]%elem_of_cons; lia.
      * intros n. rewrite pending_cons. simpl.
        assert (unregs w1 !! length (unregs w) =
                  Some {| u_name := key'; u_function := Some fn |}) as ->.
        { rewrite Hext, <- app_assoc. rewrite lookup_app_r by lia.
          by rewrite Nat.sub_diag. }
        rewrite (Hp n). unfold wa. rewrite registered_hooksOf by done.
        destruct (decide (n = key')) as [-> |].
        -- rewrite decide_True by done. by rewrite <- app_assoc.
        -- by rewrite decide_False by done.
Qed.

(** Registering a configuration and calling the returned arrow leaves, under
    every name, the callbacks that were there. *)
Lemma addHooks_removeAll w configHooks i w1 :
  hooks_ok w → addHooks configHooks w = Some (i, w1) →
  ∀ n, hooksOf (removeAll i w1) n ≡ₚ hooksOf w n.
Proof.
  intros Hok H. unfold addHooks in H.
  destruct (hook_all (flatHooks configHooks) w) as [[us w0] |] eqn:E;
    simplify_eq/=.
  destruct (hook_all_spec _ _ _ _ Hok E) as (Hok0 & _).
  destruct (hook_all_pending _ _ _ _ Hok E) as (_ & Hnd & _ & Hp).
  unfold removeAll. simpl.
  rewrite lookup_app_r, Nat.sub_diag by lia. simpl.
  apply unregister_all_pending; [by apply (same_table_ok w0) | done |].
  intros n. rewrite (pending_other_unregs w0) by done.
  rewrite (same_table_hooksOf w0) by done. apply Hp.
Qed.

Lemma hook_all_returns hooks w :
  acyclic (_deprecatedHooks (this w)) → is_Some (hook_all hooks w).
Proof.
  revert w. induction hooks as [| [key fn] r IH]; intros w Hac; simpl;
    [by eexists |].
  destruct (hook_returns key (VFn fn) false w Hac) as [[u w1] E]. rewrite E.
  simpl. pose proof (hook_preserves _ _ _ _ _ _ E) as (_ & _ & Hd).
  destruct (IH w1) as [[us w2] E2]; [by rewrite Hd |]. rewrite E2. by eexists.
Qed.

Lemma acyclic_empty : acyclic (∅ : gmap string DeprecatedHook).
Proof.
  apply (acyclic_rank _ (λ _, 0)). intros a b (d & Hd & _).
  by rewrite lookup_empty in Hd.
Qed.

Lemma registered_under_cons deps key fn r n :
  registered_under deps ((key, fn) :: r) n =
    if decide (key ≠ "" ∧ target deps key = Some n)
    then fn :: registered_under deps r n else registered_under deps r n.
Proof. unfold registered_under. simpl. by case_decide. Qed.

(** [hook] on every entry appends each callback to the hooks of the name
    its key resolves to. *)
Lemma hook_all_appends hooks w :
  hooks_ok w → acyclic (_deprecatedHooks (this w)) →
  ∃ us w0,
    hook_all hooks w = Some (us, w0) ∧
    ∀ n, hooksOf w0 n =
           hooksOf w n ++ registered_under (_deprecatedHooks (this w)) hooks n.
Proof.
  revert w. induction hooks as [| [key fn] r IH]; intros w Hok Hac.
  - exists [], w. split; [done |]. intros n. by rewrite app_nil_r.
  - simpl. destruct (decide (key = "")) as [-> | Hne].
    + assert (hook "" (VFn fn) false w = Some (UNoop, w)) as -> by done.
      simpl. destruct (IH w Hok Hac) as (us & w0 & -> & Hh). simpl.
      exists (UNoop :: us), w0. split; [done |]. intros n.
      rewrite Hh, registered_under_cons. rewrite decide_False; [done |].
      by intros [? _].
    + destruct (resolve_loop_acyclic (_deprecatedHooks (this w))
                  (size (_deprecatedHooks (this w))) key None Hac)
        as (key' & dep & Hres & _); [lia |].
      rewrite (hook_resolved key fn false w key' dep) by done. simpl.
      set (wa := registered key key' dep fn false w).
      assert (_deprecatedHooks (this wa) = _deprecatedHooks (this w)) as Hd
        by apply registered_deps.
      destruct (IH wa) as (us & w0 & -> & Hh);
        [by apply registered_ok | by rewrite Hd |]. simpl.
      exists (UClosure (length (unregs w)) :: us), w0. split; [done |].
      intros n. rewrite Hh, Hd, registered_under_cons. unfold wa.
      rewrite registered_hooksOf by done.
      assert (target (_deprecatedHooks (this w)) key = Some key') as ->
        by (unfold target, resolve; by rewrite Hres).
      destruct (decide (n = key')) as [-> |].
      * rewrite decide_True by done. by rewrite <- app_assoc.
      * rewrite decide_False; [done |]. intros [_ ?]. congruence.
Qed.



(** On a new instance: [f3] is registered under ["a.b"], the first call of
    the returned arrow removes it and deletes the key, the second call
    changes nothing. *)
Example addHooks_nested_example :
  ∃ w1,
    addHooks (nested_ab (UserFn 3)) constructor = Some (0, w1) ∧
    hooksOf w1 "a.b" = [UserFn 3] ∧
    hooksOf (removeAll 0 w1) "a.b" = [] ∧
    _hooks (this (removeAll 0 w1)) !! "a.b" = None ∧
    removeAll 0 (removeAll 0 w1) = removeAll 0 w1.
Proof. eexists. split_and!; reflexivity. Qed.

(** ** Registration under a deprecated name *)

Section SerialDispatch.

Context (user : nat → list Val → World → World * Outcome).

(** Without interceptor lists, driving [callHook] to its end is calling the
    stored callbacks one after the other. *)
Lemma callHook_plain name args w :
  _before (this w) = None → _after (this w) = None →
  complete (callHook user name args w) =
    run_serial user (hooksOf w name) args VUndef (hooks_arg name w).2.
Proof.
  intros Hb Ha. unfold callHook, callHookWith, new_event.
  rewrite Hb, Ha. unfold before_stage. rewrite Hb.
  destruct (hooks_arg name w) as [l w2] eqn:Harg.
  apply hooks_arg_spec in Harg as [Hl _].
  unfold serialCaller, complete, finally. simpl. rewrite Hl.
  destruct (run_serial user (hooksOf w name) args VUndef w2) as [[w3 t] o].
  unfold after_stage. destruct (_after (this w3)); by rewrite app_nil_r.
Qed.

Lemma hooks_arg_stored name w :
  hooksOf w name ≠ [] → (hooks_arg name w).2 = w.
Proof.
  intros Hne. unfold hooks_arg.
  destruct (_hooks (this w) !! name) as [[l |] |] eqn:E; [done | |];
    destruct Hne; apply hooksOf_no_array; intros l; by rewrite E.
Qed.

Lemma run_serial_single f args w w' o :
  user f args w = (w', o) →
  run_serial user [UserFn f] args VUndef w =
    (w', [{| fire_cb := UserFn f; fire_fn := Some f; fire_args := args |}], o).
Proof. intros H. simpl. rewrite H. by destruct o. Qed.

End SerialDispatch.

Lemma chain_world_reachable : reachable chain_world.
Proof.
  apply (run_ops_reachable chain_ops constructor);
    [apply reachable_new | reflexivity].
Qed.

(** C2, for plain names [name] and [target]: when
    [deprecateHook(name, target)] is called and the chain from
    [name] ends at [name'], the callbacks stored under [name] are appended
    to those of [name'] and the key [name] is left holding [undefined]; a
    later [hook(name, cb)] stores [cb] under [name'] as well.  On a new
    instance, after [deprecateHook("a", "b")] and [deprecateHook("b", "c")],
    [hook("a", f)] stores [f] under ["c"] and [callHook("c", ...args)]
    calls it with [args]. *)
Theorem deprecation_chain_forwarding (w : World) (name name' : string)
    (d : DeprecatedHook) (deprecated : string + DeprecatedHook)
    (cb : HookCallback) :
  reachable_plain w → plain name → plain (to (deprecation_entry deprecated)) →
  name ≠ "" →
  resolve (<[name := deprecation_entry deprecated]> (_deprecatedHooks (this w)))
          name = Some (name', Some d) →
  (∃ w1,
     deprecateHook name deprecated w = Some w1 ∧
     hooksOf w1 name' = hooksOf w name' ++ hooksOf w name ∧
     hooksOf w1 name = [] ∧
     _hooks (this w1) !! name = Some None ∧
     (∀ n, n ≠ name → n ≠ name' → hooksOf w1 n = hooksOf w n) ∧
     ∃ u w2,
       hook name (VFn cb) false w1 = Some (u, w2) ∧
       hooksOf w2 name' = hooksOf w name' ++ hooksOf w name ++ [cb] ∧
       hooksOf w2 name = []) ∧
  (∀ (user : nat → list Val → World → World * Outcome) (f : nat)
     (args : list Val),
     ∃ w1 w2 u w3,
       deprecateHook "a" (inl "b") constructor = Some w1 ∧
       deprecateHook "b" (inl "c") w1 = Some w2 ∧
       resolve (_deprecatedHooks (this w2)) "a" = Some ("c", Some (to_ "c")) ∧
       hook "a" (VFn (UserFn f)) false w2 = Some (u, w3) ∧
       hooksOf w3 "c" = [UserFn f] ∧
       hooksOf w3 "a" = [] ∧ hooksOf w3 "b" = [] ∧
       ∀ w4 o, user f args w3 = (w4, o) →
         complete (callHook user "c" args w3) =
           (w4, [{| fire_cb := UserFn f; fire_fn := Some f;
                    fire_args := args |}], o)).
Proof.
  intros Hr%reachable_plain_reachable _ _ Hne Hres.
  pose proof (reachable_inv _ Hr) as (Hok & Hc & _). split.
  - destruct (deprecateHook_spec w name deprecated name' d Hok Hc Hne Hres)
      as (w1 & Hdep & Hdeps & Hnn & Hslot & Hold & Hnew & Hother & _).
    exists w1. split_and!; [done.. |].
    assert (reachable w1) as Hr1.
    { by apply (reachable_op w (OpDeprecateHook name deprecated)). }
    apply reachable_inv in Hr1 as (Hok1 & _ & _).
    exists (UClosure (length (unregs w1))),
           (registered name name' (Some d) cb false w1).
    split_and!.
    + apply hook_resolved; [done |]. by rewrite Hdeps.
    + rewrite registered_hooksOf, decide_True by done.
      by rewrite Hnew, <- app_assoc.
    + rewrite registered_hooksOf, decide_False by done. done.
  - intros user f args.
    set (w3 := registered "a" "c" (Some (to_ "c")) (UserFn f) false chain_world).
    pose proof (reachable_inv _ chain_world_reachable) as (Hokc & _ & _).
    assert (∀ n, hooksOf w3 n =
              if decide (n = "c") then [UserFn f] else []) as Hh.
    { intros n. unfold w3. rewrite registered_hooksOf by done.
      assert (hooksOf chain_world n = []) as ->; [| done].
      apply hooksOf_no_array. intros l.
      change (_hooks (this chain_world))
        with (<["b" := None]> (<["a" := None]> (∅ : gmap string (option nat)))).
      intros [[_ ?] | [_ [[_ ?] | [_ ?]]%lookup_insert_Some]]%lookup_insert_Some;
        done. }
    eexists _, chain_world, (UClosure 0), w3.
    split_and!; [reflexivity | reflexivity | reflexivity | | | | |].
    + by rewrite (hook_resolved "a" (UserFn f) false chain_world "c"
                    (Some (to_ "c"))).
    + by rewrite Hh.
    + by rewrite Hh.
    + by rewrite Hh.
    + intros w4 o Hu.
      destruct (registered_rest "a" "c" (Some (to_ "c")) (UserFn f) false
                  chain_world) as (_ & _ & _ & Hb & Ha).
      rewrite callHook_plain by (by rewrite ?Hb, ?Ha).
      rewrite hooks_arg_stored by (by rewrite Hh).
      rewrite Hh. by apply run_serial_single.
Qed.

Lemma deprecation_chain_forwarding_witness :
  (∃ w1,
     deprecateHook "a" (inl "b") one_hook_world = Some w1 ∧
     hooksOf w1 "b" = hooksOf one_hook_world "b" ++ hooksOf one_hook_world "a" ∧
     hooksOf w1 "a" = [] ∧
     _hooks (this w1) !! "a" = Some None ∧
     (∀ n, n ≠ "a" → n ≠ "b" → hooksOf w1 n = hooksOf one_hook_world n) ∧
     ∃ u w2,
       hook "a" (VFn (UserFn 8)) false w1 = Some (u, w2) ∧
       hooksOf w2 "b" =
         hooksOf one_hook_world "b" ++ hooksOf one_hook_world "a" ++ [UserFn 8] ∧
       hooksOf w2 "a" = []) ∧
  (∀ (user : nat → list Val → World → World * Outcome) (f : nat)
     (args : list Val),
     ∃ w1 w2 u w3,
       deprecateHook "a" (inl "b") constructor = Some w1 ∧
       deprecateHook "b" (inl "c") w1 = Some w2 ∧
       resolve (_deprecatedHooks (this w2)) "a" = Some ("c", Some (to_ "c")) ∧
       hook "a" (VFn (UserFn f)) false w2 = Some (u, w3) ∧
       hooksOf w3 "c" = [UserFn f] ∧
       hooksOf w3 "a" = [] ∧ hooksOf w3 "b" = [] ∧
       ∀ w4 o, user f args w3 = (w4, o) →
         complete (callHook user "c" args w3) =
           (w4, [{| fire_cb := UserFn f; fire_fn := Some f;
                    fire_args := args |}], o)).
Proof.
  apply (deprecation_chain_forwarding one_hook_world "a" "b" (to_ "b")
           (inl "b") (UserFn 8)).
  - apply (run_ops_reachable_plain [OpHook "a" (VFn (UserFn 7)) false]
             constructor);
      [apply reachable_plain_new | reflexivity | reflexivity].
  - reflexivity.
  - reflexivity.
  - discriminate.
  - reflexivity.
Defined.

(** ** [hookOnce] *)

(** The wrapper removes itself before it forwards the call: a second
    dispatch of the name finds nothing to call. *)
Example hookOnce_fires_once :
  ∃ w1 o1 w2 o2,
    complete (callHook quiet "a" [VNum 1] once_world) =
      (w1, [{| fire_cb := OnceFn 0; fire_fn := Some 7;
               fire_args := [VNum 1] |}], o1) ∧
    hooksOf w1 "a" = [] ∧
    complete (callHook quiet "a" [VNum 2] w1) = (w2, [], o2).
Proof. eexists _, _, _, _. split_and!; reflexivity. Qed.

(** C6 fails on the code: after [hookOnce("a", f7)] and
    [deprecateHook("a", "b")] the wrapper sits under ["b"], while its handle
    still removes from ["a"]; the wrapper has no guard of its own, so two
    dispatches of ["b"] run [f7] twice and leave the wrapper in place. *)
Lemma hookOnce_fires_twice :
  let first := complete (callHook quiet "b" [VNum 1] once_deprecated_world) in
  let second := complete (callHook quiet "b" [VNum 2] first.1.1) in
  hooksOf once_deprecated_world "b" = [OnceFn 0] ∧
  first.1.2 = [{| fire_cb := OnceFn 0; fire_fn := Some 7;
                  fire_args := [VNum 1] |}] ∧
  second.1.2 = [{| fire_cb := OnceFn 0; fire_fn := Some 7;
                   fire_args := [VNum 2] |}] ∧
  hooksOf second.1.1 "b" = [OnceFn 0].
Proof. vm_compute. split_and!; reflexivity. Qed.

(** Two serial dispatches started before the callbacks of the first have
    run both hold the wrapper, and each runs [f7]. *)
Example hookOnce_overlapping_dispatches :
  let started1 := callHook quiet "a" [VNum 1] once_world in
  let started2 := callHook quiet "a" [VNum 2] started1.1.1 in
  let settled1 :=
    match started1.2 with
    | RPromise p => settle p started2.1.1
    | _ => (started2.1.1, [], Throws VUndef)
    end in
  let settled2 :=
    match started2.2 with
    | RPromise p => settle p settled1.1.1
    | _ => (settled1.1.1, [], Throws VUndef)
    end in
  settled1.1.2 = [{| fire_cb := OnceFn 0; fire_fn := Some 7;
                     fire_args := [VNum 1] |}] ∧
  settled2.1.2 = [{| fire_cb := OnceFn 0; fire_fn := Some 7;
                     fire_args := [VNum 2] |}] ∧
  hooksOf settled2.1.1 "a" = [].
Proof. vm_compute. split_and!; reflexivity. Qed.

(** * Further properties of the code *)

(** ** Operations on plain names keep every name plain *)

Lemma plain_world_same w w' :
  _hooks (this w') = _hooks (this w) →
  _deprecatedHooks (this w') = _deprecatedHooks (this w) →
  unregs w' = unregs w → plain_world w → plain_world w'.
Proof. intros H1 H2 H3 H. unfold plain_world. by rewrite H1, H2, H3. Qed.

Lemma push_hook_keys name fn w k :
  is_Some (_hooks (this (push_hook name fn w)) !! k) →
  k = name ∨ is_Some (_hooks (this w) !! k).
Proof.
  unfold push_hook, ensure_array.
  destruct (_hooks (this w) !! name) as [[l |] |] eqn:E; simpl; intros H;
    [by right | |];
    (destruct (decide (k = name)) as [-> |];
       [by left | right; by rewrite lookup_insert_ne in H]).
Qed.

Lemma registered_plain name name' dep fn allow w :
  plain name' → plain_world w →
  plain_world (registered name name' dep fn allow w).
Proof.
  intros Hp (Hk & Ht & Hu). split_and!.
  - intros k Hs. unfold registered in Hs. simpl in Hs.
    apply push_hook_keys in Hs as [-> | Hs]; [done |]. apply Hk.
    by rewrite (proj1 (deprecation_warning_table name dep allow w)) in Hs.
  - by rewrite (registered_deps name name' dep fn allow w).
  - intros i e. rewrite registered_unregs.
    intros [H | [_ H]]%lookup_app_Some; [by eapply Hu |].
    apply list_lookup_singleton_Some in H as [_ <-]. done.
Qed.

Lemma hook_plain name v allow w u w' :
  plain name → plain_world w → hook name v allow w = Some (u, w') →
  plain_world w'.
Proof.
  intros Hp Hw H. destruct (decide (name = "")) as [-> |].
  { unfold hook in H. destruct v; simplify_eq; try done.
    case_decide; by simplify_eq. }
  destruct v; try (unfold hook in H; by simplify_eq).
  apply hook_inv in H as (name' & dep & Hres & _ & ->); [| done].
  apply registered_plain; [| done].
  destruct Hw as (_ & Ht & _). by eapply resolve_loop_plain.
Qed.

Lemma removeHook_plain name fn w :
  plain_world w → plain_world (removeHook name fn w).
Proof.
  intros (Hk & Ht & Hu). split_and!.
  - intros k Hs. apply Hk. revert Hs. unfold removeHook.
    destruct (_hooks (this w) !! name) as [[l |] |]; [| done..].
    destruct (arrays w !! l); [| done]. case_decide; [| done]. simpl.
    intros [x [_ Hx]%lookup_delete_Some]. by eexists.
  - by rewrite (removeHook_deps name fn w).
  - by rewrite removeHook_unregs.
Qed.

Lemma unregister_plain u w : plain_world w → plain_world (unregister u w).
Proof.
  intros Hw. unfold unregister. destruct u as [| i]; [done |].
  destruct (unregs w !! i) as [[name [fn |]] |] eqn:E; [| done..].
  destruct (removeHook_plain name fn w Hw) as (Hk & Ht & Hu).
  split_and!; [done | done |]. simpl. intros j e Hj.
  apply list_lookup_insert_Some in Hj as [(-> & <- & _) | [_ Hj]]; [| by eapply Hu].
  destruct Hw as (_ & _ & Hu0). apply (Hu0 _ _ E).
Qed.

Lemma foldl_option_inv_Forall {A B} (P : B → Prop) (Q : A → Prop)
    (f : B → A → option B) (l : list A) (b0 b' : B) :
  (∀ b a b', Q a → P b → f b a = Some b' → P b') → Forall Q l → P b0 →
  foldl (λ acc a, b ← acc; f b a) (Some b0) l = Some b' → P b'.
Proof.
  intros Hstep HQ. revert b0. induction HQ as [| a l Ha _ IH]; intros b0 H0 H;
    simpl in H.
  - by simplify_eq.
  - destruct (f b0 a) as [b1 |] eqn:E; simpl in H.
    + eapply IH; [| done]. eauto.
    + by rewrite foldl_option_None in H.
Qed.

Lemma deprecateHook_plain name deprecated w w' :
  plain name → plain (to (deprecation_entry deprecated)) → plain_world w →
  deprecateHook name deprecated w = Some w' → plain_world w'.
Proof.
  intros Hp Hto (Hk & Ht & Hu). unfold deprecateHook. intros H.
  apply (foldl_option_inv plain_world) in H; [done | |].
  - intros b fn b' Hb Hh.
    destruct (hook name (VFn fn) false b) as [[u b1] |] eqn:E; simplify_eq/=.
    by apply (hook_plain name (VFn fn) false b u b').
  - split_and!; [| | done]; simpl.
    + intros k [x [[<- _] | [_ Hx]]%lookup_insert_Some]; [done |].
      apply Hk. by eexists.
    + intros k d [[<- <-] | [_ Hd]]%lookup_insert_Some; [done |].
      by eapply Ht.
Qed.

Lemma assigned_plain l (m : gmap string DeprecatedHook) :
  Forall (λ kv, plain kv.1 ∧ plain (to kv.2)) l → plain_table m →
  plain_table (assigned l m).
Proof.
  intros Hl. revert m. induction Hl as [| [k d] r [Hk Hd] _ IH]; intros m Hm;
    [done |].
  unfold assigned. simpl. apply IH.
  intros k' d' [[<- <-] | [_ H]]%lookup_insert_Some; [done |]. by eapply Hm.
Qed.

Lemma deprecateHooks_plain deprecatedHooks w w' :
  Forall (λ kv, plain kv.1 ∧ plain (to kv.2)) deprecatedHooks →
  plain_world w → deprecateHooks deprecatedHooks w = Some w' → plain_world w'.
Proof.
  intros Hl (Hk & Ht & Hu). unfold deprecateHooks. intros H.
  apply (foldl_option_inv_Forall plain_world
           (λ kv, plain kv.1 ∧ plain (to kv.2))) in H; [done | | done |].
  - intros b kv b' [? ?] Hb Hh.
    by apply (deprecateHook_plain kv.1 (inr kv.2) b b').
  - split_and!; [done | | done]. simpl. by apply (assigned_plain _ _ Hl).
Qed.

Lemma hook_all_plain hooks w us w' :
  Forall (λ kv, plain kv.1) hooks → plain_world w →
  hook_all hooks w = Some (us, w') → plain_world w'.
Proof.
  intros Hl. revert w us. induction Hl as [| [key fn] r Hkey _ IH];
    intros w us Hw H; simpl in H; [by simplify_eq |].
  destruct (hook key (VFn fn) false w) as [[u w1] |] eqn:E; simplify_eq/=.
  destruct (hook_all r w1) as [[us' w2] |] eqn:E'; simplify_eq/=.
  eapply IH; [| done]. by eapply hook_plain.
Qed.

Lemma forallb_plain {A} (f : A → bool) (Q : A → Prop) (l : list A) :
  (∀ x, f x = true → Q x) → forallb f l = true → Forall Q l.
Proof.
  intros Hf. induction l as [| x l IH]; simpl; [done |].
  intros [? ?]%andb_true_iff. constructor; eauto.
Qed.

Lemma negb_inherited name : negb (inherited name) = true → plain name.
Proof. by intros ?%negb_true_iff. Qed.

Lemma run_op_plain o w w' :
  plain_op o = true → plain_world w → run_op o w = Some w' → plain_world w'.
Proof.
  intros Ho Hw H. destruct o; simpl in H, Ho.
  - destruct (hook _ _ _ _) as [[u w1] |] eqn:E; simplify_eq/=.
    eapply hook_plain; [by apply negb_inherited | done..].
  - unfold hookOnce in H.
    destruct (hook name _ false _) as [[u w1] |] eqn:E; simplify_eq/=.
    eapply hook_plain in E; [| by apply negb_inherited |].
    + by apply (plain_world_same w1).
    + by apply (plain_world_same w).
  - simplify_eq. by apply removeHook_plain.
  - apply andb_true_iff in Ho as [? ?].
    apply (deprecateHook_plain name deprecated w w');
      [by apply negb_inherited.. | done | done].
  - eapply deprecateHooks_plain; [| done..].
    eapply forallb_plain; [| done]. intros kv [? ?]%andb_true_iff.
    split; by apply negb_inherited.
  - unfold addHooks in H.
    destruct (hook_all _ w) as [[us w1] |] eqn:E; simplify_eq/=.
    apply (plain_world_same w1); [done.. |].
    eapply hook_all_plain; [| done..].
    eapply forallb_plain; [| done]. intros kv. apply negb_inherited.
  - simplify_eq. unfold removeHooks.
    apply (foldl_inv plain_world); [| done].
    intros b kv Hb. by apply removeHook_plain.
  - simplify_eq. by apply unregister_plain.
  - simplify_eq. unfold removeAll.
    apply (foldl_inv plain_world); [| by apply (plain_world_same w)].
    intros b u Hb. by apply unregister_plain.
  - simplify_eq. destruct (onces w !! c) as [env |]; [| done].
    unfold once_prologue. destruct (_unreg env) as [u |].
    + apply (plain_world_same (unregister u w)); [done.. |].
      by apply unregister_plain.
    + by apply (plain_world_same w).
  - simplify_eq. by apply (plain_world_same w).
  - simplify_eq. by apply (plain_world_same w).
  - simplify_eq. by apply (plain_world_same w).
  - simplify_eq. by apply (plain_world_same w).
  - simplify_eq. unfold new_event.
    destruct (_before (this w)), (_after (this w)); simpl;
      by apply (plain_world_same w).
  - simplify_eq. unfold hooks_arg.
    destruct (_hooks (this w) !! name) as [[l |] |]; simpl;
      by apply (plain_world_same w).
Qed.

(** In a world reached by operations on plain names every key of the two
    tables, every target of a deprecation and every name captured by a
    handle is plain: lookups never reach [Object.prototype]. *)
Lemma reachable_plain_world w : reachable_plain w → plain_world w.
Proof.
  induction 1 as [| w o w' _ IH Ho Hop].
  - split_and!.
    + intros k [x Hx]. simpl in Hx. by rewrite lookup_empty in Hx.
    + intros k d Hd. simpl in Hd. by rewrite lookup_empty in Hd.
    + intros i e He. simpl in He. by rewrite lookup_nil in He.
  - by eapply run_op_plain.
Qed.

Lemma reachable_plain_table w :
  reachable_plain w → plain_table (_deprecatedHooks (this w)).
Proof. intros Hr. by destruct (reachable_plain_world w Hr) as (_ & ? & _). Qed.

(** ** [removeHook] *)

Lemma splice_first_absent a fn : fn ∉ a → splice_first a fn = a.
Proof.
  unfold splice_first. induction a as [| x a IH]; intros Hnin; simpl; [done |].
  apply not_elem_of_cons in Hnin as [Hne Hnin].
  rewrite decide_False by done. specialize (IH Hnin).
  destruct (indexOf a fn); simpl in *; by f_equal.
Qed.

(** [indexOf] and [splice] take out the first occurrence. *)
Lemma splice_first_split a fn :
  fn ∈ a →
  ∃ l1 l2, a = l1 ++ fn :: l2 ∧ (fn ∉ l1) ∧ splice_first a fn = l1 ++ l2.
Proof.
  unfold splice_first. induction a as [| x a IH]; intros Hin; simpl.
  - by apply elem_of_nil in Hin.
  - destruct (decide (x = fn)) as [-> | Hne].
    + exists [], a. split_and!; [done | apply not_elem_of_nil | done].
    + apply elem_of_cons in Hin as [-> | Hin]; [done |].
      destruct (IH Hin) as (l1 & l2 & -> & Hnin & Hs).
      exists (x :: l1), l2. split_and!; [done | |].
      * apply not_elem_of_cons. by split.
      * destruct (indexOf (l1 ++ fn :: l2) fn) as [i |]; simpl in *;
          by rewrite Hs.
Qed.

Lemma set_arrays_id w (f : list (list HookCallback) → list (list HookCallback)) :
  f (arrays w) = arrays w → set_arrays f w = w.
Proof. destruct w. unfold set_arrays. simpl. by intros ->. Qed.

(** The key of [name] after [removeHook(name, fn)]. *)
Lemma removeHook_slot w name fn :
  hooks_ok w →
  _hooks (this (removeHook name fn w)) !! name =
    if decide (splice_first (hooksOf w name) fn = [])
    then (if decide (hooksOf w name = []) then _hooks (this w) !! name else None)
    else _hooks (this w) !! name.
Proof.
  intros [Hex _]. unfold removeHook.
  destruct (_hooks (this w) !! name) as [[l |] |] eqn:E.
  - destruct (Hex _ _ E) as (a & Ha & Hne). rewrite Ha.
    rewrite (hooksOf_slot _ _ _ _ E Ha).
    rewrite (decide_False (P := a = [])) by done.
    destruct (decide (splice_first a fn = [])) as [Hnil | Hnn].
    + rewrite decide_True by (by rewrite Hnil). simpl.
      by rewrite lookup_delete_eq.
    + rewrite decide_False; [done |]. intros Hl. by apply length_zero_nil in Hl.
  - rewrite (hooksOf_no_array w name) by (intros l; by rewrite E).
    by rewrite !decide_True.
  - rewrite (hooksOf_no_array w name) by (intros l; by rewrite E).
    by rewrite !decide_True.
Qed.

Lemma removeHook_unregistered w name fn :
  hooks_ok w → fn ∉ hooksOf w name → removeHook name fn w = w.
Proof.
  intros [Hex _] Hnin. unfold removeHook.
  destruct (_hooks (this w) !! name) as [[l |] |] eqn:E; [| done..].
  destruct (Hex _ _ E) as (a & Ha & Hne). rewrite Ha.
  rewrite (hooksOf_slot _ _ _ _ E Ha) in Hnin.
  rewrite splice_first_absent by done.
  rewrite decide_False by (by destruct a).
  apply set_arrays_id. by apply list_insert_id.
Qed.

(** X1: removing, under a plain name, a callback that is not registered
    under the name changes nothing at all in a world reached by operations
    on plain names; in particular the key of the name is never deleted by
    such a call. *)
Theorem removeHook_absent (w : World) (name : string) (fn : HookCallback) :
  reachable_plain w → plain name → fn ∉ hooksOf w name →
  removeHook name fn w = w.
Proof.
  intros (Hok & _ & _)%reachable_plain_inv _ Hnin.
  by apply removeHook_unregistered.
Qed.

Lemma removeHook_absent_witness :
  removeHook "x" (UserFn 9) mixed_world = mixed_world.
Proof.
  apply (removeHook_absent mixed_world "x" (UserFn 9)).
  - apply (run_ops_reachable_plain
             [OpHook "x" (VFn (UserFn 0)) false;
              OpHook "x" (VFn (UserFn 1)) false;
              OpDeprecateHook "old" (inl "new")] constructor);
      [apply reachable_plain_new | reflexivity | reflexivity].
  - reflexivity.
  - vm_compute. intros Hin. inversion Hin as [| ? ? ? Hin']; subst.
    inversion Hin' as [| ? ? ? Hin'']; subst. inversion Hin''.
Defined.

(** X2: removing a callback that is registered under the name takes out its
    first occurrence and nothing else, leaves the other names alone, and
    deletes the key exactly when the callback was the last one. *)
Theorem removeHook_present (w : World) (name : string) (fn : HookCallback) :
  reachable w → fn ∈ hooksOf w name →
  ∃ l1 l2,
    hooksOf w name = l1 ++ fn :: l2 ∧ (fn ∉ l1) ∧
    hooksOf (removeHook name fn w) name = l1 ++ l2 ∧
    (∀ n, n ≠ name → hooksOf (removeHook name fn w) n = hooksOf w n) ∧
    _hooks (this (removeHook name fn w)) !! name =
      (if decide (l1 ++ l2 = []) then None else _hooks (this w) !! name) ∧
    reachable (removeHook name fn w).
Proof.
  intros Hr Hin. pose proof (reachable_inv _ Hr) as (Hok & _ & _).
  destruct (splice_first_split _ _ Hin) as (l1 & l2 & Heq & Hnin & Hs).
  exists l1, l2. split_and!; [done | done | | | |].
  - by rewrite removeHook_hooksOf, decide_True.
  - intros n Hn. by rewrite removeHook_hooksOf, decide_False.
  - rewrite removeHook_slot by done. rewrite Hs.
    destruct (decide (l1 ++ l2 = [])); [| done].
    rewrite decide_False; [done |]. rewrite Heq. by destruct l1.
  - by apply (reachable_op w (OpRemoveHook name fn)).
Qed.

Lemma removeHook_present_witness :
  ∃ l1 l2,
    hooksOf mixed_world "x" = l1 ++ UserFn 1 :: l2 ∧ (UserFn 1 ∉ l1) ∧
    hooksOf (removeHook "x" (UserFn 1) mixed_world) "x" = l1 ++ l2 ∧
    (∀ n, n ≠ "x" →
       hooksOf (removeHook "x" (UserFn 1) mixed_world) n = hooksOf mixed_world n) ∧
    _hooks (this (removeHook "x" (UserFn 1) mixed_world)) !! "x" =
      (if decide (l1 ++ l2 = []) then None
       else _hooks (this mixed_world) !! "x") ∧
    reachable (removeHook "x" (UserFn 1) mixed_world).
Proof.
  apply (removeHook_present mixed_world "x" (UserFn 1)).
  - apply (run_ops_reachable
             [OpHook "x" (VFn (UserFn 0)) false;
              OpHook "x" (VFn (UserFn 1)) false;
              OpDeprecateHook "old" (inl "new")] constructor);
      [apply reachable_new | reflexivity].
  - vm_compute. apply list_elem_of_further, list_elem_of_here.
Defined.

(** ** Deprecated names *)

Lemma removeHook_slot_keep name fn w n :
  _hooks (this w) !! n = Some None →
  _hooks (this (removeHook name fn w)) !! n = Some None.
Proof.
  intros Hn. unfold removeHook.
  destruct (_hooks (this w) !! name) as [[l |] |] eqn:E; [| done..].
  destruct (arrays w !! l); [| done]. case_decide as Hlen; simpl; [| done].
  rewrite lookup_delete_ne; [done |]. intros <-. by rewrite E in Hn.
Qed.

Lemma deprecated_undefined_weaken (S1 S2 : string → Prop) w :
  (∀ n, S1 n → S2 n) → deprecated_undefined S1 w → deprecated_undefined S2 w.
Proof. intros Hsub Hd n Hn HS. apply Hd; [done |]. intros H1. by apply HS, Hsub. Qed.

Lemma deprecated_undefined_same S w w' :
  _hooks (this w') = _hooks (this w) → same_deps w w' →
  deprecated_undefined S w → deprecated_undefined S w'.
Proof. unfold deprecated_undefined, same_deps. by intros -> ->. Qed.

Lemma hook_deprecated_undefined S name v allow w u w' :
  hook name v allow w = Some (u, w') →
  deprecated_undefined S w → deprecated_undefined S w'.
Proof.
  intros H Hd. destruct (decide (name = "")) as [-> |].
  { unfold hook in H. destruct v; simplify_eq; try done.
    case_decide; by simplify_eq. }
  destruct v; try (unfold hook in H; by simplify_eq).
  apply hook_inv in H as (name' & dep & Hres & _ & ->); [| done].
  apply resolve_loop_end in Hres.
  intros m Hm HS. rewrite (registered_deps name name' dep fn allow w) in Hm.
  rewrite registered_slot_other; [by apply Hd |].
  intros ->. rewrite Hres in Hm. by destruct Hm.
Qed.

Lemma removeHook_deprecated_undefined S name fn w :
  deprecated_undefined S w → deprecated_undefined S (removeHook name fn w).
Proof.
  intros Hd m Hm HS. rewrite (removeHook_deps name fn w) in Hm.
  apply removeHook_slot_keep. by apply Hd.
Qed.

Lemma unregister_deprecated_undefined S u w :
  deprecated_undefined S w → deprecated_undefined S (unregister u w).
Proof.
  intros Hd. unfold unregister. destruct u as [| i]; [done |].
  destruct (unregs w !! i) as [[name [fn |]] |]; [| done..].
  apply (deprecated_undefined_same S (removeHook name fn w)); [done.. |].
  by apply removeHook_deprecated_undefined.
Qed.

Lemma deprecateHook_deprecated_undefined S name deprecated w w' :
  deprecateHook name deprecated w = Some w' →
  deprecated_undefined S w →
  deprecated_undefined (λ n, S n ∧ n ≠ name) w'.
Proof.
  unfold deprecateHook. intros H Hd.
  eapply (foldl_option_inv (deprecated_undefined (λ n, S n ∧ n ≠ name))) in H;
    [done | |].
  - intros b fn b' Hb Hh.
    destruct (hook name (VFn fn) false b) as [[u b1] |] eqn:E; simplify_eq/=.
    by eapply hook_deprecated_undefined.
  - intros m. simpl. intros Hm HS. destruct (decide (m = name)) as [-> |].
    + by rewrite lookup_insert_eq.
    + rewrite lookup_insert_ne in Hm by done. rewrite lookup_insert_ne by done.
      apply Hd; [done |]. intros HSm. by apply HS.
Qed.

Lemma deprecateHook_loop_deprecated_undefined S
    (l : list (string * DeprecatedHook)) w w' :
  foldl (λ acc kv, b ← acc; deprecateHook kv.1 (inr kv.2) b) (Some w) l
    = Some w' →
  deprecated_undefined (λ n, S n ∨ n ∈ l.*1) w → deprecated_undefined S w'.
Proof.
  revert w. induction l as [| kv r IH]; intros w H Hd; simpl in H.
  - simplify_eq. eapply deprecated_undefined_weaken; [| done].
    intros n [Hn | Hin]; [done | by apply elem_of_nil in Hin].
  - destruct (deprecateHook kv.1 (inr kv.2) w) as [w1 |] eqn:E; simpl in H;
      [| by rewrite foldl_option_None in H].
    apply (IH w1 H).
    apply (deprecateHook_deprecated_undefined _ _ _ _ _ E) in Hd.
    intros m Hm HS. apply Hd; [done |].
    intros [[HSm | Hin] Hne]; apply HS; [by left |].
    simpl in Hin. apply elem_of_cons in Hin as [-> | Hin]; [done | by right].
Qed.

Lemma deprecateHooks_deprecated_undefined S deprecatedHooks w w' :
  deprecateHooks deprecatedHooks w = Some w' →
  deprecated_undefined S w → deprecated_undefined S w'.
Proof.
  unfold deprecateHooks. intros H Hd.
  apply (deprecateHook_loop_deprecated_undefined S) in H; [done |].
  intros m. simpl. intros Hm HS. apply Hd; [| intros HSm; apply HS; by left].
  assert (∀ (l : list (string * DeprecatedHook)) (d : gmap string DeprecatedHook),
            is_Some (foldl (λ d kv, <[kv.1 := kv.2]> d) d l !! m) →
            m ∈ l.*1 ∨ is_Some (d !! m)) as Hins.
  { induction l as [| kv r IHr]; intros d Hd'; simpl in *; [by right |].
    destruct (IHr _ Hd') as [Hin | Hs]; [left; by apply elem_of_cons; right |].
    destruct (decide (kv.1 = m)) as [<- | Hne].
    - left. apply elem_of_cons. by left.
    - right. by rewrite lookup_insert_ne in Hs. }
  destruct (Hins _ _ Hm) as [Hin | Hs]; [| done].
  destruct HS. by right.
Qed.

Lemma hook_all_deprecated_undefined S hooks w us w' :
  hook_all hooks w = Some (us, w') →
  deprecated_undefined S w → deprecated_undefined S w'.
Proof.
  revert w us. induction hooks as [| [key fn] r IH]; intros w us H Hd;
    simpl in H; [by simplify_eq |].
  destruct (hook key (VFn fn) false w) as [[u w1] |] eqn:E; simplify_eq/=.
  destruct (hook_all r w1) as [[us' w2] |] eqn:E'; simplify_eq/=.
  eapply IH; [done |]. by eapply hook_deprecated_undefined.
Qed.

Lemma run_op_deprecated_undefined S o w w' :
  run_op o w = Some w' → deprecated_undefined S w → deprecated_undefined S w'.
Proof.
  intros H Hd. destruct o; simpl in H.
  - destruct (hook _ _ _ _) as [[u w1] |] eqn:E; simplify_eq/=.
    by eapply hook_deprecated_undefined.
  - unfold hookOnce in H.
    destruct (hook name _ false _) as [[u w1] |] eqn:E; simplify_eq/=.
    apply (deprecated_undefined_same S w1); [done.. |].
    eapply hook_deprecated_undefined; [done |].
    by apply (deprecated_undefined_same S w).
  - simplify_eq. by apply removeHook_deprecated_undefined.
  - eapply deprecated_undefined_weaken;
      [| by eapply deprecateHook_deprecated_undefined]. by intros n [? _].
  - by eapply deprecateHooks_deprecated_undefined.
  - unfold addHooks in H.
    destruct (hook_all _ w) as [[us w1] |] eqn:E; simplify_eq/=.
    apply (deprecated_undefined_same S w1); [done.. |].
    by eapply hook_all_deprecated_undefined.
  - simplify_eq. unfold removeHooks. apply foldl_inv; [| done].
    intros b kv. apply removeHook_deprecated_undefined.
  - simplify_eq. by apply unregister_deprecated_undefined.
  - simplify_eq. unfold removeAll. apply foldl_inv.
    + intros b u. apply unregister_deprecated_undefined.
    + by apply (deprecated_undefined_same S w).
  - simplify_eq. destruct (onces w !! c) as [env |]; [| done].
    unfold once_prologue. destruct (_unreg env) as [u |].
    + apply (deprecated_undefined_same S (unregister u w)); [done.. |].
      by apply unregister_deprecated_undefined.
    + by apply (deprecated_undefined_same S w).
  - simplify_eq. by apply (deprecated_undefined_same S w).
  - simplify_eq. by apply (deprecated_undefined_same S w).
  - simplify_eq. by apply (deprecated_undefined_same S w).
  - simplify_eq. by apply (deprecated_undefined_same S w).
  - simplify_eq. unfold new_event.
    destruct (_before (this w)), (_after (this w)); simpl;
      (done || by apply (deprecated_undefined_same S w)).
  - simplify_eq. unfold hooks_arg.
    destruct (_hooks (this w) !! name) as [[l |] |]; simpl;
      (done || by apply (deprecated_undefined_same S w)).
Qed.

Lemma reachable_deprecated_undefined w :
  reachable w → deprecated_undefined (λ _, False) w.
Proof.
  induction 1 as [| w o w' _ IH Hop].
  - intros n Hn. simpl in Hn. rewrite lookup_empty in Hn. by destruct Hn.
  - by eapply run_op_deprecated_undefined.
Qed.

Lemma deprecated_hooksOf_nil w name :
  reachable w → is_Some (_deprecatedHooks (this w) !! name) →
  hooksOf w name = [].
Proof.
  intros Hr Hn. apply hooksOf_no_array. intros l.
  rewrite (reachable_deprecated_undefined _ Hr name Hn); [done | tauto].
Qed.

(** X3: in every world reached by operations on plain names, a plain name
    is deprecated exactly when its key holds [undefined]: nothing is stored
    under a deprecated name, and a dispatch of such a name hands its caller
    a new empty array that the table does not hold. *)
Theorem deprecated_names_hold_nothing (w : World) (name : string) :
  reachable_plain w → plain name →
  (is_Some (_deprecatedHooks (this w) !! name) ↔
     _hooks (this w) !! name = Some None) ∧
  (is_Some (_deprecatedHooks (this w) !! name) →
     hooksOf w name = [] ∧
     ∀ l w', hooks_arg name w = (l, w') →
       arrays w' !! l = Some [] ∧
       _hooks (this w') = _hooks (this w) ∧
       ∀ n, _hooks (this w') !! n ≠ Some (Some l)).
Proof.
  intros Hr%reachable_plain_reachable _.
  pose proof (reachable_inv _ Hr) as ([Hex _] & _ & Hs).
  pose proof (reachable_deprecated_undefined _ Hr) as Hd.
  assert (is_Some (_deprecatedHooks (this w) !! name) →
          _hooks (this w) !! name = Some None) as Hslot.
  { intros Hn. apply Hd; [done | tauto]. }
  split; [split; [done | apply Hs] |].
  intros Hn. specialize (Hslot Hn). split.
  - apply hooksOf_no_array. intros l. by rewrite Hslot.
  - intros l w'. unfold hooks_arg. rewrite Hslot. intros ?; simplify_eq. simpl.
    split_and!; [by rewrite lookup_app_r, Nat.sub_diag by lia | done |].
    intros n E. destruct (Hex _ _ E) as (a & Ha%lookup_lt_Some & _). lia.
Qed.

Lemma deprecated_names_hold_nothing_witness :
  (is_Some (_deprecatedHooks (this mixed_world) !! "old") ↔
     _hooks (this mixed_world) !! "old" = Some None) ∧
  (is_Some (_deprecatedHooks (this mixed_world) !! "old") →
     hooksOf mixed_world "old" = [] ∧
     ∀ l w', hooks_arg "old" mixed_world = (l, w') →
       arrays w' !! l = Some [] ∧
       _hooks (this w') = _hooks (this mixed_world) ∧
       ∀ n, _hooks (this w') !! n ≠ Some (Some l)).
Proof.
  apply (deprecated_names_hold_nothing mixed_world "old").
  - apply (run_ops_reachable_plain
             [OpHook "x" (VFn (UserFn 0)) false;
              OpHook "x" (VFn (UserFn 1)) false;
              OpDeprecateHook "old" (inl "new")] constructor);
      [apply reachable_plain_new | reflexivity | reflexivity].
  - reflexivity.
Defined.

(** X4, for a plain [name] in a world reached by operations on plain
    names: [removeHook] takes the name as it is given and follows no
    deprecation: after [hook(name, fn)] went through a deprecated [name] to
    [name'], [removeHook(name, fn)] changes nothing and [fn] stays
    registered, while [removeHook(name', fn)] removes it. *)
Theorem removeHook_ignores_deprecation (w : World) (name name' : string)
    (d : DeprecatedHook) (fn : HookCallback) (allow : bool) :
  reachable_plain w → plain name → name ≠ "" →
  resolve (_deprecatedHooks (this w)) name = Some (name', Some d) →
  ∃ u w1,
    hook name (VFn fn) allow w = Some (u, w1) ∧
    plain name' ∧
    hooksOf w1 name' = hooksOf w name' ++ [fn] ∧
    removeHook name fn w1 = w1 ∧
    hooksOf (removeHook name' fn w1) name' =
      splice_first (hooksOf w name' ++ [fn]) fn.
Proof.
  intros Hrp Hpn Hne Hres.
  assert (plain name') as Hpn'.
  { eapply resolve_loop_plain; [by apply reachable_plain_table | done..]. }
  apply reachable_plain_reachable in Hrp as Hr.
  pose proof (reachable_inv _ Hr) as (Hok & _ & _).
  pose proof (hook_resolved name fn allow w name' (Some d) Hne Hres) as Hh.
  exists (UClosure (length (unregs w))),
         (registered name name' (Some d) fn allow w).
  assert (reachable (registered name name' (Some d) fn allow w)) as Hr1.
  { apply (reachable_op w (OpHook name (VFn fn) allow)); [done |].
    simpl. by rewrite Hh. }
  pose proof (reachable_inv _ Hr1) as (Hok1 & _ & _).
  assert (hooksOf (registered name name' (Some d) fn allow w) name' =
            hooksOf w name' ++ [fn]) as Hnew.
  { by rewrite registered_hooksOf, decide_True. }
  split_and!; [done | done | done | |].
  - apply removeHook_unregistered; [done |].
    rewrite (deprecated_hooksOf_nil _ name Hr1); [apply not_elem_of_nil |].
    rewrite (registered_deps name name' (Some d) fn allow w).
    by apply resolve_hop in Hres as [_ ?].
  - by rewrite removeHook_hooksOf, decide_True, Hnew.
Qed.

Lemma removeHook_ignores_deprecation_witness :
  ∃ u w1,
    hook "old" (VFn (UserFn 2)) true renamed_world = Some (u, w1) ∧
    plain "new" ∧
    hooksOf w1 "new" = hooksOf renamed_world "new" ++ [UserFn 2] ∧
    removeHook "old" (UserFn 2) w1 = w1 ∧
    hooksOf (removeHook "new" (UserFn 2) w1) "new" =
      splice_first (hooksOf renamed_world "new" ++ [UserFn 2]) (UserFn 2).
Proof.
  apply (removeHook_ignores_deprecation renamed_world "old" "new" (to_ "new")
           (UserFn 2) true).
  - apply (run_ops_reachable_plain
             [OpHook "x" (VFn (UserFn 0)) false;
              OpDeprecateHook "old" (inl "new");
              OpHook "new" (VFn (UserFn 1)) false] constructor);
      [apply reachable_plain_new | reflexivity | reflexivity].
  - reflexivity.
  - discriminate.
  - reflexivity.
Defined.

(** ** When registration and deprecation return *)

Lemma resolve_no_cycle deps name r :
  resolve deps name = Some r → no_cycle_from deps name.
Proof.
  intros H c Hc Hcyc. unfold resolve in H.
  by rewrite (resolve_loop_cycle deps _ name c None) in H.
Qed.

Lemma no_cycle_resolve deps name :
  no_cycle_from deps name →
  ∃ name' dep, resolve deps name = Some (name', dep) ∧ deps !! name' = None.
Proof.
  intros Hnc.
  destruct (resolve_loop_visits deps (size deps) (dom deps) name None)
    as (name' & dep & Hres & Hnone & _); [done | done | by rewrite size_dom |].
  by exists name', dep.
Qed.

(** X5: for a usable plain name, a function and a deprecation table whose
    keys and targets are plain, [hook] returns exactly when no cycle of
    deprecations can be reached from the name; when one can, the loop of
    lines 39-42 does not end, whatever the number of iterations. *)
Theorem hook_returns_iff (w : World) (name : string) (fn : HookCallback)
    (allow : bool) :
  plain_table (_deprecatedHooks (this w)) → plain name → name ≠ "" →
  (is_Some (hook name (VFn fn) allow w) ↔
     no_cycle_from (_deprecatedHooks (this w)) name) ∧
  (∀ c, rtc (alias (_deprecatedHooks (this w))) name c →
        tc (alias (_deprecatedHooks (this w))) c c →
        hook name (VFn fn) allow w = None ∧
        ∀ fuel, resolve_loop fuel (_deprecatedHooks (this w)) name None = None).
Proof.
  intros _ _ Hne.
  assert (is_Some (hook name (VFn fn) allow w) ↔
            no_cycle_from (_deprecatedHooks (this w)) name) as Hiff.
  { split.
    - intros [[u w'] H].
      apply hook_inv in H as (name' & dep & Hres & _); [| done].
      by eapply resolve_no_cycle.
    - intros (name' & dep & Hres & _)%no_cycle_resolve.
      rewrite (hook_resolved name fn allow w name' dep) by done. by eexists. }
  split; [done |]. intros c Hc Hcyc. split.
  - destruct (hook name (VFn fn) allow w) as [r |] eqn:E; [| done].
    exfalso. assert (is_Some (Some r)) as Hs by (by eexists).
    apply Hiff in Hs. by apply (Hs c).
  - intros fuel. by apply resolve_loop_cycle with c.
Qed.

Lemma hook_returns_iff_witness :
  (is_Some (hook "a" (VFn (UserFn 0)) false cyclic_world) ↔
     no_cycle_from (_deprecatedHooks (this cyclic_world)) "a") ∧
  (∀ c, rtc (alias (_deprecatedHooks (this cyclic_world))) "a" c →
        tc (alias (_deprecatedHooks (this cyclic_world))) c c →
        hook "a" (VFn (UserFn 0)) false cyclic_world = None ∧
        ∀ fuel,
          resolve_loop fuel (_deprecatedHooks (this cyclic_world)) "a" None
            = None).
Proof.
  apply (hook_returns_iff cyclic_world "a" (UserFn 0) false).
  - apply reachable_plain_table.
    apply (run_ops_reachable_plain
             [OpDeprecateHook "a" (inl "b"); OpDeprecateHook "b" (inl "a")]
             constructor);
      [apply reachable_plain_new | reflexivity | reflexivity].
  - reflexivity.
  - discriminate.
Defined.

(** In the world with ["a"] and ["b"] deprecated to each other, a
    registration under ["a"] does not return. *)
Example hook_cycle_never_returns :
  tc (alias (_deprecatedHooks (this cyclic_world))) "a" "a" ∧
  hook "a" (VFn (UserFn 0)) false cyclic_world = None.
Proof.
  assert (alias (_deprecatedHooks (this cyclic_world)) "a" "b") as Hab.
  { exists (to_ "b"). split; reflexivity. }
  assert (alias (_deprecatedHooks (this cyclic_world)) "b" "a") as Hba.
  { exists (to_ "a"). split; reflexivity. }
  split; [| reflexivity].
  eapply tc_l; [exact Hab | by apply tc_once].
Qed.

(** The loop of lines 101-103 returns when the name resolves. *)
Lemma migrate_returns name name' dep (l : list HookCallback) b :
  name ≠ "" →
  resolve (_deprecatedHooks (this b)) name = Some (name', dep) →
  ∃ b',
    foldl (λ acc fn, w' ← acc; snd <$> hook name (VFn fn) false w') (Some b) l
      = Some b' ∧ same_deps b b'.
Proof.
  intros Hne. revert b. induction l as [| fn l IH]; intros b Hres.
  - by exists b.
  - simpl. rewrite (hook_resolved name fn false b name' dep) by done. simpl.
    destruct (IH (registered name name' dep fn false b)) as (b' & Hf & Hd).
    { by rewrite (registered_deps name name' dep fn false b). }
    exists b'. split; [done |].
    eapply same_deps_trans; [apply registered_deps | done].
Qed.

(** X6: for plain names [name] and [target] and a deprecation table whose
    keys and targets are plain, [deprecateHook(name, target)] returns
    exactly when no callback is stored under [name] or no cycle can be
    reached from [name] in the table that includes the new entry; with
    callbacks stored and a cycle, such as a name deprecated to itself, it
    does not return. *)
Theorem deprecateHook_returns_iff (w : World) (name : string)
    (deprecated : string + DeprecatedHook) :
  plain_table (_deprecatedHooks (this w)) → plain name →
  plain (to (deprecation_entry deprecated)) → name ≠ "" →
  let deps' := <[name := deprecation_entry deprecated]>
                 (_deprecatedHooks (this w)) in
  (is_Some (deprecateHook name deprecated w) ↔
     hooksOf w name = [] ∨ no_cycle_from deps' name) ∧
  (hooksOf w name ≠ [] → to (deprecation_entry deprecated) = name →
     deprecateHook name deprecated w = None).
Proof.
  intros _ _ _ Hne deps'.
  assert (is_Some (deprecateHook name deprecated w) ↔
            hooksOf w name = [] ∨ no_cycle_from deps' name) as Hiff.
  { unfold deprecateHook. split.
    - intros [w' H]. destruct (hooksOf w name) as [| fn l]; [by left |].
      right. simpl in H.
      destruct (hook name (VFn fn) false _) as [[u b1] |] eqn:E; simpl in H;
        [| by rewrite foldl_option_None in H].
      apply hook_inv in E as (name' & dep & Hres & _); [| done].
      by apply resolve_no_cycle in Hres.
    - intros [-> | (name' & dep & Hres & _)%no_cycle_resolve]; [by eexists |].
      destruct (migrate_returns name name' dep (hooksOf w name)
                  (set_this (set_hooks (insert name None))
                     (set_this (set_deprecatedHooks
                        (insert name (deprecation_entry deprecated))) w)))
        as (b' & Hf & _); [done | done |].
      rewrite Hf. by eexists. }
  split; [done |]. intros Hhooks Hto.
  destruct (deprecateHook name deprecated w) as [r |] eqn:E; [| done].
  exfalso. assert (is_Some (Some r)) as Hs by (by eexists).
  apply Hiff in Hs as [Hnil | Hnc]; [done |].
  apply (Hnc name); [apply rtc_refl |].
  apply tc_once. exists (deprecation_entry deprecated).
  split; [| done]. unfold deps'. by rewrite lookup_insert_eq.
Qed.

Lemma deprecateHook_returns_iff_witness :
  let deps' := <["a" := deprecation_entry (inl "a")]>
                 (_deprecatedHooks (this one_hook_world)) in
  (is_Some (deprecateHook "a" (inl "a") one_hook_world) ↔
     hooksOf one_hook_world "a" = [] ∨ no_cycle_from deps' "a") ∧
  (hooksOf one_hook_world "a" ≠ [] → to (deprecation_entry (inl "a")) = "a" →
     deprecateHook "a" (inl "a") one_hook_world = None).
Proof.
  apply (deprecateHook_returns_iff one_hook_world "a" (inl "a")).
  - apply reachable_plain_table.
    apply (run_ops_reachable_plain [OpHook "a" (VFn (UserFn 7)) false]
             constructor);
      [apply reachable_plain_new | reflexivity | reflexivity].
  - reflexivity.
  - reflexivity.
  - discriminate.
Defined.

(** ** What no operation undoes *)

Lemma grows_refl w : grows w w.
Proof. split_and!; done. Qed.

Lemma grows_trans w1 w2 w3 : grows w1 w2 → grows w2 w3 → grows w1 w3.
Proof.
  intros (Hd1 & Hc1 & Hu1) (Hd2 & Hc2 & Hu2). split_and!; [eauto | | eauto].
  by etrans.
Qed.

Lemma grows_same w w' :
  _deprecatedHooks (this w') = _deprecatedHooks (this w) →
  console w' = console w → unregs w' = unregs w → grows w w'.
Proof. intros Hd Hc Hu. unfold grows. by rewrite Hd, Hc, Hu. Qed.

Lemma registered_grows name name' dep fn allow w :
  grows w (registered name name' dep fn allow w).
Proof.
  split_and!.
  - by rewrite (registered_deps name name' dep fn allow w).
  - rewrite (proj1 (registered_log name name' dep fn allow w)).
    unfold deprecation_warning. destruct dep as [d |]; [| done].
    destruct allow; [done |]. rewrite warn_console.
    case_decide; [done | by apply prefix_app_r].
  - intros i n Hi. rewrite registered_unregs. by apply lookup_app_l_Some.
Qed.

Lemma hook_grows name v allow w u w' :
  hook name v allow w = Some (u, w') → grows w w'.
Proof.
  intros H. destruct (decide (name = "")) as [-> |].
  { unfold hook in H. destruct v; simplify_eq; try apply grows_refl.
    case_decide; simplify_eq. apply grows_refl. }
  destruct v; try (unfold hook in H; simplify_eq; apply grows_refl).
  apply hook_inv in H as (name' & dep & _ & _ & ->); [| done].
  apply registered_grows.
Qed.

Lemma removeHook_grows name fn w : grows w (removeHook name fn w).
Proof.
  apply grows_same; [apply removeHook_deps | apply removeHook_log
                    | apply removeHook_unregs].
Qed.

Lemma unregister_grows u w : grows w (unregister u w).
Proof.
  unfold unregister. destruct u as [| i]; [apply grows_refl |].
  destruct (unregs w !! i) as [[name [fn |]] |] eqn:E; try apply grows_refl.
  apply grows_trans with (removeHook name fn w); [apply removeHook_grows |].
  split_and!; [done | done |]. simpl. intros j n Hj.
  rewrite list_lookup_insert_ne; [done |]. intros <-.
  rewrite removeHook_unregs, E in Hj. by simplify_eq.
Qed.

Lemma foldl_grows {A} (f : World → A → World) (l : list A) w :
  (∀ b a, grows b (f b a)) → grows w (foldl f w l).
Proof.
  intros Hstep. revert w. induction l as [| a l IH]; intros w; simpl;
    [apply grows_refl |].
  eapply grows_trans; [apply Hstep | apply IH].
Qed.

Lemma foldl_option_grows {A} (f : World → A → option World) (l : list A) w w' :
  (∀ b a b', f b a = Some b' → grows b b') →
  foldl (λ acc a, b ← acc; f b a) (Some w) l = Some w' → grows w w'.
Proof.
  intros Hstep H.
  apply (foldl_option_inv (grows w) f l w w'); [| apply grows_refl | done].
  intros b a b' Hb Hf. eapply grows_trans; [done | by eapply Hstep].
Qed.

Lemma deprecateHook_grows name deprecated w w' :
  deprecateHook name deprecated w = Some w' → grows w w'.
Proof.
  unfold deprecateHook. intros H.
  apply foldl_option_grows in H.
  - eapply grows_trans; [| exact H]. split_and!; [| done | done].
    intros n Hn. simpl. destruct (decide (name = n)) as [-> |].
    + rewrite lookup_insert_eq. by eexists.
    + by rewrite lookup_insert_ne.
  - intros b fn b' Hh.
    destruct (hook name (VFn fn) false b) as [[u b1] |] eqn:E; simplify_eq/=.
    by eapply hook_grows.
Qed.

Lemma assign_keeps (l : list (string * DeprecatedHook))
    (m : gmap string DeprecatedHook) n :
  is_Some (m !! n) →
  is_Some (foldl (λ m kv, <[kv.1 := kv.2]> m) m l !! n).
Proof.
  revert m. induction l as [| [k d] r IH]; intros m Hn; simpl; [done |].
  apply IH. destruct (decide (k = n)) as [-> |].
  - rewrite lookup_insert_eq. by eexists.
  - by rewrite lookup_insert_ne.
Qed.

Lemma deprecateHooks_grows deprecatedHooks w w' :
  deprecateHooks deprecatedHooks w = Some w' → grows w w'.
Proof.
  unfold deprecateHooks. intros H.
  apply foldl_option_grows in H.
  - eapply grows_trans; [| exact H]. split_and!; [| done | done].
    intros n Hn. simpl. by apply assign_keeps.
  - intros b kv b' Hh. by eapply deprecateHook_grows.
Qed.

Lemma hook_all_grows hooks w us w' :
  hook_all hooks w = Some (us, w') → grows w w'.
Proof.
  revert w us. induction hooks as [| [key fn] r IH]; intros w us H;
    simpl in H; [simplify_eq; apply grows_refl |].
  destruct (hook key (VFn fn) false w) as [[u w1] |] eqn:E; simplify_eq/=.
  destruct (hook_all r w1) as [[us' w2] |] eqn:E'; simplify_eq/=.
  eapply grows_trans; [by eapply hook_grows | by eapply IH].
Qed.

Lemma run_op_grows o w w' : run_op o w = Some w' → grows w w'.
Proof.
  intros H. destruct o; simpl in H.
  - destruct (hook _ _ _ _) as [[u w1] |] eqn:E; simplify_eq/=.
    by eapply hook_grows.
  - unfold hookOnce in H.
    destruct (hook name _ false _) as [[u w1] |] eqn:E; simplify_eq/=.
    apply hook_grows in E. destruct E as (Hd & Hc & Hu). by split_and!.
  - simplify_eq. apply removeHook_grows.
  - by eapply deprecateHook_grows.
  - by eapply deprecateHooks_grows.
  - unfold addHooks in H.
    destruct (hook_all _ w) as [[us w1] |] eqn:E; simplify_eq/=.
    apply hook_all_grows in E. destruct E as (Hd & Hc & Hu). by split_and!.
  - simplify_eq. unfold removeHooks. apply foldl_grows.
    intros b kv. apply removeHook_grows.
  - simplify_eq. apply unregister_grows.
  - simplify_eq. unfold removeAll.
    apply grows_trans with (set_removeFns (<[i := []]>) w);
      [by apply grows_same |].
    apply foldl_grows. intros b u. apply unregister_grows.
  - simplify_eq. destruct (onces w !! c) as [env |]; [| apply grows_refl].
    unfold once_prologue. destruct (_unreg env) as [u |].
    + apply grows_trans with (unregister u w); [apply unregister_grows |].
      by apply grows_same.
    + by apply grows_same.
  - simplify_eq. by apply grows_same.
  - simplify_eq. by apply grows_same.
  - simplify_eq. by apply grows_same.
  - simplify_eq. by apply grows_same.
  - simplify_eq. unfold new_event.
    destruct (_before (this w)), (_after (this w)); simpl;
      (apply grows_refl || by apply grows_same).
  - simplify_eq. unfold hooks_arg.
    destruct (_hooks (this w) !! name) as [[l |] |]; simpl;
      (apply grows_refl || by apply grows_same).
Qed.

Lemma run_ops_grows os w w' : run_ops os w = Some w' → grows w w'.
Proof.
  revert w. induction os as [| o r IH]; intros w H; simpl in H.
  - simplify_eq. apply grows_refl.
  - destruct (run_op o w) as [w1 |] eqn:E; simplify_eq/=.
    eapply grows_trans; [by eapply run_op_grows | by apply IH].
Qed.

(** X7: no sequence of operations removes a name from the deprecation
    table or a line from the console: a deprecated name stays deprecated,
    and the warnings printed so far stay the first lines of the console. *)
Theorem deprecations_and_warnings_persist (os : list Op) (w w' : World)
    (name : string) :
  run_ops os w = Some w' →
  (is_Some (_deprecatedHooks (this w) !! name) →
   is_Some (_deprecatedHooks (this w') !! name)) ∧
  console w `prefix_of` console w'.
Proof. intros (Hd & Hc & _)%run_ops_grows. split; [apply Hd | done]. Qed.

Lemma deprecations_and_warnings_persist_witness :
  (is_Some (_deprecatedHooks (this deprecated_world) !! "a") →
   is_Some (_deprecatedHooks
              (this (default constructor
                 (run_ops [OpHook "a" (VFn (UserFn 0)) false;
                           OpRemoveHook "b" (UserFn 0)] deprecated_world)))
            !! "a")) ∧
  console deprecated_world `prefix_of`
    console (default constructor
               (run_ops [OpHook "a" (VFn (UserFn 0)) false;
                         OpRemoveHook "b" (UserFn 0)] deprecated_world)).
Proof.
  apply (deprecations_and_warnings_persist
           [OpHook "a" (VFn (UserFn 0)) false; OpRemoveHook "b" (UserFn 0)]
           deprecated_world).
  reflexivity.
Defined.

(** X8: an arrow returned by [hook] that has been called once does nothing
    when called again, whatever operations are performed in between. *)
Theorem called_handle_stays_spent (w : World) (i : nat) (os : list Op)
    (w' : World) :
  (i < length (unregs w))%nat →
  run_ops os (unregister (UClosure i) w) = Some w' →
  unregister (UClosure i) w' = w'.
Proof.
  intros Hi Hops.
  assert (∃ n, unregs (unregister (UClosure i) w) !! i =
                 Some {| u_name := n; u_function := None |}) as [n Hn].
  { destruct (lookup_lt_is_Some_2 _ _ Hi) as [[n [fn |]] E].
    - exists n. rewrite (unregister_live _ _ _ _ E). simpl.
      apply list_lookup_insert_eq. by rewrite removeHook_unregs.
    - exists n. by rewrite (unregister_spent _ _ _ E). }
  apply run_ops_grows in Hops as (_ & _ & Hu).
  apply (unregister_spent _ _ n). by apply Hu.
Qed.

Lemma called_handle_stays_spent_witness :
  unregister (UClosure 0)
    (default constructor
       (run_ops [OpHook "x" (VFn (UserFn 0)) false]
          (unregister (UClosure 0) two_hooks_world))) =
  default constructor
    (run_ops [OpHook "x" (VFn (UserFn 0)) false]
       (unregister (UClosure 0) two_hooks_world)).
Proof.
  apply (called_handle_stays_spent two_hooks_world 0
           [OpHook "x" (VFn (UserFn 0)) false]).
  - vm_compute. lia.
  - reflexivity.
Defined.

(** ** Handles and deprecation *)

Lemma resolve_undeprecated deps name :
  deps !! name = None → resolve deps name = Some (name, None).
Proof.
  intros Hn. unfold resolve. destruct (size deps); simpl; by rewrite Hn.
Qed.

Lemma hook_unregs_prefix name v allow w u w' :
  hook name v allow w = Some (u, w') → ∃ ext, unregs w' = unregs w ++ ext.
Proof.
  intros H. destruct (decide (name = "")) as [-> |].
  { unfold hook in H. exists []. rewrite app_nil_r.
    destruct v; simplify_eq; try done. case_decide; by simplify_eq. }
  destruct v; try (unfold hook in H; simplify_eq; exists [];
                   by rewrite app_nil_r).
  apply hook_inv in H as (name' & dep & _ & _ & ->); [| done].
  eexists. apply registered_unregs.
Qed.

Lemma deprecateHook_unregs_prefix name deprecated w w' :
  deprecateHook name deprecated w = Some w' →
  ∃ ext, unregs w' = unregs w ++ ext.
Proof.
  unfold deprecateHook. intros H.
  apply (foldl_option_inv (λ b, ∃ ext, unregs b = unregs w ++ ext)) in H;
    [done | |].
  - intros b fn b' [ext Hb] Hh.
    destruct (hook name (VFn fn) false b) as [[u b1] |] eqn:E; simplify_eq/=.
    apply hook_unregs_prefix in E as [ext' ->]. rewrite Hb.
    exists (ext ++ ext'). by rewrite app_assoc.
  - exists []. by rewrite app_nil_r.
Qed.

(** X9, for plain names in a world reached by operations on plain names:
    the arrow returned by [hook] keeps the name the registration
    resolved to.  If that name is deprecated afterwards, the callback moves
    to the new name while the arrow still removes from the old one: calling
    it leaves the callback registered. *)
Theorem handle_stale_after_deprecation (w : World) (name name' : string)
    (d : DeprecatedHook) (deprecated : string + DeprecatedHook)
    (fn : HookCallback) (allow : bool) :
  reachable_plain w → plain name → plain (to (deprecation_entry deprecated)) →
  name ≠ "" →
  _deprecatedHooks (this w) !! name = None →
  resolve (<[name := deprecation_entry deprecated]> (_deprecatedHooks (this w)))
          name = Some (name', Some d) →
  ∃ u w1 w2,
    hook name (VFn fn) allow w = Some (u, w1) ∧
    hooksOf w1 name = hooksOf w name ++ [fn] ∧
    deprecateHook name deprecated w1 = Some w2 ∧
    hooksOf w2 name' = hooksOf w name' ++ hooksOf w name ++ [fn] ∧
    (∀ n, hooksOf (unregister u w2) n = hooksOf w2 n) ∧
    unregister u (unregister u w2) = unregister u w2.
Proof.
  intros Hr%reachable_plain_reachable _ _ Hne Hnone Hres.
  pose proof (reachable_inv _ Hr) as (Hok & _ & _).
  pose proof (hook_resolved name fn allow w name None Hne
                (resolve_undeprecated _ _ Hnone)) as Hh.
  set (w1 := registered name name None fn allow w) in *.
  set (i := length (unregs w)) in *.
  assert (reachable w1) as Hr1.
  { apply (reachable_op w (OpHook name (VFn fn) allow)); [done |].
    simpl. by rewrite Hh. }
  pose proof (reachable_inv _ Hr1) as (Hok1 & Hc1 & _).
  assert (_deprecatedHooks (this w1) = _deprecatedHooks (this w)) as Hd1
    by apply registered_deps.
  assert (∀ n, hooksOf w1 n =
            if decide (n = name) then hooksOf w n ++ [fn] else hooksOf w n)
    as Hh1 by (intros n; by apply registered_hooksOf).
  destruct (deprecateHook_spec w1 name deprecated name' d Hok1 Hc1 Hne)
    as (w2 & Hdep & _ & Hnn & _ & Hold & Hnew & _); [by rewrite Hd1 |].
  assert (reachable w2) as Hr2.
  { by apply (reachable_op w1 (OpDeprecateHook name deprecated)). }
  pose proof (reachable_inv _ Hr2) as (Hok2 & _ & _).
  assert (unregs w2 !! i = Some {| u_name := name; u_function := Some fn |})
    as Hi.
  { destruct (deprecateHook_unregs_prefix _ _ _ _ Hdep) as [ext ->].
    apply lookup_app_l_Some. unfold w1. rewrite registered_unregs.
    by rewrite lookup_app_r, Nat.sub_diag by lia. }
  assert (removeHook name fn w2 = w2) as Hrm.
  { apply removeHook_unregistered; [done |]. rewrite Hold.
    apply not_elem_of_nil. }
  exists (UClosure i), w1, w2.
  split_and!; [done | by rewrite Hh1, decide_True | done | | |].
  - rewrite Hnew, !Hh1. rewrite decide_False by done.
    by rewrite decide_True.
  - intros n. rewrite (unregister_live _ _ _ _ Hi), Hrm.
    by apply same_table_hooksOf.
  - rewrite (unregister_live _ _ _ _ Hi), Hrm.
    apply (unregister_spent _ _ name). simpl.
    apply list_lookup_insert_eq. by eapply lookup_lt_Some.
Qed.

Lemma handle_stale_after_deprecation_witness :
  ∃ u w1 w2,
    hook "a" (VFn (UserFn 7)) false constructor = Some (u, w1) ∧
    hooksOf w1 "a" = hooksOf constructor "a" ++ [UserFn 7] ∧
    deprecateHook "a" (inl "b") w1 = Some w2 ∧
    hooksOf w2 "b" =
      hooksOf constructor "b" ++ hooksOf constructor "a" ++ [UserFn 7] ∧
    (∀ n, hooksOf (unregister u w2) n = hooksOf w2 n) ∧
    unregister u (unregister u w2) = unregister u w2.
Proof.
  apply (handle_stale_after_deprecation constructor "a" "b" (to_ "b")
           (inl "b") (UserFn 7) false).
  - apply reachable_plain_new.
  - reflexivity.
  - reflexivity.
  - discriminate.
  - reflexivity.
  - reflexivity.
Defined.

(** ** The wrapper of [hookOnce] *)

(** X10, for a plain name in a world reached by operations on plain
    names: the wrapper registered by [hookOnce] is appended to the hooks of
    the resolved name; when it is called it first removes itself, so that
    the client function runs in a world whose hooks are those before
    [hookOnce], it runs the client function on the arguments of the call,
    returns its outcome, and leaves the arrow returned by [hookOnce]
    without effect. *)
Theorem hookOnce_wrapper_removes_itself
    (user : nat → list Val → World → World * Outcome) (w : World)
    (name name' : string) (dep : option DeprecatedHook) (f : nat)
    (args : list Val) :
  reachable_plain w → plain name → name ≠ "" →
  resolve (_deprecatedHooks (this w)) name = Some (name', dep) →
  OnceFn (length (onces w)) ∉ hooksOf w name' →
  ∃ u w1 w1',
    hookOnce name f w = Some (u, w1) ∧
    hooksOf w1 name' = hooksOf w name' ++ [OnceFn (length (onces w))] ∧
    (∀ n, hooksOf w1' n = hooksOf w n) ∧
    unregister u w1' = w1' ∧
    invoke user (OnceFn (length (onces w))) args w1 =
      (let '(w2, o) := user f args w1' in
       (w2, [{| fire_cb := OnceFn (length (onces w)); fire_fn := Some f;
                fire_args := args |}], o)).
Proof.
  intros (Hok & _ & _)%reachable_plain_inv _ Hne Hres Hfresh.
  set (c := length (onces w)) in *.
  set (env0 := {| _unreg := None; _function := Some (OnceFn c);
                  function_ := f |}).
  set (w0 := set_onces (λ o, o ++ [env0]) w).
  assert (hooks_ok w0) as Hok0 by (by apply (same_table_ok w)).
  set (wr := registered name name' dep (OnceFn c) false w0).
  set (i := length (unregs w0)).
  set (env1 := {| _unreg := Some (UClosure i); _function := Some (OnceFn c);
                  function_ := f |}).
  set (w1 := set_onces (alter (λ e, {| _unreg := Some (UClosure i);
                                       _function := _function e;
                                       function_ := function_ e |}) c) wr).
  assert (hookOnce name f w = Some (UClosure i, w1)) as Honce.
  { unfold hookOnce. fold c. fold env0. fold w0.
    by rewrite (hook_resolved name (OnceFn c) false w0 name' dep). }
  assert (hooks_ok wr) as Hokr by (by apply registered_ok).
  assert (hooks_ok w1) as Hok1 by (by apply (same_table_ok wr)).
  assert (∀ n, hooksOf w1 n =
            if decide (n = name') then hooksOf w n ++ [OnceFn c]
            else hooksOf w n) as Hh1.
  { intros n. rewrite (same_table_hooksOf wr w1) by done.
    unfold wr. rewrite registered_hooksOf by done.
    by rewrite (same_table_hooksOf w w0). }
  assert (onces w1 !! c = Some env1) as Hc.
  { assert (onces wr = onces w ++ [env0]) as Hon by apply registered_rest.
    unfold w1, set_onces. cbn [onces]. rewrite Hon, list_lookup_alter_eq.
    by rewrite lookup_app_r, Nat.sub_diag by (unfold c; lia). }
  assert (unregs w1 !! i =
            Some {| u_name := name'; u_function := Some (OnceFn c) |}) as Hi.
  { unfold w1, wr, set_onces. cbn [unregs]. rewrite registered_unregs.
    by rewrite lookup_app_r, Nat.sub_diag by (unfold i; lia). }
  set (w1' := once_prologue c env1 w1).
  assert (∀ n, hooksOf w1' n = hooksOf w n) as Hh1'.
  { intros n. unfold w1', once_prologue. simpl.
    rewrite (unregister_live _ _ _ _ Hi).
    rewrite (same_table_hooksOf (removeHook name' (OnceFn c) w1)) by done.
    rewrite removeHook_hooksOf, Hh1 by done.
    destruct (decide (n = name')) as [-> |]; [| done].
    by apply splice_first_notin. }
  exists (UClosure i), w1, w1'. split_and!; [done | | done | |].
  - by rewrite Hh1, decide_True.
  - apply (unregister_spent _ _ name'). unfold w1', once_prologue. simpl.
    rewrite (unregister_live _ _ _ _ Hi). simpl.
    apply list_lookup_insert_eq. rewrite removeHook_unregs.
    by eapply lookup_lt_Some.
  - unfold invoke. rewrite Hc. fold w1'. simpl.
    by destruct (user f args w1').
Qed.

Lemma hookOnce_wrapper_removes_itself_witness :
  ∃ u w1 w1',
    hookOnce "x" 7 two_hooks_world = Some (u, w1) ∧
    hooksOf w1 "x" =
      hooksOf two_hooks_world "x" ++ [OnceFn (length (onces two_hooks_world))] ∧
    (∀ n, hooksOf w1' n = hooksOf two_hooks_world n) ∧
    unregister u w1' = w1' ∧
    invoke quiet (OnceFn (length (onces two_hooks_world))) [VNum 1] w1 =
      (let '(w2, o) := quiet 7 [VNum 1] w1' in
       (w2, [{| fire_cb := OnceFn (length (onces two_hooks_world));
                fire_fn := Some 7; fire_args := [VNum 1] |}], o)).
Proof.
  apply (hookOnce_wrapper_removes_itself quiet two_hooks_world "x" "x" None 7
           [VNum 1]).
  - apply (run_ops_reachable_plain
             [OpHook "x" (VFn (UserFn 0)) false;
              OpHook "x" (VFn (UserFn 1)) false] constructor);
      [apply reachable_plain_new | reflexivity | reflexivity].
  - reflexivity.
  - discriminate.
  - reflexivity.
  - vm_compute. intros Hin. inversion Hin as [| ? ? ? Hin']; subst.
    inversion Hin' as [| ? ? ? Hin'']; subst. inversion Hin''.
Defined.

(** ** Interceptors *)

Lemma same_interceptors_refl w : same_interceptors w w.
Proof. done. Qed.

Lemma same_interceptors_trans w1 w2 w3 :
  same_interceptors w1 w2 → same_interceptors w2 w3 → same_interceptors w1 w3.
Proof. intros [H1 H2] [H3 H4]. split; congruence. Qed.

Lemma registered_interceptors name name' dep fn allow w :
  same_interceptors w (registered name name' dep fn allow w).
Proof.
  destruct (registered_rest name name' dep fn allow w) as (_ & _ & _ & ? & ?).
  by split.
Qed.

Lemma hook_interceptors name v allow w u w' :
  hook name v allow w = Some (u, w') → same_interceptors w w'.
Proof.
  intros H. destruct (decide (name = "")) as [-> |].
  { unfold hook in H. destruct v; simplify_eq; try done.
    case_decide; by simplify_eq. }
  destruct v; try (unfold hook in H; by simplify_eq).
  apply hook_inv in H as (name' & dep & _ & _ & ->); [| done].
  apply registered_interceptors.
Qed.

Lemma removeHook_interceptors name fn w :
  same_interceptors w (removeHook name fn w).
Proof.
  unfold removeHook.
  destruct (_hooks (this w) !! name) as [[l |] |]; [| done..].
  destruct (arrays w !! l); [| done]. by case_decide.
Qed.

Lemma unregister_interceptors u w : same_interceptors w (unregister u w).
Proof.
  unfold unregister. destruct u as [| i]; [done |].
  destruct (unregs w !! i) as [[name [fn |]] |]; try done.
  apply (removeHook_interceptors name fn w).
Qed.

Lemma deprecateHook_interceptors name deprecated w w' :
  deprecateHook name deprecated w = Some w' → same_interceptors w w'.
Proof.
  unfold deprecateHook. intros H.
  apply (foldl_option_inv (same_interceptors w)) in H; [done | | done].
  intros b fn b' Hb Hh.
  destruct (hook name (VFn fn) false b) as [[u b1] |] eqn:E; simplify_eq/=.
  eapply same_interceptors_trans; [done | by eapply hook_interceptors].
Qed.

Lemma deprecateHooks_interceptors deprecatedHooks w w' :
  deprecateHooks deprecatedHooks w = Some w' → same_interceptors w w'.
Proof.
  unfold deprecateHooks. intros H.
  apply (foldl_option_inv (same_interceptors w)) in H; [done | | done].
  intros b kv b' Hb Hh.
  eapply same_interceptors_trans; [done | by eapply deprecateHook_interceptors].
Qed.

Lemma hook_all_interceptors hooks w us w' :
  hook_all hooks w = Some (us, w') → same_interceptors w w'.
Proof.
  revert w us. induction hooks as [| [key fn] r IH]; intros w us H;
    simpl in H; [by simplify_eq |].
  destruct (hook key (VFn fn) false w) as [[u w1] |] eqn:E; simplify_eq/=.
  destruct (hook_all r w1) as [[us' w2] |] eqn:E'; simplify_eq/=.
  eapply same_interceptors_trans; [by eapply hook_interceptors | by eapply IH].
Qed.

Lemma run_op_interceptors o w w' :
  interceptor_op o = false → run_op o w = Some w' → same_interceptors w w'.
Proof.
  intros Ho H. destruct o; simpl in H; try done.
  - destruct (hook _ _ _ _) as [[u w1] |] eqn:E; simplify_eq/=.
    by eapply hook_interceptors.
  - unfold hookOnce in H.
    destruct (hook name _ false _) as [[u w1] |] eqn:E; simplify_eq/=.
    by apply hook_interceptors in E.
  - simplify_eq. apply removeHook_interceptors.
  - by eapply deprecateHook_interceptors.
  - by eapply deprecateHooks_interceptors.
  - unfold addHooks in H.
    destruct (hook_all _ w) as [[us w1] |] eqn:E; simplify_eq/=.
    by apply hook_all_interceptors in E.
  - simplify_eq. unfold removeHooks.
    apply (foldl_inv (same_interceptors w)); [| done].
    intros b kv Hb.
    eapply same_interceptors_trans; [done | apply removeHook_interceptors].
  - simplify_eq. apply unregister_interceptors.
  - simplify_eq. unfold removeAll.
    apply (foldl_inv (same_interceptors w)); [| done].
    intros b u Hb.
    eapply same_interceptors_trans; [done | apply unregister_interceptors].
  - simplify_eq. destruct (onces w !! c) as [env |]; [| done].
    unfold once_prologue. destruct (_unreg env) as [u |]; [| done].
    apply (unregister_interceptors u w).
  - simplify_eq. unfold new_event.
    by destruct (_before (this w)), (_after (this w)).
  - simplify_eq. unfold hooks_arg.
    by destruct (_hooks (this w) !! name) as [[l |] |].
Qed.

Lemma run_op_interceptors_defined o w w' :
  run_op o w = Some w' →
  (is_Some (_before (this w)) → is_Some (_before (this w'))) ∧
  (is_Some (_after (this w)) → is_Some (_after (this w'))).
Proof.
  intros H. destruct (interceptor_op o) eqn:Ho.
  - destruct o; try done; simpl in H; simplify_eq; simpl;
      split; try done; intros [x ->]; by eexists.
  - destruct (run_op_interceptors o w w' Ho H) as [-> ->]. done.
Qed.

Lemma run_op_interceptor_table o w w' :
  interceptor_op o = true → run_op o w = Some w' → same_table w w'.
Proof. intros Ho H. destruct o; try done; simpl in H; by simplify_eq. Qed.

(** X11: registering an interceptor and calling the returned arrow leaves
    the interceptors that were there, as a permutation in general and in
    the same order when the function was not among them; nothing else of
    the instance changes.  The list is left defined, also when it is empty:
    a dispatch still creates its event object afterwards. *)
Theorem beforeEach_round_trip (fn : HookCallback) (w : World)
    (name : string) (args : list Val) :
  let bs := default [] (_before (this w)) in
  let w' := unBeforeEach fn (beforeEach fn w) in
  ∃ bs',
    w' = set_this (set_before (λ _, Some bs')) w ∧
    bs' ≡ₚ bs ∧
    (fn ∉ bs → bs' = bs) ∧
    new_event name args w' =
      (Some (length (events w)),
       set_events (λ es, es ++ [event_object name args]) w').
Proof.
  intros bs w'. exists (splice_first (bs ++ [fn]) fn). split_and!.
  - done.
  - apply splice_first_perm.
  - apply splice_first_notin.
  - done.
Qed.

(** X12: the same for [afterEach]. *)
Theorem afterEach_round_trip (fn : HookCallback) (w : World)
    (name : string) (args : list Val) :
  let afters := default [] (_after (this w)) in
  let w' := unAfterEach fn (afterEach fn w) in
  ∃ afters',
    w' = set_this (set_after (λ _, Some afters')) w ∧
    afters' ≡ₚ afters ∧
    (fn ∉ afters → afters' = afters) ∧
    new_event name args w' =
      (Some (length (events w)),
       set_events (λ es, es ++ [event_object name args]) w').
Proof.
  intros afters w'. exists (splice_first (afters ++ [fn]) fn). split_and!.
  - done.
  - apply splice_first_perm.
  - apply splice_first_notin.
  - unfold new_event. subst w'. simpl. by destruct (_before (this w)).
Qed.

(** X13: registration, removal and deprecation of hooks, and every handle
    they return, leave both interceptor lists as they are; the interceptor
    operations leave the hooks of every name as they are; and no operation
    makes an interceptor list undefined again, so that once [beforeEach]
    or [afterEach] has been called every dispatch creates an event
    object. *)
Theorem interceptors_and_hooks_independent (os : list Op) (w w' : World) :
  run_ops os w = Some w' →
  (Forall (λ o, interceptor_op o = false) os → same_interceptors w w') ∧
  (Forall (λ o, interceptor_op o = true) os →
     ∀ n, hooksOf w' n = hooksOf w n) ∧
  (is_Some (_before (this w)) → is_Some (_before (this w'))) ∧
  (is_Some (_after (this w)) → is_Some (_after (this w'))) ∧
  (is_Some (_before (this w)) ∨ is_Some (_after (this w)) →
   ∀ name args,
     new_event name args w' =
       (Some (length (events w')),
        set_events (λ es, es ++ [event_object name args]) w')).
Proof.
  intros H.
  assert ((is_Some (_before (this w)) → is_Some (_before (this w'))) ∧
          (is_Some (_after (this w)) → is_Some (_after (this w')))) as [Hb Ha].
  { revert w H. induction os as [| o r IH]; intros w H; simpl in H;
      [by simplify_eq |].
    destruct (run_op o w) as [w1 |] eqn:E; [| done]. simpl in H.
    destruct (run_op_interceptors_defined o w w1 E) as [H1 H2].
    destruct (IH w1 H) as [H3 H4]. split; eauto. }
  split_and!; [| | done | done |].
  - clear Hb Ha. revert w H. induction os as [| o r IH]; intros w H Hf;
      simpl in H; [by simplify_eq |].
    destruct (run_op o w) as [w1 |] eqn:E; [| done]. simpl in H.
    apply Forall_cons in Hf as [Ho Hr].
    eapply same_interceptors_trans; [by eapply run_op_interceptors |].
    by apply IH.
  - clear Hb Ha. revert w H. induction os as [| o r IH]; intros w H Hf n;
      simpl in H; [by simplify_eq |].
    destruct (run_op o w) as [w1 |] eqn:E; [| done]. simpl in H.
    apply Forall_cons in Hf as [Ho Hr].
    rewrite (IH w1) by done.
    apply same_table_hooksOf. by apply (run_op_interceptor_table o).
  - intros [[bs Hs]%Hb | [afters Hs]%Ha] name args; unfold new_event;
      rewrite Hs; [done |]. by destruct (_before (this w')).
Qed.

Lemma interceptors_and_hooks_independent_witness :
  (Forall (λ o, interceptor_op o = false)
     [OpHook "x" (VFn (UserFn 0)) false; OpRemoveHook "x" (UserFn 0)] →
   same_interceptors unspied_world unspied_used_world) ∧
  (Forall (λ o, interceptor_op o = true)
     [OpHook "x" (VFn (UserFn 0)) false; OpRemoveHook "x" (UserFn 0)] →
     ∀ n, hooksOf unspied_used_world n = hooksOf unspied_world n) ∧
  (is_Some (_before (this unspied_world)) →
   is_Some (_before (this unspied_used_world))) ∧
  (is_Some (_after (this unspied_world)) →
   is_Some (_after (this unspied_used_world))) ∧
  (is_Some (_before (this unspied_world)) ∨
   is_Some (_after (this unspied_world)) →
   ∀ name args,
     new_event name args unspied_used_world =
       (Some (length (events unspied_used_world)),
        set_events (λ es, es ++ [event_object name args])
          unspied_used_world)).
Proof.
  apply (interceptors_and_hooks_independent
           [OpHook "x" (VFn (UserFn 0)) false; OpRemoveHook "x" (UserFn 0)]
           unspied_world unspied_used_world).
  reflexivity.
Defined.

(** ** [removeHooks] after [addHooks] *)

Lemma entries_for_cons key fn r n :
  entries_for ((key, fn) :: r) n =
    if decide (key = n) then fn :: entries_for r n else entries_for r n.
Proof. unfold entries_for. simpl. by case_decide. Qed.

Lemma splice_first_middle base fn rest :
  fn ∉ base → splice_first (base ++ fn :: rest) fn = base ++ rest.
Proof.
  unfold splice_first. induction base as [| x a IH]; intros Hnin; simpl.
  - by rewrite decide_True.
  - apply not_elem_of_cons in Hnin as [Hne Hnin].
    rewrite decide_False by done. specialize (IH Hnin).
    destruct (indexOf (a ++ fn :: rest) fn) as [i |]; simpl in *; by f_equal.
Qed.

Lemma hook_all_undeprecated hooks w :
  hooks_ok w →
  (∀ key fn, (key, fn) ∈ hooks →
     key ≠ "" ∧ _deprecatedHooks (this w) !! key = None) →
  ∃ us w1,
    hook_all hooks w = Some (us, w1) ∧ hooks_ok w1 ∧
    ∀ n, hooksOf w1 n = hooksOf w n ++ entries_for hooks n.
Proof.
  revert w. induction hooks as [| [key fn] r IH]; intros w Hok Hkeys; simpl.
  - exists [], w. split_and!; [done.. |]. intros n. by rewrite app_nil_r.
  - destruct (Hkeys key fn) as [Hne Hnd]; [by left |].
    rewrite (hook_resolved key fn false w key None)
      by (done || by apply resolve_undeprecated).
    simpl. set (wa := registered key key None fn false w).
    destruct (IH wa) as (us & w1 & E & Hok1 & Hh).
    { by apply registered_ok. }
    { intros k f Hin. destruct (Hkeys k f) as [? ?]; [by right |].
      split; [done |]. unfold wa. by rewrite registered_deps. }
    rewrite E. simpl. exists (UClosure (length (unregs w)) :: us), w1.
    split_and!; [done.. |]. intros n. rewrite Hh. unfold wa.
    rewrite registered_hooksOf, entries_for_cons by done.
    destruct (decide (n = key)) as [-> |].
    + by rewrite decide_True, <- app_assoc.
    + by rewrite decide_False.
Qed.

Lemma removeHook_each_perm hooks w (base : string → list HookCallback) :
  hooks_ok w →
  (∀ n, hooksOf w n ≡ₚ base n ++ entries_for hooks n) →
  ∀ n, hooksOf (removeHook_each hooks w) n ≡ₚ base n.
Proof.
  revert w. induction hooks as [| [key fn] r IH]; intros w Hok Hh n; simpl.
  - rewrite Hh. by rewrite app_nil_r.
  - apply IH; [by apply removeHook_ok |]. clear n. intros n. simpl.
    rewrite removeHook_hooksOf by done. specialize (Hh n).
    rewrite entries_for_cons in Hh.
    destruct (decide (n = key)) as [-> |].
    + rewrite decide_True in Hh by done.
      apply (inj (cons fn)). rewrite splice_first_in.
      * rewrite Hh. by rewrite Permutation_middle.
      * rewrite Hh. set_solver.
    + by rewrite decide_False in Hh.
Qed.

Lemma removeHook_each_exact hooks w (base : string → list HookCallback) :
  hooks_ok w →
  (∀ n, hooksOf w n = base n ++ entries_for hooks n) →
  (∀ key fn, (key, fn) ∈ hooks → fn ∉ base key) →
  ∀ n, hooksOf (removeHook_each hooks w) n = base n.
Proof.
  revert w. induction hooks as [| [key fn] r IH]; intros w Hok Hh Hnew n; simpl.
  - rewrite Hh. by rewrite app_nil_r.
  - apply IH; [by apply removeHook_ok | |].
    + clear n. intros n. simpl. rewrite removeHook_hooksOf by done.
      rewrite Hh, entries_for_cons.
      destruct (decide (n = key)) as [-> |].
      * rewrite decide_True by done. apply splice_first_middle.
        apply (Hnew key fn). by left.
      * by rewrite decide_False.
    + intros k f Hin. apply Hnew. by right.
Qed.

(** X14, in a world reached by operations on plain names: when every key
    of the flattened configuration is a plain name, not empty and not
    deprecated,
    [addHooks] appends each callback to the hooks of its key, and
    [removeHooks] with the same configuration afterwards leaves under every
    name the callbacks that were there before, as a permutation in general
    and in the same order when none of the callbacks was already registered
    under its key. *)
Theorem removeHooks_undoes_addHooks (configHooks : list (string * NestedHooks))
    (hooks : list (string * HookCallback)) (w : World) :
  reachable_plain w →
  flatHooks configHooks = hooks →
  (∀ key fn, (key, fn) ∈ hooks →
     plain key ∧ key ≠ "" ∧ _deprecatedHooks (this w) !! key = None) →
  ∃ i w1,
    addHooks configHooks w = Some (i, w1) ∧
    (∀ n, hooksOf w1 n = hooksOf w n ++ entries_for hooks n) ∧
    (∀ n, hooksOf (removeHooks configHooks w1) n ≡ₚ hooksOf w n) ∧
    ((∀ key fn, (key, fn) ∈ hooks → fn ∉ hooksOf w key) →
     ∀ n, hooksOf (removeHooks configHooks w1) n = hooksOf w n).
Proof.
  intros (Hok & _ & _)%reachable_plain_inv Hflat Hkeys.
  assert (∀ key fn, (key, fn) ∈ hooks →
            key ≠ "" ∧ _deprecatedHooks (this w) !! key = None) as Hkeys'.
  { intros key fn Hin. by destruct (Hkeys key fn Hin) as (_ & ? & ?). }
  destruct (hook_all_undeprecated hooks w Hok Hkeys')
    as (us & w1 & E & Hok1 & Hh).
  unfold addHooks, removeHooks. rewrite Hflat, E. simpl.
  set (w1' := set_removeFns (λ r, r ++ [us]) w1).
  assert (hooks_ok w1') as Hok1' by (by apply (same_table_ok w1)).
  assert (∀ n, hooksOf w1' n = hooksOf w n ++ entries_for hooks n) as Hh'.
  { intros n. by rewrite (same_table_hooksOf w1 w1'). }
  exists (length (removeFns w1)), w1'. split_and!; [done | done | |].
  - apply (removeHook_each_perm hooks w1' (hooksOf w)); [done |].
    intros n. by rewrite Hh'.
  - intros Hnew. by apply (removeHook_each_exact hooks w1' (hooksOf w)).
Qed.

Lemma removeHooks_undoes_addHooks_witness :
  ∃ i w1,
    addHooks (nested_ab (UserFn 3)) one_hook_world = Some (i, w1) ∧
    (∀ n, hooksOf w1 n =
          hooksOf one_hook_world n ++ entries_for [("a.b", UserFn 3)] n) ∧
    (∀ n, hooksOf (removeHooks (nested_ab (UserFn 3)) w1) n ≡ₚ
          hooksOf one_hook_world n) ∧
    ((∀ key fn, (key, fn) ∈ [("a.b", UserFn 3)] →
        fn ∉ hooksOf one_hook_world key) →
     ∀ n, hooksOf (removeHooks (nested_ab (UserFn 3)) w1) n =
          hooksOf one_hook_world n).
Proof.
  apply (removeHooks_undoes_addHooks (nested_ab (UserFn 3))
           [("a.b", UserFn 3)] one_hook_world).
  - apply (run_ops_reachable_plain [OpHook "a" (VFn (UserFn 7)) false]
             constructor);
      [apply reachable_plain_new | reflexivity | reflexivity].
  - reflexivity.
  - intros key fn Hin. apply list_elem_of_singleton in Hin.
    injection Hin as -> ->.
    split; [reflexivity | split; [discriminate | reflexivity]].
Defined.

(** ** Arrays that become empty *)

(** X15, for a plain name in a world reached by operations on plain
    names: when [removeHook] takes the last callback of a name, the key is
    deleted and the array, now empty, is left behind: the next registration
    under the name creates a new array, and whoever still holds the old one
    (a dispatch in progress) never sees the new callback.  When a callback
    remains, the array stays in the table and the next registration is
    pushed onto it. *)
Theorem emptied_array_is_abandoned (w : World) (name : string) (l : nat)
    (fn fn2 : HookCallback) :
  reachable_plain w → plain name → name ≠ "" →
  _hooks (this w) !! name = Some (Some l) →
  let a' := splice_first (hooksOf w name) fn in
  ∃ u w2,
    hook name (VFn fn2) false (removeHook name fn w) = Some (u, w2) ∧
    hooksOf w2 name = a' ++ [fn2] ∧
    arrays w2 !! l = Some (if decide (a' = []) then [] else a' ++ [fn2]) ∧
    _hooks (this w2) !! name =
      Some (Some (if decide (a' = []) then length (arrays w) else l)) ∧
    (l < length (arrays w))%nat.
Proof.
  intros Hr%reachable_plain_reachable _ Hne E a'.
  pose proof (reachable_inv _ Hr) as (Hok & _ & _).
  destruct (proj1 Hok _ _ E) as (a & Ha & Hnn).
  assert (l < length (arrays w))%nat as Hl by (by eapply lookup_lt_Some).
  assert (hooksOf w name = a) as Hh by (by apply (hooksOf_slot _ _ l)).
  assert (_deprecatedHooks (this w) !! name = None) as Hnd.
  { destruct (_deprecatedHooks (this w) !! name) as [d |] eqn:Ed; [| done].
    assert (_hooks (this w) !! name = Some None) as Hu.
    { apply (reachable_deprecated_undefined w Hr name); [| tauto].
      rewrite Ed. by eexists. }
    by rewrite E in Hu. }
  set (w1 := removeHook name fn w).
  assert (hooks_ok w1) as Hok1 by (by apply removeHook_ok).
  exists (UClosure (length (unregs w1))), (registered name name None fn2 false w1).
  split_and!; [| | | | done].
  - apply hook_resolved; [done |]. apply resolve_undeprecated.
    unfold w1. by rewrite removeHook_deps.
  - rewrite registered_hooksOf, decide_True by done.
    unfold w1. by rewrite removeHook_hooksOf, decide_True.
  - unfold a'. rewrite Hh.
    unfold registered, push_hook, ensure_array, deprecation_warning, w1,
      removeHook. rewrite E, Ha.
    destruct (splice_first a fn) as [| x r] eqn:Es; simpl.
    + rewrite lookup_delete_eq. simpl.
      rewrite list_lookup_alter_ne by (rewrite length_insert; lia).
      rewrite lookup_app_l by (by rewrite length_insert).
      by rewrite list_lookup_insert_eq.
    + rewrite E. simpl. rewrite list_lookup_alter_eq.
      by rewrite list_lookup_insert_eq.
  - unfold a'. rewrite Hh.
    unfold registered, push_hook, ensure_array, deprecation_warning, w1,
      removeHook. rewrite E, Ha.
    destruct (splice_first a fn) as [| x r] eqn:Es; simpl.
    + rewrite lookup_delete_eq. simpl.
      by rewrite lookup_insert_eq, length_insert.
    + by rewrite E.
Qed.

Lemma emptied_array_is_abandoned_witness :
  ∃ u w2,
    hook "a" (VFn (UserFn 8)) false (removeHook "a" (UserFn 7) one_hook_world) =
      Some (u, w2) ∧
    hooksOf w2 "a" = splice_first (hooksOf one_hook_world "a") (UserFn 7) ++
                     [UserFn 8] ∧
    arrays w2 !! 0 =
      Some (if decide (splice_first (hooksOf one_hook_world "a") (UserFn 7) = [])
            then []
            else splice_first (hooksOf one_hook_world "a") (UserFn 7) ++
                 [UserFn 8]) ∧
    _hooks (this w2) !! "a" =
      Some (Some (if decide (splice_first (hooksOf one_hook_world "a")
                               (UserFn 7) = [])
                  then length (arrays one_hook_world) else 0)) ∧
    (0 < length (arrays one_hook_world))%nat.
Proof.
  apply (emptied_array_is_abandoned one_hook_world "a" 0 (UserFn 7) (UserFn 8)).
  - apply (run_ops_reachable_plain [OpHook "a" (VFn (UserFn 7)) false]
             constructor);
      [apply reachable_plain_new | reflexivity | reflexivity].
  - reflexivity.
  - discriminate.
  - reflexivity.
Defined.

(** ** [deprecateHooks] *)

Lemma assigned_other l (m : gmap string DeprecatedHook) k :
  k ∉ l.*1 → assigned l m !! k = m !! k.
Proof.
  revert m. induction l as [| [k' d] r IH]; intros m Hk; simpl; [done |].
  apply not_elem_of_cons in Hk as [Hne Hk]. simpl in Hne.
  unfold assigned in *. simpl. rewrite IH by done.
  by rewrite lookup_insert_ne.
Qed.

Lemma assigned_lookup l (m : gmap string DeprecatedHook) k d :
  NoDup l.*1 → (k, d) ∈ l → assigned l m !! k = Some d.
Proof.
  revert m. induction l as [| [k' d'] r IH]; intros m Hnd Hin.
  - by apply elem_of_nil in Hin.
  - simpl in Hnd. apply NoDup_cons in Hnd as [Hk' Hnd].
    apply elem_of_cons in Hin as [Heq | Hin].
    + simplify_eq. unfold assigned. simpl.
      fold (assigned r (<[k' := d']> m)).
      rewrite assigned_other by done. by rewrite lookup_insert_eq.
    + unfold assigned. simpl. by apply IH.
Qed.

Lemma target_undeprecated deps k n :
  target deps k = Some n → deps !! n = None.
Proof.
  unfold target, resolve. intros H.
  destruct (resolve_loop _ deps k None) as [[n' dep] |] eqn:E; simplify_eq/=.
  by eapply resolve_loop_end.
Qed.

Lemma moved_to_deprecated deps w keys n :
  is_Some (deps !! n) → moved_to deps w keys n = [].
Proof.
  intros [d Hd]. unfold moved_to. induction keys as [| k r IH]; simpl; [done |].
  rewrite IH. case_decide as Ht; [| done].
  apply target_undeprecated in Ht. by rewrite Hd in Ht.
Qed.

Lemma moved_to_ext deps w w' keys n :
  (∀ k, k ∈ keys → hooksOf w' k = hooksOf w k) →
  moved_to deps w' keys n = moved_to deps w keys n.
Proof.
  unfold moved_to. induction keys as [| k r IH]; intros H; simpl; [done |].
  rewrite IH by (intros k' Hk'; apply H; by right).
  rewrite (H k) by (by left). done.
Qed.

Lemma deprecateHooks_loop (D : gmap string DeprecatedHook)
    (l : list (string * DeprecatedHook)) (b : World) :
  inv b → NoDup l.*1 → _deprecatedHooks (this b) = D →
  (∀ k d, (k, d) ∈ l → D !! k = Some d ∧ k ≠ "" ∧ is_Some (resolve D k)) →
  ∃ b',
    foldl (λ acc kv, w' ← acc; deprecateHook kv.1 (inr kv.2) w') (Some b) l
      = Some b' ∧
    _deprecatedHooks (this b') = D ∧
    ∀ n, hooksOf b' n =
           if decide (n ∈ l.*1) then []
           else hooksOf b n ++ moved_to D b l.*1 n.
Proof.
  revert b. induction l as [| [k d] r IH]; intros b Hinv Hnd HD Hl.
  - exists b. split_and!; [done.. |]. intros n.
    rewrite decide_False by apply not_elem_of_nil.
    unfold moved_to. simpl. by rewrite app_nil_r.
  - simpl in Hnd. apply NoDup_cons in Hnd as [Hk Hnd].
    destruct (Hl k d) as (Hkd & Hne & [[k' dep] Hres]); [by left |].
    assert (∃ d', dep = Some d') as [d' ->].
    { pose proof Hres as Hlast.
      apply resolve_loop_last in Hlast as [(_ & _ & Hn) | (d' & -> & _)];
        [by rewrite Hkd in Hn | eauto]. }
    assert (D !! k' = None) as Hk' by (by eapply resolve_loop_end).
    assert (<[k := d]> D = D) as Hid by (by apply insert_id).
    destruct Hinv as (Hok & Hc & Hs).
    destruct (deprecateHook_spec b k (inr d) k' d' Hok Hc Hne)
      as (b1 & E1 & Hd1 & Hkk' & _ & Hh1 & Hh1' & Hh1o & _).
    { simpl. by rewrite HD, Hid. }
    simpl in Hd1. rewrite HD, Hid in Hd1.
    destruct (IH b1) as (b' & E & HD' & Hh); [| done | done | |].
    { by apply (deprecateHook_inv k (inr d) b). }
    { intros k0 d0 Hin. apply Hl. by right. }
    exists b'. split_and!; [| done |].
    { simpl. by rewrite E1. }
    intros n. rewrite Hh. change (((k, d) :: r).*1) with (k :: r.*1).
    assert (moved_to D b1 r.*1 n = moved_to D b r.*1 n) as ->.
    { apply moved_to_ext. intros m Hm. apply Hh1o.
      - intros ->. done.
      - intros ->. apply list_elem_of_fmap in Hm as ([m d0] & -> & Hin).
        destruct (Hl m d0) as (Hm0 & _); [by right |]. simpl in Hk'.
        by rewrite Hk' in Hm0. }
    destruct (decide (n = k)) as [-> | Hnk].
    + rewrite (decide_True (P := k ∈ k :: r.*1)) by (by left).
      rewrite decide_False by done. rewrite Hh1.
      rewrite moved_to_deprecated by (by rewrite Hkd). done.
    + destruct (decide (n ∈ r.*1)) as [Hin | Hnin].
      * by rewrite decide_True by (by right).
      * rewrite decide_False by (by apply not_elem_of_cons).
        change (moved_to D b (k :: r.*1) n) with
          ((if decide (target D k = Some n) then hooksOf b k else []) ++
           moved_to D b r.*1 n).
        assert (target D k = Some k') as -> by (unfold target; by rewrite Hres).
        destruct (decide (n = k')) as [-> |].
        -- rewrite decide_True by done. rewrite Hh1'. by rewrite <- app_assoc.
        -- rewrite decide_False by congruence. by rewrite Hh1o.
Qed.

(** X16, in a world reached by operations on plain names:
    [deprecateHooks] on an object whose keys and targets are plain names,
    the keys usable names from
    which the loop of lines 39-42 ends in the table that holds all the new
    entries: the call returns; the table is the old one with the entries
    assigned; every key of the object is left without callbacks; and under
    every other name the callbacks that were there are followed by those of
    the keys that resolve to it in the new table, key after key in the
    order of the object.  The callbacks of a key go straight to the end of
    its chain, also when the chain passes through other keys of the same
    object. *)
Theorem deprecateHooks_batch (deprecatedHooks : list (string * DeprecatedHook))
    (w : World) :
  reachable_plain w → NoDup deprecatedHooks.*1 →
  (∀ k d, (k, d) ∈ deprecatedHooks → plain k ∧ plain (to d)) →
  (∀ k, k ∈ deprecatedHooks.*1 →
     k ≠ "" ∧
     is_Some (resolve (assigned deprecatedHooks (_deprecatedHooks (this w))) k)) →
  ∃ w',
    deprecateHooks deprecatedHooks w = Some w' ∧
    _deprecatedHooks (this w') =
      assigned deprecatedHooks (_deprecatedHooks (this w)) ∧
    ∀ n, hooksOf w' n =
           if decide (n ∈ deprecatedHooks.*1) then []
           else hooksOf w n ++
                moved_to (assigned deprecatedHooks (_deprecatedHooks (this w)))
                  w deprecatedHooks.*1 n.
Proof.
  intros (Hok & Hc & Hs)%reachable_plain_inv Hnd _ Hkeys.
  set (D := assigned deprecatedHooks (_deprecatedHooks (this w))) in *.
  set (w1 := set_this (set_deprecatedHooks (λ _, D)) w).
  destruct (deprecateHooks_loop D deprecatedHooks w1) as (w' & E & HD & Hh).
  - split_and!.
    + by apply (same_table_ok w).
    + by apply (same_log_ok w).
    + intros n Hn. simpl. apply assign_keeps. by apply Hs.
  - done.
  - done.
  - intros k d Hin. split; [by apply assigned_lookup |].
    apply Hkeys. apply list_elem_of_fmap. by exists (k, d).
  - exists w'. split_and!; [done | done |]. intros n. rewrite Hh.
    case_decide; [done |]. f_equal.
Qed.

Lemma deprecateHooks_batch_witness :
  ∃ w',
    deprecateHooks [("a", to_ "b"); ("b", to_ "c")] abc_world = Some w' ∧
    _deprecatedHooks (this w') =
      assigned [("a", to_ "b"); ("b", to_ "c")]
        (_deprecatedHooks (this abc_world)) ∧
    ∀ n, hooksOf w' n =
           if decide (n ∈ [("a", to_ "b"); ("b", to_ "c")].*1) then []
           else hooksOf abc_world n ++
                moved_to (assigned [("a", to_ "b"); ("b", to_ "c")]
                            (_deprecatedHooks (this abc_world)))
                  abc_world [("a", to_ "b"); ("b", to_ "c")].*1 n.
Proof.
  apply (deprecateHooks_batch [("a", to_ "b"); ("b", to_ "c")] abc_world).
  - apply (run_ops_reachable_plain
             [OpHook "a" (VFn (UserFn 0)) false;
              OpHook "b" (VFn (UserFn 1)) false;
              OpHook "c" (VFn (UserFn 2)) false] constructor);
      [apply reachable_plain_new | reflexivity | reflexivity].
  - simpl. apply NoDup_cons. split; [| apply NoDup_singleton].
    intros Hin%list_elem_of_singleton. discriminate.
  - intros k d Hin.
    apply elem_of_cons in Hin as [Heq | Hin];
      [| apply list_elem_of_singleton in Hin as Heq];
      injection Heq as -> ->; split; reflexivity.
  - intros k Hk. simpl in Hk.
    apply elem_of_cons in Hk as [-> | Hk];
      [| apply list_elem_of_singleton in Hk as ->];
      (split; [discriminate | vm_compute; by eexists]).
Defined.

(** After [deprecateHooks({a: "b", b: "c"})] the callbacks of [a] precede
    those of [b] under [c]; after [deprecateHook("a", "b")] and
    [deprecateHook("b", "c")] they follow them. *)
Example deprecateHooks_batch_order :
  (λ w', hooksOf w' "c") <$>
    deprecateHooks [("a", to_ "b"); ("b", to_ "c")] abc_world =
    Some [UserFn 2; UserFn 0; UserFn 1] ∧
  (λ w', hooksOf w' "c") <$> run_ops chain_ops abc_world =
    Some [UserFn 2; UserFn 1; UserFn 0].
Proof. vm_compute. split; reflexivity. Qed.

(** ** The empty name *)

Lemma migrate_empty_name (l : list HookCallback) b :
  foldl (λ acc fn, w' ← acc; snd <$> hook "" (VFn fn) false w') (Some b) l
    = Some b.
Proof.
  induction l as [| fn l IH]; [done |]. exact IH.
Qed.

(** X17: the test of line 33 makes [hook] ignore the empty name, but not a
    name that resolves to it: through a deprecation whose target is the
    empty string a callback is stored under the empty name.
    [deprecateHook] of the empty name always returns, prints nothing, and
    drops the callbacks stored under it: the registrations of line 102 are
    refused by the same test. *)
Theorem empty_name_edge (w : World) (name : string)
    (dep : option DeprecatedHook) (fn : HookCallback)
    (deprecated : string + DeprecatedHook) :
  reachable w → name ≠ "" →
  resolve (_deprecatedHooks (this w)) name = Some ("", dep) →
  (∀ v allow, hook "" v allow w = Some (UNoop, w)) ∧
  (∃ u w1,
     hook name (VFn fn) true w = Some (u, w1) ∧
     hooksOf w1 "" = hooksOf w "" ++ [fn] ∧
     ∃ w2,
       deprecateHook "" deprecated w1 = Some w2 ∧
       (∀ n, hooksOf w2 n = if decide (n = "") then [] else hooksOf w1 n) ∧
       console w2 = console w1).
Proof.
  intros (Hok & _ & _)%reachable_inv Hne Hres. split.
  - intros v allow. unfold hook. by destruct v.
  - exists (UClosure (length (unregs w))), (registered name "" dep fn true w).
    split_and!.
    + by apply hook_resolved.
    + by rewrite registered_hooksOf, decide_True.
    + eexists. split_and!.
      * unfold deprecateHook. apply migrate_empty_name.
      * intros n. unfold hooksOf. simpl. case_decide as Hn.
        -- subst n. by rewrite lookup_insert_eq.
        -- by rewrite lookup_insert_ne.
      * done.
Qed.

Lemma empty_name_edge_witness :
  (∀ v allow, hook "" v allow nameless_world = Some (UNoop, nameless_world)) ∧
  (∃ u w1,
     hook "old" (VFn (UserFn 4)) true nameless_world = Some (u, w1) ∧
     hooksOf w1 "" = hooksOf nameless_world "" ++ [UserFn 4] ∧
     ∃ w2,
       deprecateHook "" (inl "x") w1 = Some w2 ∧
       (∀ n, hooksOf w2 n = if decide (n = "") then [] else hooksOf w1 n) ∧
       console w2 = console w1).
Proof.
  apply (empty_name_edge nameless_world "old" (Some (to_ "")) (UserFn 4)
           (inl "x")).
  - apply (run_ops_reachable [OpDeprecateHook "old" (inl "")] constructor);
      [apply reachable_new | reflexivity].
  - discriminate.
  - reflexivity.
Defined.
